(** * API-practice: the request-validation contract of [main.py]

    A shallow embedding of [src/main.py], a FastAPI application made of
    independent, stateless endpoints.  The file has four layers:

    - [Py]: the Python values the handlers compute with (dynamically typed,
      with the exceptions the operators raise);
    - [Wire]: the canonical parses of wire text into typed values;
    - [FastAPI]: field specs, the field validator and the dispatcher;
    - [Main]: the top-level statements of [main.py], executed in order.

    The properties of the specification follow the definitions. *)

From Stdlib Require Import ZArith List String Ascii Bool Lia.
From Stdlib Require Import Floats.SpecFloat.
Import ListNotations.

Set Warnings "-register-all".

Open Scope string_scope.
Open Scope Z_scope.

(* ===================================================================== *)
(** * Python values and operators                                         *)
(* ===================================================================== *)

Module Py.

(** Python's [float] is IEEE 754 binary64. *)
Definition float := spec_float.
Definition prec : Z := 53.
Definition emax : Z := 1024.

Definition fadd : float -> float -> float := SFadd prec emax.
Definition fsub : float -> float -> float := SFsub prec emax.
Definition flt : float -> float -> bool := SFltb.
Definition fle : float -> float -> bool := SFleb.
Definition feq : float -> float -> bool := SFeqb.
Definition float_of_Z (z : Z) : float := binary_normalize prec emax z 0 false.

(** [m / 10^k], correctly rounded: the value of a decimal literal. *)
Definition float_of_decimal (neg : bool) (m : Z) (k : nat) : float :=
  match m, 10 ^ Z.of_nat k with
  | Zpos p, Zpos q =>
      SFdiv prec emax (S754_finite neg p 0) (S754_finite false q 0)
  | _, _ => S754_zero neg
  end.

(** [datetime.datetime]: microseconds since 0001-01-01T00:00:00 on the
    object's own wall clock, and the UTC offset (in microseconds) of an
    aware object; [None] for a naive one. *)
Record datetime := mk_datetime { dt_us : Z; dt_tz : option Z }.

(** [datetime.time]: microseconds since midnight and the optional offset. *)
Record time := mk_time { tm_us : Z; tm_tz : option Z }.

(** [datetime.timedelta], in microseconds. *)
Definition timedelta := Z.

Definition US_PER_SECOND : Z := 1000000.
Definition US_PER_DAY : Z := 86400 * US_PER_SECOND.

(** [datetime.max] is 9999-12-31T23:59:59.999999, ordinal day 3652059. *)
Definition MAXORDINAL : Z := 3652059.
Definition MAX_DATETIME_US : Z := MAXORDINAL * US_PER_DAY - 1.

(** [timedelta.max] is 999999999 days, 23:59:59.999999; [timedelta.min] is
    -999999999 days. *)
Definition MAX_DELTA_DAYS : Z := 999999999.
Definition timedelta_in_range (d : Z) : bool :=
  (- MAX_DELTA_DAYS * US_PER_DAY <=? d) && (d <? (MAX_DELTA_DAYS + 1) * US_PER_DAY).
Definition datetime_in_range (us : Z) : bool :=
  (0 <=? us) && (us <=? MAX_DATETIME_US).

(** The invariant of a [datetime] object: a wall clock between
    [datetime.min] and [datetime.max], and an offset strictly within a day. *)
Definition datetime_ok (d : datetime) : bool :=
  datetime_in_range (dt_us d)
  && match dt_tz d with
     | Some o => (- US_PER_DAY <? o) && (o <? US_PER_DAY)
     | None => true
     end.

Inductive exn :=
| TypeError (msg : string)
| OverflowError (msg : string)
| ValueError (msg : string)
| KeyError (key : string).

(** Python objects, as far as [main.py] handles them.  A [dict] keeps its
    keys in insertion order, so it is an association list. *)
Inductive value :=
| VNone
| VBool (b : bool)
| VInt (z : Z)
| VFloat (f : float)
| VStr (s : string)
| VUuid (u : Z)
| VDatetime (d : datetime)
| VTimedelta (d : timedelta)
| VTime (t : time)
| VList (l : list value)
| VDict (d : list (string * value)).

Definition dict := list (string * value).

(** A computation that returns or raises. *)
Inductive res (A : Type) :=
| Return (a : A)
| Raise (e : exn).
Arguments Return {A} a.
Arguments Raise {A} e.

Definition bind {A B} (m : res A) (k : A -> res B) : res B :=
  match m with
  | Return a => k a
  | Raise e => Raise e
  end.

Notation "x <- m ;; k" := (bind m (fun x => k))
  (at level 61, m at next level, right associativity).

(** ** Dictionaries *)

(** [d.get(k)] *)
Fixpoint dict_get (k : string) (d : dict) : option value :=
  match d with
  | [] => None
  | (k', v) :: d' => if String.eqb k k' then Some v else dict_get k d'
  end.

(** [d[k] = v]: an existing key keeps its position. *)
Fixpoint dict_set (k : string) (v : value) (d : dict) : dict :=
  match d with
  | [] => [(k, v)]
  | (k', v') :: d' =>
      if String.eqb k k' then (k', v) :: d' else (k', v') :: dict_set k v d'
  end.

(** [d.update(e)], also the meaning of [{**d, **e}]. *)
Definition dict_update (d e : dict) : dict :=
  fold_left (fun acc kv => dict_set (fst kv) (snd kv) acc) e d.

(** A dict display [{k1: v1, ..., kn: vn}]. *)
Definition dict_of (items : list (string * value)) : dict :=
  dict_update [] items.

Definition dict_has (k : string) (d : dict) : bool :=
  match dict_get k d with Some _ => true | None => false end.

(** A keyword argument of a handler call. *)
Definition arg (k : string) (kwargs : dict) : res value :=
  match dict_get k kwargs with
  | Some v => Return v
  | None => Raise (TypeError ("missing required argument: " ++ k))
  end.

(** Attribute access on a model instance, [item.tax]. *)
Definition getattr (o : value) (k : string) : res value :=
  match o with
  | VDict d =>
      match dict_get k d with
      | Some v => Return v
      | None => Raise (TypeError ("object has no attribute " ++ k))
      end
  | _ => Raise (TypeError ("object has no attribute " ++ k))
  end.

(** [item.dict()] of a model instance: its fields, in declaration order. *)
Definition model_dict (o : value) : res dict :=
  match o with
  | VDict d => Return d
  | _ => Raise (TypeError "object has no attribute dict")
  end.

(** ** Truth, membership, arithmetic *)

Definition is_none (v : value) : bool :=
  match v with VNone => true | _ => false end.

(** [bool(v)], the test of [if v:]. *)
Definition truthy (v : value) : bool :=
  match v with
  | VNone => false
  | VBool b => b
  | VInt z => negb (z =? 0)
  | VFloat f => negb (feq f (S754_zero false))
  | VStr s => negb (String.eqb s "")
  | VUuid _ => true
  | VDatetime _ => true
  | VTimedelta d => negb (d =? 0)
  | VTime _ => true
  | VList l => match l with [] => false | _ => true end
  | VDict d => match d with [] => false | _ => true end
  end.

(** [needle in hay] on strings: substring search. *)
Fixpoint str_contains (needle hay : string) : bool :=
  if String.prefix needle hay then true
  else match hay with
       | EmptyString => false
       | String _ hay' => str_contains needle hay'
       end.

Definition int_of_bool (b : bool) : Z := if b then 1 else 0.

Definition mk_timedelta (d : Z) : res value :=
  if timedelta_in_range d then Return (VTimedelta d)
  else Raise (OverflowError "days out of range").

(** [datetime + timedelta]: the wall clock moves, the offset stays. *)
Definition datetime_add (d : datetime) (td : timedelta) : res value :=
  let us := dt_us d + td in
  if datetime_in_range us then Return (VDatetime (mk_datetime us (dt_tz d)))
  else Raise (OverflowError "date value out of range").

(** [datetime - datetime]: both naive, or both aware (then compared in UTC). *)
Definition datetime_diff (a b : datetime) : res value :=
  match dt_tz a, dt_tz b with
  | None, None => mk_timedelta (dt_us a - dt_us b)
  | Some oa, Some ob => mk_timedelta (dt_us a - dt_us b + ob - oa)
  | _, _ => Raise (TypeError "can't subtract offset-naive and offset-aware datetimes")
  end.

(** [a + b] *)
Definition add (a b : value) : res value :=
  match a, b with
  | VInt x, VInt y => Return (VInt (x + y))
  | VInt x, VBool y => Return (VInt (x + int_of_bool y))
  | VBool x, VInt y => Return (VInt (int_of_bool x + y))
  | VBool x, VBool y => Return (VInt (int_of_bool x + int_of_bool y))
  | VFloat x, VFloat y => Return (VFloat (fadd x y))
  | VFloat x, VInt y => Return (VFloat (fadd x (float_of_Z y)))
  | VInt x, VFloat y => Return (VFloat (fadd (float_of_Z x) y))
  | VFloat x, VBool y => Return (VFloat (fadd x (float_of_Z (int_of_bool y))))
  | VBool x, VFloat y => Return (VFloat (fadd (float_of_Z (int_of_bool x)) y))
  | VStr x, VStr y => Return (VStr (x ++ y))
  | VList x, VList y => Return (VList (x ++ y))
  | VDatetime d, VTimedelta td => datetime_add d td
  | VTimedelta td, VDatetime d => datetime_add d td
  | VTimedelta x, VTimedelta y => mk_timedelta (x + y)
  | _, _ => Raise (TypeError "unsupported operand type(s) for +")
  end.

(** [a - b] *)
Definition sub (a b : value) : res value :=
  match a, b with
  | VInt x, VInt y => Return (VInt (x - y))
  | VInt x, VBool y => Return (VInt (x - int_of_bool y))
  | VBool x, VInt y => Return (VInt (int_of_bool x - y))
  | VBool x, VBool y => Return (VInt (int_of_bool x - int_of_bool y))
  | VFloat x, VFloat y => Return (VFloat (fsub x y))
  | VFloat x, VInt y => Return (VFloat (fsub x (float_of_Z y)))
  | VInt x, VFloat y => Return (VFloat (fsub (float_of_Z x) y))
  | VFloat x, VBool y => Return (VFloat (fsub x (float_of_Z (int_of_bool y))))
  | VBool x, VFloat y => Return (VFloat (fsub (float_of_Z (int_of_bool x)) y))
  | VDatetime x, VDatetime y => datetime_diff x y
  | VDatetime d, VTimedelta td => datetime_add d (- td)
  | VTimedelta x, VTimedelta y => mk_timedelta (x - y)
  | _, _ => Raise (TypeError "unsupported operand type(s) for -")
  end.

(** [a < b] and [a <= b] on numbers; [None] where Python raises.  An [int]
    met with a [float] is compared through its conversion, which is exact
    up to [2^53]. *)
Definition as_float (a : value) : option float :=
  match a with
  | VInt x => Some (float_of_Z x)
  | VBool x => Some (float_of_Z (int_of_bool x))
  | VFloat x => Some x
  | _ => None
  end.

Definition num_lt (a b : value) : option bool :=
  match a, b with
  | VInt x, VInt y => Some (x <? y)
  | _, _ =>
      match as_float a, as_float b with
      | Some x, Some y => Some (flt x y)
      | _, _ => None
      end
  end.

Definition num_le (a b : value) : option bool :=
  match a, b with
  | VInt x, VInt y => Some (x <=? y)
  | _, _ =>
      match as_float a, as_float b with
      | Some x, Some y => Some (fle x y)
      | _, _ => None
      end
  end.

(** [len(v)] *)
Definition len (v : value) : option nat :=
  match v with
  | VStr s => Some (String.length s)
  | VList l => Some (List.length l)
  | VDict d => Some (List.length d)
  | _ => None
  end.

(** [a == b] on strings (the only comparison [main.py] makes). *)
Definition str_eq (a : value) (s : string) : bool :=
  match a with
  | VStr x => String.eqb x s
  | _ => false
  end.

End Py.

(* ===================================================================== *)
(** * Canonical parses of wire text                                       *)
(* ===================================================================== *)

(** Modelled from the spec: the framework's parsers are not part of
    [main.py]; section 4.2 asks for "a canonical parse" of each primitive
    scalar.  The grammars below are the plain textual forms: signed decimal
    integers, decimal floats with optional fraction and exponent, the
    boolean words, hyphenated hexadecimal UUIDs and ISO 8601 timestamps. *)
Module Wire.
Import Py.

Definition obind {A B} (m : option A) (k : A -> option B) : option B :=
  match m with
  | Some a => k a
  | None => None
  end.

Notation "' p <-? m ;; k" := (obind m (fun p => k))
  (at level 61, p pattern, m at next level, right associativity).
Notation "x <-? m ;; k" := (obind m (fun x => k))
  (at level 61, m at next level, right associativity).

Definition guard (b : bool) : option unit := if b then Some tt else None.

Definition digit (c : ascii) : option Z :=
  let n := Z.of_N (N_of_ascii c) in
  if (48 <=? n) && (n <=? 57) then Some (n - 48) else None.

Definition hex_digit (c : ascii) : option Z :=
  let n := Z.of_N (N_of_ascii c) in
  if (48 <=? n) && (n <=? 57) then Some (n - 48)
  else if (97 <=? n) && (n <=? 102) then Some (n - 87)
  else if (65 <=? n) && (n <=? 70) then Some (n - 55)
  else None.

(** All characters of [s] as digits in the given base, most significant
    first; succeeds on the empty string with [acc]. *)
Fixpoint number_acc (dig : ascii -> option Z) (base acc : Z) (s : string)
  : option Z :=
  match s with
  | EmptyString => Some acc
  | String c s' => d <-? dig c ;; number_acc dig base (base * acc + d) s'
  end.

Definition digits (s : string) : option Z :=
  match s with
  | EmptyString => None
  | _ => number_acc digit 10 0 s
  end.

Definition split_sign (s : string) : bool * string :=
  match s with
  | String "-" s' => (true, s')
  | String "+" s' => (false, s')
  | _ => (false, s)
  end.

(** [int]: an optional sign and at least one decimal digit. *)
Definition parse_int (s : string) : option Z :=
  let (neg, body) := split_sign s in
  n <-? digits body ;;
  Some (if neg then - n else n).

(** Split at the first occurrence of [c]. *)
Fixpoint split_at (c : ascii) (s : string) : string * option string :=
  match s with
  | EmptyString => (EmptyString, None)
  | String x s' =>
      if Ascii.eqb x c then (EmptyString, Some s')
      else let (a, b) := split_at c s' in (String x a, b)
  end.

Definition to_lower (c : ascii) : ascii :=
  let n := N_of_ascii c in
  if ((65 <=? n) && (n <=? 90))%N then ascii_of_N (n + 32) else c.

Fixpoint lower (s : string) : string :=
  match s with
  | EmptyString => EmptyString
  | String c s' => String (to_lower c) (lower s')
  end.

Definition mem_str (s : string) (l : list string) : bool :=
  existsb (String.eqb s) l.

(** [m * 10^e], correctly rounded. *)
Definition float_of_sci (neg : bool) (m e : Z) : float :=
  if 0 <=? e then float_of_decimal neg (m * 10 ^ e) 0
  else float_of_decimal neg m (Z.to_nat (- e)).

(** [float]: [inf], [infinity] and [nan] in any case, or a decimal literal:
    digits, an optional point and more digits (at least one digit in all),
    and an optional exponent [e] with a signed integer. *)
Definition parse_float (s : string) : option float :=
  let (neg, body) := split_sign (lower s) in
  if mem_str body ["inf"; "infinity"] then Some (S754_infinity neg)
  else if String.eqb body "nan" then Some S754_nan
  else
    let (mant, ex) := split_at "e" body in
    let (ip, fp) := split_at "." mant in
    let fp := match fp with Some f => f | None => EmptyString end in
    _ <-? guard (negb (String.eqb (ip ++ fp) "")) ;;
    m <-? number_acc digit 10 0 (ip ++ fp) ;;
    e <-? match ex with
          | None => Some 0
          | Some x => parse_int x
          end ;;
    Some (float_of_sci neg m (e - Z.of_nat (String.length fp))).

(** [bool]: the words the validator reads as true or false. *)
Definition parse_bool (s : string) : option bool :=
  let w := lower s in
  if mem_str w ["1"; "on"; "t"; "true"; "y"; "yes"] then Some true
  else if mem_str w ["0"; "off"; "f"; "false"; "n"; "no"] then Some false
  else None.

(** Exactly [n] leading characters of [s], and the rest. *)
Fixpoint take (n : nat) (s : string) : option (string * string) :=
  match n, s with
  | O, _ => Some (EmptyString, s)
  | S n', String c s' =>
      '(a, b) <-? take n' s' ;; Some (String c a, b)
  | S _, EmptyString => None
  end.

(** Exactly [n] leading decimal digits, as a number. *)
Definition fixed (n : nat) (s : string) : option (Z * string) :=
  '(a, b) <-? take n s ;;
  z <-? number_acc digit 10 0 a ;;
  Some (z, b).

Definition expect (c : ascii) (s : string) : option string :=
  match s with
  | String x s' => if Ascii.eqb x c then Some s' else None
  | EmptyString => None
  end.

(** [UUID]: 8-4-4-4-12 hexadecimal digits. *)
Definition parse_uuid (s : string) : option Z :=
  '(a, s) <-? take 8 s ;; s <-? expect "-" s ;;
  '(b, s) <-? take 4 s ;; s <-? expect "-" s ;;
  '(c, s) <-? take 4 s ;; s <-? expect "-" s ;;
  '(d, s) <-? take 4 s ;; s <-? expect "-" s ;;
  '(e, s) <-? take 12 s ;;
  _ <-? guard (String.eqb s "") ;;
  number_acc hex_digit 16 0 (a ++ b ++ c ++ d ++ e).

(** The proleptic Gregorian calendar of [datetime]. *)
Definition is_leap (y : Z) : bool :=
  (y mod 4 =? 0) && (negb (y mod 100 =? 0) || (y mod 400 =? 0)).

Definition days_in_month (y m : Z) : Z :=
  if m =? 2 then (if is_leap y then 29 else 28)
  else if (m =? 4) || (m =? 6) || (m =? 9) || (m =? 11) then 30
  else 31.

Definition days_before_year (y : Z) : Z :=
  let p := y - 1 in p * 365 + p / 4 - p / 100 + p / 400.

Definition days_before_month (y m : Z) : Z :=
  fold_left (fun acc k => acc + days_in_month y (Z.of_nat k))
            (seq 1 (Z.to_nat (m - 1))) 0.

Definition ymd2ord (y m d : Z) : Z :=
  days_before_year y + days_before_month y m + d.

(** Fraction of a second, [.f] with one to six digits, as microseconds. *)
Definition parse_fraction (s : string) : option (Z * string) :=
  match s with
  | String "." s' =>
      let fix go (n : nat) (scale acc : Z) (s : string) : Z * string :=
        match n, s with
        | S n', String c r =>
            match digit c with
            | Some d => go n' (scale / 10) (acc + d * scale) r
            | None => (acc, s)
            end
        | _, _ => (acc, s)
        end in
      match s' with
      | String c _ => _ <-? digit c ;; Some (go 6%nat 100000 0 s')
      | EmptyString => None
      end
  | _ => Some (0, s)
  end.

(** [HH:MM:SS(.f)?], as microseconds since midnight. *)
Definition parse_clock (s : string) : option (Z * string) :=
  '(h, s) <-? fixed 2 s ;; s <-? expect ":" s ;;
  '(mi, s) <-? fixed 2 s ;; s <-? expect ":" s ;;
  '(sec, s) <-? fixed 2 s ;;
  '(us, s) <-? parse_fraction s ;;
  _ <-? guard ((h <? 24) && (mi <? 60) && (sec <? 60)) ;;
  Some (((h * 60 + mi) * 60 + sec) * US_PER_SECOND + us, s).

(** The zone suffix: none (naive), [Z], or [+HH:MM] / [-HH:MM]. *)
Definition parse_zone (s : string) : option (option Z) :=
  match s with
  | EmptyString => Some None
  | "Z" => Some (Some 0)
  | String c s' =>
      sign <-? (if Ascii.eqb c "+" then Some 1
                else if Ascii.eqb c "-" then Some (-1) else None) ;;
      '(h, s) <-? fixed 2 s' ;; s <-? expect ":" s ;;
      '(mi, s) <-? fixed 2 s ;;
      _ <-? guard (String.eqb s "" && (h <? 24) && (mi <? 60)) ;;
      Some (Some (sign * (h * 60 + mi) * 60 * US_PER_SECOND))
  end.

(** [datetime]: [YYYY-MM-DDTHH:MM:SS(.f)?(Z|+HH:MM|-HH:MM)?]. *)
Definition parse_datetime (s : string) : option datetime :=
  '(y, s) <-? fixed 4 s ;; s <-? expect "-" s ;;
  '(m, s) <-? fixed 2 s ;; s <-? expect "-" s ;;
  '(d, s) <-? fixed 2 s ;; s <-? expect "T" s ;;
  '(clock, s) <-? parse_clock s ;;
  tz <-? parse_zone s ;;
  _ <-? guard ((1 <=? y) && (1 <=? m) && (m <=? 12)
               && (1 <=? d) && (d <=? days_in_month y m)) ;;
  Some (mk_datetime ((ymd2ord y m d - 1) * US_PER_DAY + clock) tz).

(** [time]: [HH:MM:SS(.f)?(Z|+HH:MM|-HH:MM)?]. *)
Definition parse_time (s : string) : option time :=
  '(clock, s) <-? parse_clock s ;;
  tz <-? parse_zone s ;;
  Some (mk_time clock tz).

End Wire.

(* ===================================================================== *)
(** * Field specs, field validator, dispatcher                            *)
(* ===================================================================== *)

Module FastAPI.
Import Py Wire.

Inductive source := Path | Query | Header | Cookie | Body.

Inductive http_method := GET | POST | PUT.

(** Target types of a field spec. *)
Inductive ftype :=
| TStr | TInt | TFloat | TBool | TUuid | TDatetime | TTimedelta | TTime
| TEnum (members : list string)
| TLiteral (allowed : list string)
| TList (elt : ftype)
| TOptional (t : ftype)
| TObject.

(** One character class of a pattern. *)
Inductive char_class :=
| Lit (c : ascii)
| Range (lo hi : ascii).

(** The keyword arguments of [Path], [Query], [Field], ...: the alias and
    the declarative constraints.  [title], [description] and [deprecated]
    are documentation only and are left out.  A pattern is anchored at both
    ends and made of one class per character, which covers the one pattern
    of [main.py]. *)
Record field_info := mk_info {
  alias : option string;
  ge : option value;
  gt : option value;
  le : option value;
  lt : option value;
  min_length : option nat;
  max_length : option nat;
  pattern : option (list char_class)
}.

Definition no_info : field_info :=
  mk_info None None None None None None None None.

Inductive constraint_kind :=
| LengthBound
| NumericRange
| PatternMismatch.

Inductive error_kind :=
| MissingFieldError
| TypeCoercionError (attempted : value) (expected : ftype)
| InvalidEnumValueError (allowed : list string)
| ConstraintViolationError (kind : constraint_kind)
| CustomValidationError (msg : string)
| UnexpectedFieldError.

Record field_error := mk_error {
  err_source : source;
  err_field : string;
  err_kind : error_kind
}.

(** A field spec.  [f_default = None] marks a required field;
    [f_after] are the custom predicates, in declaration order. *)
Record field := mk_field {
  f_name : string;
  f_type : ftype;
  f_default : option value;
  f_info : field_info;
  f_after : list (value -> res value)
}.

(** A structured group: a model class with its declared members. *)
Record model := mk_model {
  m_fields : list field;
  m_extra_forbid : bool
}.

(** An entry of an input schema: one field of a source, or a structured
    group collected from a whole source. *)
Inductive param :=
| PField (src : source) (f : field)
| PGroup (src : source) (name : string) (m : model).

Definition handler := dict -> res value.

Record route := mk_route {
  r_method : http_method;
  r_path : string;
  r_name : string;
  r_params : list param;
  r_handler : handler
}.

(** The raw request the substrate hands over once it has matched a route:
    the path parameters it extracted, the query pairs, header pairs (names
    in lower case) and cookie pairs in arrival order, and the decoded JSON
    body if there is one. *)
Record request := mk_request {
  path_params : list (string * value);
  query : list (string * value);
  headers : list (string * value);
  cookies : list (string * value);
  body : option value
}.

Definition wire_name (f : field) : string :=
  match alias (f_info f) with
  | Some a => a
  | None => f_name f
  end.

(** All values sent under [k], in arrival order. *)
Definition values_of (k : string) (raw : list (string * value)) : list value :=
  map snd (filter (fun kv => String.eqb k (fst kv)) raw).

(** The value of a key sent once or more: the last one wins. *)
Definition last_value (k : string) (raw : list (string * value)) : option value :=
  last (map Some (values_of k raw)) None.

Definition is_list_type (t : ftype) : bool :=
  match t with
  | TList _ => true
  | TOptional (TList _) => true
  | _ => false
  end.

Definition multi_valued (src : source) : bool :=
  match src with
  | Query | Header => true
  | _ => false
  end.

(** The raw input of field [f] among the pairs of its source: a list-typed
    field of a repeatable source collects every repetition. *)
Definition raw_of (src : source) (f : field) (raw : list (string * value))
  : option value :=
  if multi_valued src && is_list_type (f_type f) then
    match values_of (wire_name f) raw with
    | [] => None
    | vs => Some (VList vs)
    end
  else last_value (wire_name f) raw.

Definition class_matches (cc : char_class) (c : ascii) : bool :=
  match cc with
  | Lit x => Ascii.eqb x c
  | Range lo hi => ((N_of_ascii lo <=? N_of_ascii c)
                    && (N_of_ascii c <=? N_of_ascii hi))%N
  end.

Fixpoint pattern_matches (p : list char_class) (s : string) : bool :=
  match p, s with
  | [], EmptyString => true
  | cc :: p', String c s' => class_matches cc c && pattern_matches p' s'
  | _, _ => false
  end.

(** ** Field validator *)

Definition parsed {A} (t : ftype) (v : value) (wrap : A -> value)
  (o : option A) : error_kind + value :=
  match o with
  | Some a => inr (wrap a)
  | None => inl (TypeCoercionError v t)
  end.

(** An object is built only if its invariant holds. *)
Definition checked {A} (ok : A -> bool) (o : option A) : option A :=
  match o with
  | Some a => if ok a then Some a else None
  | None => None
  end.

(** All elements coerced, or the error of the first one that fails. *)
Fixpoint coerce_all (c : value -> error_kind + value) (l : list value)
  : error_kind + list value :=
  match l with
  | [] => inr []
  | x :: l' =>
      match c x with
      | inl e => inl e
      | inr y =>
          match coerce_all c l' with
          | inl e => inl e
          | inr ys => inr (y :: ys)
          end
      end
  end.

(** Modelled from the spec: type coercion of section 4.2.  A value that is
    already of the target type is canonical and is kept; wire text goes
    through the canonical parse; a JSON integer is accepted for a float and,
    as a number of seconds, for a duration. *)
Fixpoint coerce (t : ftype) (v : value) : error_kind + value :=
  let fail := inl (TypeCoercionError v t) in
  match t with
  | TStr => match v with VStr _ => inr v | _ => fail end
  | TInt =>
      match v with
      | VInt _ => inr v
      | VStr s => parsed t v VInt (parse_int s)
      | _ => fail
      end
  | TFloat =>
      match v with
      | VFloat _ => inr v
      | VInt z => inr (VFloat (float_of_Z z))
      | VStr s => parsed t v VFloat (parse_float s)
      | _ => fail
      end
  | TBool =>
      match v with
      | VBool _ => inr v
      | VStr s => parsed t v VBool (parse_bool s)
      | _ => fail
      end
  | TUuid =>
      match v with
      | VUuid _ => inr v
      | VStr s => parsed t v VUuid (parse_uuid s)
      | _ => fail
      end
  | TDatetime =>
      match v with
      | VDatetime d => parsed t v VDatetime (checked datetime_ok (Some d))
      | VStr s => parsed t v VDatetime (checked datetime_ok (parse_datetime s))
      | _ => fail
      end
  | TTimedelta =>
      match v with
      | VTimedelta d =>
          parsed t v VTimedelta (checked timedelta_in_range (Some d))
      | VInt z =>
          parsed t v VTimedelta
                 (checked timedelta_in_range (Some (z * US_PER_SECOND)))
      | _ => fail
      end
  | TTime =>
      match v with
      | VTime _ => inr v
      | VStr s => parsed t v VTime (parse_time s)
      | _ => fail
      end
  | TEnum members =>
      match v with
      | VStr s => if mem_str s members then inr v
                  else inl (InvalidEnumValueError members)
      | _ => inl (InvalidEnumValueError members)
      end
  | TLiteral allowed =>
      match v with
      | VStr s => if mem_str s allowed then inr v
                  else inl (InvalidEnumValueError allowed)
      | _ => inl (InvalidEnumValueError allowed)
      end
  | TList elt =>
      match v with
      | VList l =>
          match coerce_all (coerce elt) l with
          | inl e => inl e
          | inr l' => inr (VList l')
          end
      | _ => fail
      end
  | TOptional t' =>
      match v with
      | VNone => inr VNone
      | _ => coerce t' v
      end
  | TObject => match v with VDict _ => inr v | _ => fail end
  end.

(** The typed values of a target type: what a validated request holds for
    a field of that type. *)
Fixpoint has_type (t : ftype) (v : value) : Prop :=
  match t with
  | TStr => exists s, v = VStr s
  | TInt => exists z, v = VInt z
  | TFloat => exists f, v = VFloat f
  | TBool => exists b, v = VBool b
  | TUuid => exists u, v = VUuid u
  | TDatetime => exists d, v = VDatetime d /\ datetime_ok d = true
  | TTimedelta => exists d, v = VTimedelta d /\ timedelta_in_range d = true
  | TTime => exists c, v = VTime c
  | TEnum members => exists s, v = VStr s /\ mem_str s members = true
  | TLiteral allowed => exists s, v = VStr s /\ mem_str s allowed = true
  | TList elt => exists l, v = VList l /\ Forall (has_type elt) l
  | TOptional t' => v = VNone \/ has_type t' v
  | TObject => exists d, v = VDict d
  end.

Definition holds (o : option bool) : bool :=
  match o with
  | Some true => true
  | _ => false
  end.

Definition opt_all {A} (p : A -> bool) (o : option A) : bool :=
  match o with
  | Some a => p a
  | None => true
  end.

(** [ge], [gt], [le], [lt] *)
Definition in_range (fi : field_info) (v : value) : bool :=
  opt_all (fun b => holds (num_le b v)) (ge fi)
  && opt_all (fun b => holds (num_lt b v)) (gt fi)
  && opt_all (fun b => holds (num_le v b)) (le fi)
  && opt_all (fun b => holds (num_lt v b)) (lt fi).

(** [min_length], [max_length] *)
Definition in_length (fi : field_info) (v : value) : bool :=
  opt_all (fun n => match len v with Some k => (n <=? k)%nat | None => false end)
          (min_length fi)
  && opt_all (fun n => match len v with Some k => (k <=? n)%nat | None => false end)
             (max_length fi).

Definition in_pattern (fi : field_info) (v : value) : bool :=
  opt_all (fun p => match v with VStr s => pattern_matches p s | _ => false end)
          (pattern fi).

Definition exn_message (e : exn) : string :=
  match e with
  | TypeError m | OverflowError m | ValueError m | KeyError m => m
  end.

(** The custom predicates, one after the other. *)
Fixpoint run_after (fs : list (value -> res value)) (v : value)
  : error_kind + value :=
  match fs with
  | [] => inr v
  | f :: fs' =>
      match f v with
      | Return w => run_after fs' w
      | Raise e => inl (CustomValidationError (exn_message e))
      end
  end.

(** Modelled from the spec: the constrained scalar of section 4.2.  After
    coercion the constraints run in the fixed order bounds and lengths,
    pattern, custom predicates; the first failure is the field's error.
    The absent marker of an optional field carries no constraint. *)
Definition validate_value (f : field) (raw : value) : error_kind + value :=
  match coerce (f_type f) raw with
  | inl e => inl e
  | inr v =>
      if is_none v then inr v
      else if negb (in_range (f_info f) v) then
        inl (ConstraintViolationError NumericRange)
      else if negb (in_length (f_info f) v) then
        inl (ConstraintViolationError LengthBound)
      else if negb (in_pattern (f_info f) v) then
        inl (ConstraintViolationError PatternMismatch)
      else run_after (f_after f) v
  end.

(** Modelled from the spec: an absent field resolves to its default, which
    is trusted, or fails as missing when it is required. *)
Definition validate_field (f : field) (raw : option value)
  : error_kind + value :=
  match raw with
  | Some r => validate_value f r
  | None =>
      match f_default f with
      | Some d => inr d
      | None => inl MissingFieldError
      end
  end.

(** ** Schema validation *)

Definition pairs_of (src : source) (req : request) : list (string * value) :=
  match src with
  | Path => path_params req
  | Query => query req
  | Header => headers req
  | Cookie => cookies req
  | Body => match body req with
            | Some (VDict d) => d
            | _ => []
            end
  end.

(** Every declared member validated on its own; errors and values are both
    kept in declaration order. *)
Fixpoint validate_fields (src : source) (fs : list field)
  (raw : list (string * value)) : list field_error * dict :=
  match fs with
  | [] => ([], [])
  | f :: fs' =>
      let (errs, vals) := validate_fields src fs' raw in
      match validate_field f (raw_of src f raw) with
      | inl k => (mk_error src (f_name f) k :: errs, vals)
      | inr v => (errs, (f_name f, v) :: vals)
      end
  end.

Definition declared (m : model) (k : string) : bool :=
  mem_str k (map wire_name (m_fields m)).

(** Strict mode: one error per raw pair whose name is not declared. *)
Definition unexpected (src : source) (m : model)
  (raw : list (string * value)) : list field_error :=
  if m_extra_forbid m then
    map (fun kv => mk_error src (fst kv) UnexpectedFieldError)
        (filter (fun kv => negb (declared m (fst kv))) raw)
  else [].

(** Modelled from the spec: the structured group of section 4.2. *)
Definition validate_group (src : source) (m : model)
  (raw : list (string * value)) : list field_error * dict :=
  let (errs, vals) := validate_fields src (m_fields m) raw in
  ((errs ++ unexpected src m raw)%list, vals).

Definition validate_param (p : param) (req : request)
  : list field_error * dict :=
  match p with
  | PField src f =>
      match validate_field f (raw_of src f (pairs_of src req)) with
      | inl k => ([mk_error src (f_name f) k], [])
      | inr v => ([], [(f_name f, v)])
      end
  | PGroup src name m =>
      let group raw :=
        let (errs, vals) := validate_group src m raw in
        (errs, [(name, VDict vals)]) in
      match src with
      | Body =>
          match body req with
          | None => ([mk_error Body name MissingFieldError], [])
          | Some (VDict d) => group d
          | Some v => ([mk_error Body name (TypeCoercionError v TObject)], [])
          end
      | _ => group (pairs_of src req)
      end
  end.

(** Modelled from the spec: the error aggregation policy of section 4.2.
    Every entry of the schema is validated; nothing stops at the first
    failure. *)
Fixpoint validate (ps : list param) (req : request)
  : list field_error * dict :=
  match ps with
  | [] => ([], [])
  | p :: ps' =>
      let (e1, k1) := validate_param p req in
      let (e2, k2) := validate ps' req in
      ((e1 ++ e2)%list, (k1 ++ k2)%list)
  end.

Inductive validation :=
| Validated (kwargs : dict)
| Invalid (errs : list field_error).

Definition validate_request (ps : list param) (req : request) : validation :=
  match validate ps req with
  | ([], kwargs) => Validated kwargs
  | (errs, _) => Invalid errs
  end.

(** ** Typed values sent back

    A validated request, put back on the sources of its schema the way a
    client would send it: every typed value under the wire name of its
    field, a sequence of a repeatable source as one pair per element. *)

Definition send (src : source) (f : field) (v : value)
  : list (string * value) :=
  if multi_valued src && is_list_type (f_type f) then
    match v with
    | VList vs => map (fun x => (wire_name f, x)) vs
    | _ => []
    end
  else [(wire_name f, v)].

(** What one member of a group of typed values sends. *)
Definition field_sends (src : source) (f : field) (d : dict)
  : list (string * value) :=
  match dict_get (f_name f) d with
  | Some v => send src f v
  | None => []
  end.

Definition send_fields (src : source) (fs : list field) (d : dict)
  : list (string * value) :=
  flat_map (fun f => field_sends src f d) fs.

Definition param_source (p : param) : source :=
  match p with
  | PField src _ | PGroup src _ _ => src
  end.

Definition param_name (p : param) : string :=
  match p with
  | PField _ f => f_name f
  | PGroup _ name _ => name
  end.

Definition param_fields (p : param) : list field :=
  match p with
  | PField _ f => [f]
  | PGroup _ _ m => m_fields m
  end.

(** The typed values an entry draws from: the keyword arguments themselves
    for a field, the members of the model instance for a group. *)
Definition param_dict (p : param) (kwargs : dict) : option dict :=
  match p with
  | PField _ _ => Some kwargs
  | PGroup _ name _ =>
      match dict_get name kwargs with
      | Some (VDict d) => Some d
      | _ => None
      end
  end.

Definition send_param (p : param) (kwargs : dict) : list (string * value) :=
  match param_dict p kwargs with
  | Some d => send_fields (param_source p) (param_fields p) d
  | None => []
  end.

Definition source_eqb (a b : source) : bool :=
  match a, b with
  | Path, Path | Query, Query | Header, Header
  | Cookie, Cookie | Body, Body => true
  | _, _ => false
  end.

(** Everything the parameters of one source send. *)
Definition sent_on (src : source) (ps : list param) (kwargs : dict)
  : list (string * value) :=
  flat_map (fun p => if source_eqb (param_source p) src
                     then send_param p kwargs else []) ps.

(** Some entry of the schema reads the body. *)
Definition has_body (ps : list param) : bool :=
  existsb (fun p => source_eqb (param_source p) Body) ps.

Definition reify (ps : list param) (kwargs : dict) : request :=
  mk_request (sent_on Path ps kwargs) (sent_on Query ps kwargs)
             (sent_on Header ps kwargs) (sent_on Cookie ps kwargs)
             (if has_body ps
              then Some (VDict (sent_on Body ps kwargs)) else None).

(** ** Schemas whose typed values can be sent back

    The conditions under which a validated request, sent back, reads as
    itself: custom predicates only accept or reject, a default sent back is
    accepted as it is, and no two entries share a name or a wire name on
    the same source.  Strict groups are left out: [main.py] registers none. *)

Definition is_filter (g : value -> res value) : Prop :=
  forall v w, g v = Return w -> w = v.

Definition field_ok (src : source) (f : field) : Prop :=
  Forall is_filter (f_after f)
  /\ forall d, f_default f = Some d ->
               validate_field f (raw_of src f (send src f d)) = inr d.

Definition wire_keys (src : source) (ps : list param) : list string :=
  flat_map (fun p => if source_eqb (param_source p) src
                     then map wire_name (param_fields p) else []) ps.

Definition param_ok (p : param) : Prop :=
  Forall (field_ok (param_source p)) (param_fields p)
  /\ NoDup (map f_name (param_fields p))
  /\ match p with
     | PGroup _ _ m => m_extra_forbid m = false
     | PField _ _ => True
     end.

Definition schema_ok (ps : list param) : Prop :=
  Forall param_ok ps
  /\ NoDup (map param_name ps)
  /\ forall src, NoDup (wire_keys src ps).

(** ** What a violation is

    The declarative reading of sections 4.2 and 4.3, against which the
    validator is checked: the ways in which a request can violate one entry
    of a schema, each with the error that names it. *)

Definition path_arg (k : string) (req : request) : option value :=
  last_value k (path_params req).
Definition query_arg (k : string) (req : request) : option value :=
  last_value k (query req).

(** The pairs of a group are there: always for a source of pairs, and for
    the body when it is an object. *)
Definition group_present (src : source) (req : request) : Prop :=
  match src with
  | Body => exists d, body req = Some (VDict d)
  | _ => True
  end.

Inductive violation (req : request) : param -> field_error -> Prop :=
| field_violated src f k :
    validate_field f (raw_of src f (pairs_of src req)) = inl k ->
    violation req (PField src f) (mk_error src (f_name f) k)
| body_missing name m :
    body req = None ->
    violation req (PGroup Body name m) (mk_error Body name MissingFieldError)
| body_not_object name m v :
    body req = Some v ->
    (forall d, v <> VDict d) ->
    violation req (PGroup Body name m)
              (mk_error Body name (TypeCoercionError v TObject))
| member_violated src name m f k :
    group_present src req ->
    In f (m_fields m) ->
    validate_field f (raw_of src f (pairs_of src req)) = inl k ->
    violation req (PGroup src name m) (mk_error src (f_name f) k)
| extra_field src name m key v :
    group_present src req ->
    m_extra_forbid m = true ->
    In (key, v) (pairs_of src req) ->
    declared m key = false ->
    violation req (PGroup src name m) (mk_error src key UnexpectedFieldError).

(** ** Dispatcher *)

Inductive response :=
| OK (v : value)
| UnprocessableEntity (errs : list field_error)
| NotFound
| InternalServerError (e : exn).

(** What one request produced: the response and the log of the handler
    invocations made for it. *)
Record outcome := mk_outcome {
  sent : response;
  handler_calls : list dict
}.

(** Modelled from the spec: the dispatcher of section 4.3. *)
Definition serve (r : route) (req : request) : outcome :=
  match validate_request (r_params r) req with
  | Validated kwargs =>
      mk_outcome
        match r_handler r kwargs with
        | Return v => OK v
        | Raise e => InternalServerError e
        end
        [kwargs]
  | Invalid errs => mk_outcome (UnprocessableEntity errs) []
  end.

Definition method_eqb (a b : http_method) : bool :=
  match a, b with
  | GET, GET | POST, POST | PUT, PUT => true
  | _, _ => false
  end.

(** The route registered for a method and a path template; the first
    registration wins. *)
Definition lookup (app : list route) (m : http_method) (path : string)
  : option route :=
  find (fun r => method_eqb (r_method r) m && String.eqb (r_path r) path) app.

Definition dispatch (app : list route) (m : http_method) (path : string)
  (req : request) : outcome :=
  match lookup app m path with
  | Some r => serve r req
  | None => mk_outcome NotFound []
  end.

(** ** Declarations, as a module writes them *)

(** A type annotation.  [AName] is a class of the module, looked up when
    the annotation is evaluated. *)
Inductive annot :=
| AStr | AInt | AFloat | ABool | AUuid | ADatetime | ATimedelta | ATime
| AName (cls : string)
| ALiteral (allowed : list string)
| AList (a : annot)
| AOptional (a : annot).

Inductive marker := MPath | MQuery | MHeader | MCookie | MBody.

(** The metadata of [Annotated[T, ...]]. *)
Inductive meta :=
| Param (m : marker) (fi : field_info)
| AfterValidator (f : value -> res value).

(** One parameter of a handler's signature. *)
Record pdecl := mk_pdecl {
  p_name : string;
  p_annot : annot;
  p_meta : list meta;
  p_default : option value
}.

Inductive class :=
| EnumClass (members : list (string * string))
| ModelClass (m : model).

(** A top-level statement: a class definition, or a function definition
    under a route decorator. *)
Inductive stmt :=
| ClassDef (name : string) (c : class)
| RouteDef (m : http_method) (path : string) (fname : string)
           (params : list pdecl) (body : handler).

Definition namespace := list (string * class).

Fixpoint lookup_class (name : string) (ns : namespace) : option class :=
  match ns with
  | [] => None
  | (n, c) :: ns' => if String.eqb name n then Some c else lookup_class name ns'
  end.

Inductive resolved :=
| RType (t : ftype)
| RModel (m : model).

(** The value of an annotation in the namespace of the moment. *)
Fixpoint resolve_annot (ns : namespace) (a : annot) : option resolved :=
  match a with
  | AStr => Some (RType TStr)
  | AInt => Some (RType TInt)
  | AFloat => Some (RType TFloat)
  | ABool => Some (RType TBool)
  | AUuid => Some (RType TUuid)
  | ADatetime => Some (RType TDatetime)
  | ATimedelta => Some (RType TTimedelta)
  | ATime => Some (RType TTime)
  | AName c =>
      match lookup_class c ns with
      | Some (EnumClass members) => Some (RType (TEnum (map snd members)))
      | Some (ModelClass m) => Some (RModel m)
      | None => None
      end
  | ALiteral l => Some (RType (TLiteral l))
  | AList a' =>
      match resolve_annot ns a' with
      | Some (RType t) => Some (RType (TList t))
      | _ => None
      end
  | AOptional a' =>
      match resolve_annot ns a' with
      | Some (RType t) => Some (RType (TOptional t))
      | _ => None
      end
  end.

(** The parameter names of a path template: [{name}] or [{name:conv}]. *)
Fixpoint scan_template (s : string) (cur : option string) : list string :=
  match s with
  | EmptyString => []
  | String c s' =>
      match cur with
      | None =>
          if Ascii.eqb c "{" then scan_template s' (Some EmptyString)
          else scan_template s' None
      | Some acc =>
          if Ascii.eqb c "}" then fst (split_at ":" acc) :: scan_template s' None
          else scan_template s' (Some (acc ++ String c EmptyString))
      end
  end.

Definition template_params (path : string) : list string :=
  scan_template path None.

Fixpoint marker_of (ms : list meta) : option (marker * field_info) :=
  match ms with
  | [] => None
  | Param m fi :: _ => Some (m, fi)
  | AfterValidator _ :: ms' => marker_of ms'
  end.

Fixpoint afters_of (ms : list meta) : list (value -> res value) :=
  match ms with
  | [] => []
  | AfterValidator f :: ms' => f :: afters_of ms'
  | Param _ _ :: ms' => afters_of ms'
  end.

Definition source_of (m : marker) : source :=
  match m with
  | MPath => Path
  | MQuery => Query
  | MHeader => Header
  | MCookie => Cookie
  | MBody => Body
  end.

Fixpoint hyphenate (s : string) : string :=
  match s with
  | EmptyString => EmptyString
  | String c s' => String (if Ascii.eqb c "_" then "-"%char else c) (hyphenate s')
  end.

Definition with_ge (v : value) (fi : field_info) : field_info :=
  mk_info (alias fi) (Some v) (gt fi) (le fi) (lt fi)
          (min_length fi) (max_length fi) (pattern fi).
Definition with_gt (v : value) (fi : field_info) : field_info :=
  mk_info (alias fi) (ge fi) (Some v) (le fi) (lt fi)
          (min_length fi) (max_length fi) (pattern fi).
Definition with_le (v : value) (fi : field_info) : field_info :=
  mk_info (alias fi) (ge fi) (gt fi) (Some v) (lt fi)
          (min_length fi) (max_length fi) (pattern fi).
Definition with_lt (v : value) (fi : field_info) : field_info :=
  mk_info (alias fi) (ge fi) (gt fi) (le fi) (Some v)
          (min_length fi) (max_length fi) (pattern fi).
Definition with_min_length (n : nat) (fi : field_info) : field_info :=
  mk_info (alias fi) (ge fi) (gt fi) (le fi) (lt fi)
          (Some n) (max_length fi) (pattern fi).
Definition with_max_length (n : nat) (fi : field_info) : field_info :=
  mk_info (alias fi) (ge fi) (gt fi) (le fi) (lt fi)
          (min_length fi) (Some n) (pattern fi).
Definition with_pattern (p : list char_class) (fi : field_info) : field_info :=
  mk_info (alias fi) (ge fi) (gt fi) (le fi) (lt fi)
          (min_length fi) (max_length fi) (Some p).
Definition with_alias (a : string) (fi : field_info) : field_info :=
  mk_info (Some a) (ge fi) (gt fi) (le fi) (lt fi)
          (min_length fi) (max_length fi) (pattern fi).

(** How a parameter of a signature becomes an entry of the input schema:
    an explicit marker names the source; otherwise a name of the path
    template is a path parameter, a model is the request body and anything
    else is a query parameter.  A header is sent under its name with
    hyphens for underscores. *)
Definition resolve_param (ns : namespace) (path_names : list string)
  (d : pdecl) : option param :=
  r <-? resolve_annot ns (p_annot d) ;;
  let mk := marker_of (p_meta d) in
  match r with
  | RModel m =>
      let src := match mk with
                 | Some (k, _) => source_of k
                 | None => Body
                 end in
      Some (PGroup src (p_name d) m)
  | RType t =>
      let src := match mk with
                 | Some (k, _) => source_of k
                 | None => if mem_str (p_name d) path_names then Path else Query
                 end in
      let fi := match mk with
                | Some (_, fi) => fi
                | None => no_info
                end in
      let fi := match src, alias fi with
                | Header, None => with_alias (hyphenate (p_name d)) fi
                | _, _ => fi
                end in
      Some (PField src (mk_field (p_name d) t (p_default d) fi
                                 (afters_of (p_meta d))))
  end.

Fixpoint resolve_params (ns : namespace) (path_names : list string)
  (ds : list pdecl) : option (list param) :=
  match ds with
  | [] => Some []
  | d :: ds' =>
      p <-? resolve_param ns path_names d ;;
      ps <-? resolve_params ns path_names ds' ;;
      Some (p :: ps)
  end.

Definition is_body_group (p : param) : bool :=
  match p with
  | PGroup Body _ _ => true
  | _ => false
  end.

Definition is_body_param (p : param) : bool :=
  match p with
  | PGroup Body _ _ | PField Body _ => true
  | _ => false
  end.

(** The two body shapes of [main.py]: one model that is the whole body, or
    several fields that are keys of the body object.  A model next to other
    body parameters is not needed here and is not given a meaning. *)
Definition body_shape_ok (ps : list param) : bool :=
  negb (existsb is_body_group ps)
  || (List.length (filter is_body_param ps) =? 1)%nat.

(** The state of a module while it is loaded: the classes bound so far and
    the routes registered so far. *)
Record module_state := mk_state {
  classes : namespace;
  routes : list route
}.

(** A class definition binds (or rebinds) its name.  A route definition
    evaluates its annotations in the namespace as it stands, and registers
    the resulting schema with the handler. *)
Definition exec (st : module_state) (s : stmt) : option module_state :=
  match s with
  | ClassDef name c => Some (mk_state ((name, c) :: classes st) (routes st))
  | RouteDef m path fname ds h =>
      ps <-? resolve_params (classes st) (template_params path) ds ;;
      _ <-? guard (body_shape_ok ps) ;;
      Some (mk_state (classes st)
                     (routes st ++ [mk_route m path fname ps h]))
  end.

Fixpoint exec_all (st : module_state) (ss : list stmt) : option module_state :=
  match ss with
  | [] => Some st
  | s :: ss' => st' <-? exec st s ;; exec_all st' ss'
  end.

(** Importing a module: its statements run once, top to bottom. *)
Definition load (ss : list stmt) : option (list route) :=
  st <-? exec_all (mk_state [] []) ss ;; Some (routes st).

End FastAPI.

(* ===================================================================== *)
(** * main.py                                                             *)
(* ===================================================================== *)

Module Main.
Import Py Wire FastAPI.

(** Shorthands for the ways [main.py] writes a parameter or a class
    attribute. *)
Definition plain (name : string) (a : annot) : pdecl :=
  mk_pdecl name a [] None.
Definition defaulted (name : string) (a : annot) (d : value) : pdecl :=
  mk_pdecl name a [] (Some d).
Definition annotated (name : string) (a : annot) (ms : list meta) : pdecl :=
  mk_pdecl name a ms None.
Definition annotated_default (name : string) (a : annot) (ms : list meta)
  (d : value) : pdecl :=
  mk_pdecl name a ms (Some d).

Definition attr (name : string) (t : ftype) : field :=
  mk_field name t None no_info [].
Definition attr_default (name : string) (t : ftype) (d : value) : field :=
  mk_field name t (Some d) no_info [].
Definition attr_field (name : string) (t : ftype) (d : value)
  (fi : field_info) : field :=
  mk_field name t (Some d) fi [].

Definition str_dict (items : list (string * value)) : value :=
  VDict (dict_of items).

(** -------------------- BASIC ROUTES -------------------- *)

Definition root (kwargs : dict) : res value :=
  Return (str_dict [("message", VStr "Hello World")]).

Definition say_hello (kwargs : dict) : res value :=
  name <- arg "name" kwargs ;;
  greeting <- add (VStr "Hello, ") name ;;
  message <- add greeting (VStr "!") ;;
  Return (str_dict [("message", message)]).

(** -------------------- USERS -------------------- *)

Definition read_current_user (kwargs : dict) : res value :=
  Return (str_dict [("user_id", VStr "the current user")]).

Definition read_user (kwargs : dict) : res value :=
  user_id <- arg "user_id" kwargs ;;
  Return (str_dict [("user_id", user_id)]).

Definition read_users (kwargs : dict) : res value :=
  Return (VList [VStr "Rick"; VStr "Morty"]).

Definition read_user_item (kwargs : dict) : res value :=
  user_id <- arg "user_id" kwargs ;;
  item_id <- arg "item_id" kwargs ;;
  q <- arg "q" kwargs ;;
  short <- arg "short" kwargs ;;
  Return (str_dict [("user_id", user_id); ("item_id", item_id);
                    ("q", q); ("short", short)]).

(** -------------------- MODELS -------------------- *)

Definition ModelName : class :=
  EnumClass [("alexnet", "alexnet"); ("resent", "resent"); ("lenet", "lenet")].

Definition get_model (kwargs : dict) : res value :=
  model_name <- arg "model_name" kwargs ;;
  if str_eq model_name "alexnet" then
    Return (str_dict [("model_name", model_name);
                      ("message", VStr "Deep Learning FTW!")])
  else if str_eq model_name "lenet" then
    Return (str_dict [("model_name", model_name);
                      ("message", VStr "LeCNN all the images")])
  else
    Return (str_dict [("model_name", model_name);
                      ("message", VStr "Have some ridiculous")]).

(** -------------------- FILES -------------------- *)

Definition read_file (kwargs : dict) : res value :=
  file_path <- arg "file_path" kwargs ;;
  Return (str_dict [("file_path", file_path)]).

(** -------------------- ITEMS -------------------- *)

Definition Item : model :=
  mk_model [attr "name" TStr;
            attr_default "description" (TOptional TStr) VNone;
            attr "price" TFloat;
            attr_default "tax" (TOptional TFloat) VNone]
           false.

Definition create_item (kwargs : dict) : res value :=
  item <- arg "item" kwargs ;;
  item_dict <- model_dict item ;;
  tax <- getattr item "tax" ;;
  if negb (is_none tax) then
    price <- getattr item "price" ;;
    price_with_tax <- add price tax ;;
    Return (VDict (dict_set "price_with_tax" price_with_tax item_dict))
  else
    Return (VDict item_dict).

Definition update_item (kwargs : dict) : res value :=
  item_id <- arg "item_id" kwargs ;;
  item <- arg "item" kwargs ;;
  q <- arg "q" kwargs ;;
  item_dict <- model_dict item ;;
  let result := dict_update (dict_of [("item_id", item_id)]) item_dict in
  if truthy q then
    Return (VDict (dict_update result (dict_of [("q", q)])))
  else
    Return (VDict result).

Definition read_item (kwargs : dict) : res value :=
  item_id <- arg "item_id" kwargs ;;
  q <- arg "q" kwargs ;;
  let results := dict_of [("item_id", item_id)] in
  if truthy q then
    Return (VDict (dict_update results (dict_of [("q", q)])))
  else
    Return (VDict results).

(** -------------------- QUERY PARAMETERS -------------------- *)

Definition get_usernames (kwargs : dict) : res value :=
  username <- arg "username" kwargs ;;
  Return (str_dict [("username", username)]).

(** [^PROD-[0-9]{4}$] *)
Definition product_code_pattern : list char_class :=
  [Lit "P"; Lit "R"; Lit "O"; Lit "D"; Lit "-";
   Range "0" "9"; Range "0" "9"; Range "0" "9"; Range "0" "9"].

Definition get_product (kwargs : dict) : res value :=
  code <- arg "code" kwargs ;;
  Return (str_dict [("code", code)]).

Definition search_items (kwargs : dict) : res value :=
  keyword <- arg "keyword" kwargs ;;
  Return (str_dict [("search_keyword", keyword)]).

Definition deprecated_param (kwargs : dict) : res value :=
  old_param <- arg "old_param" kwargs ;;
  new_param <- arg "new_param" kwargs ;;
  Return (str_dict [("old_param", old_param); ("new_param", new_param)]).

(** -------------------- VALIDATION EXAMPLE -------------------- *)

Definition no_spaces (v : value) : res value :=
  match v with
  | VStr s =>
      if str_contains " " s then
        Raise (ValueError "Value must not contain spaces")
      else Return v
  | _ => Raise (TypeError "argument of this type is not iterable")
  end.

Definition validate_input (kwargs : dict) : res value :=
  text <- arg "text" kwargs ;;
  Return (str_dict [("text", text)]).

(** -------------------- PRODUCT PATH PARAMETERS -------------------- *)

Definition get_product_by_id (kwargs : dict) : res value :=
  product_id <- arg "product_id" kwargs ;;
  Return (str_dict [("product_id", product_id)]).

Definition get_size (kwargs : dict) : res value :=
  item_id <- arg "item_id" kwargs ;;
  size <- arg "size" kwargs ;;
  Return (str_dict [("item_id", item_id); ("size", size)]).

(** -------------------- QUERY MODELS -------------------- *)

Definition FilterParams : model :=
  mk_model [attr_field "limit" TInt (VInt 100)
                       (with_gt (VInt 0) (with_le (VInt 100) no_info));
            attr_field "offset" TInt (VInt 0) (with_ge (VInt 0) no_info);
            attr_default "order_by" (TLiteral ["created_at"; "updated_at"])
                         (VStr "created_at");
            attr_default "tags" (TList TStr) (VList [])]
           false.

Definition read_items (kwargs : dict) : res value :=
  filter_query <- arg "filter_query" kwargs ;;
  Return filter_query.

(** -------------------- EXTRA DATA TYPES -------------------- *)

Definition process_item (kwargs : dict) : res value :=
  item_id <- arg "item_id" kwargs ;;
  start_datetime <- arg "start_datetime" kwargs ;;
  end_datetime <- arg "end_datetime" kwargs ;;
  process_after <- arg "process_after" kwargs ;;
  repeat_at <- arg "repeat_at" kwargs ;;
  start_process <- add start_datetime process_after ;;
  duration <- sub end_datetime start_process ;;
  Return (str_dict [("item_id", item_id);
                    ("start_datetime", start_datetime);
                    ("end_datetime", end_datetime);
                    ("process_after", process_after);
                    ("repeat_at", repeat_at);
                    ("start_process", start_process);
                    ("duration", duration)]).

(** -------------------- COOKIE PARAMETERS -------------------- *)

Definition read_cookie (kwargs : dict) : res value :=
  ads_id <- arg "ads_id" kwargs ;;
  Return (str_dict [("ads_id", ads_id)]).

(** -------------------- HEADER PARAMETERS -------------------- *)

Definition read_header (kwargs : dict) : res value :=
  user_agent <- arg "user_agent" kwargs ;;
  Return (str_dict [("User-Agent", user_agent)]).

Definition read_multi_header (kwargs : dict) : res value :=
  x_token <- arg "x_token" kwargs ;;
  Return (str_dict [("X-Token values", x_token)]).

(** -------------------- cookie parameters models -------------------- *)

(** The first [class Cookies], line 207. *)
Definition Cookies : model :=
  mk_model [attr "session_id" TStr;
            attr_default "fatebook_tracker" (TOptional TStr) VNone;
            attr_default "googall_tracker" (TOptional TStr) VNone]
           false.

(** The second function named [read_items], line 218. *)
Definition read_items' (kwargs : dict) : res value :=
  cookies <- arg "cookies" kwargs ;;
  Return cookies.

(** The second [class Cookies], line 226, with
    [model_config = {"extra": "forbid"}]. *)
Definition Cookies' : model :=
  mk_model [attr "session_id" TStr;
            attr_default "fatebook_tracker" (TOptional TStr) VNone;
            attr_default "googall_tracker" (TOptional TStr) VNone]
           true.

(** [10.5] *)
Definition lit_10_5 : float := float_of_decimal false 105 1.

(** The module, statement by statement. *)
Definition source : list stmt :=
  [ RouteDef GET "/" "root" [] root;
    RouteDef GET "/hello/{name}" "say_hello" [plain "name" AStr] say_hello;
    RouteDef GET "/users/me" "read_current_user" [] read_current_user;
    RouteDef GET "/users/{user_id}" "read_user"
      [plain "user_id" AStr] read_user;
    RouteDef GET "/users" "read_users" [] read_users;
    RouteDef GET "/users/{user_id}/items/{item_id}" "read_user_item"
      [plain "user_id" AInt;
       plain "item_id" AStr;
       defaulted "q" (AOptional AStr) VNone;
       defaulted "short" ABool (VBool false)]
      read_user_item;
    ClassDef "ModelName" ModelName;
    RouteDef GET "/models/{model_name}" "get_model"
      [plain "model_name" (AName "ModelName")] get_model;
    RouteDef GET "/files/{file_path:path}" "read_file"
      [plain "file_path" AStr] read_file;
    ClassDef "Item" (ModelClass Item);
    RouteDef POST "/items/" "create_item"
      [plain "item" (AName "Item")] create_item;
    RouteDef PUT "/items/{item_id}" "update_item"
      [plain "item_id" AInt;
       plain "item" (AName "Item");
       defaulted "q" (AOptional AStr) VNone]
      update_item;
    RouteDef GET "/items/{item_id}" "read_item"
      [annotated "item_id" AInt [Param MPath no_info];
       annotated_default "q" (AOptional AStr)
         [Param MQuery (with_alias "item-query" no_info)] VNone]
      read_item;
    RouteDef GET "/usernames/" "get_usernames"
      [annotated "username" AStr
         [Param MQuery (with_min_length 3 (with_max_length 20 no_info))]]
      get_usernames;
    RouteDef GET "/products/" "get_product"
      [annotated "code" AStr
         [Param MQuery (with_pattern product_code_pattern no_info)]]
      get_product;
    RouteDef GET "/search/" "search_items"
      [annotated "keyword" AStr
         [Param MQuery (with_alias "q"
                          (with_min_length 2 (with_max_length 30 no_info)))]]
      search_items;
    RouteDef GET "/deprecated/" "deprecated_param"
      [annotated_default "old_param" (AOptional AStr)
         [Param MQuery no_info] VNone;
       defaulted "new_param" (AOptional AStr) VNone]
      deprecated_param;
    RouteDef GET "/validate/" "validate_input"
      [annotated "text" AStr [AfterValidator no_spaces]] validate_input;
    RouteDef GET "/products/{product_id}" "get_product_by_id"
      [annotated "product_id" AInt
         [Param MPath (with_ge (VInt 1) (with_le (VInt 1000) no_info))]]
      get_product_by_id;
    RouteDef GET "/sizes/{item_id}" "get_size"
      [annotated "item_id" AInt
         [Param MPath (with_ge (VInt 1) (with_le (VInt 1000) no_info))];
       annotated "size" AFloat
         [Param MQuery (with_gt (VInt 0) (with_lt (VFloat lit_10_5) no_info))]]
      get_size;
    ClassDef "FilterParams" (ModelClass FilterParams);
    RouteDef GET "/items-filter/" "read_items"
      [annotated "filter_query" (AName "FilterParams") [Param MQuery no_info]]
      read_items;
    RouteDef PUT "/process/{item_id}" "process_item"
      [plain "item_id" AUuid;
       annotated "start_datetime" ADatetime [Param MBody no_info];
       annotated "end_datetime" ADatetime [Param MBody no_info];
       annotated "process_after" ATimedelta [Param MBody no_info];
       annotated_default "repeat_at" (AOptional ATime)
         [Param MBody no_info] VNone]
      process_item;
    RouteDef GET "/cookie/" "read_cookie"
      [annotated_default "ads_id" (AOptional AStr)
         [Param MCookie no_info] VNone]
      read_cookie;
    RouteDef GET "/header/" "read_header"
      [annotated_default "user_agent" (AOptional AStr)
         [Param MHeader no_info] VNone]
      read_header;
    RouteDef GET "/multi-header/" "read_multi_header"
      [annotated_default "x_token" (AOptional (AList AStr))
         [Param MHeader no_info] VNone]
      read_multi_header;
    ClassDef "Cookies" (ModelClass Cookies);
    RouteDef GET "/items/" "read_items"
      [annotated "cookies" (AName "Cookies") [Param MCookie no_info]]
      read_items';
    ClassDef "Cookies" (ModelClass Cookies') ].

(** The application object once the module is imported. *)
Definition app : list route :=
  match load source with
  | Some rs => rs
  | None => []
  end.

(** A request with nothing in it. *)
Definition empty_request : request := mk_request [] [] [] [] None.

(** The input schema registered for a method and a path template. *)
Definition schema (m : http_method) (path : string) : list param :=
  match lookup app m path with
  | Some r => r_params r
  | None => []
  end.

End Main.

(* ===================================================================== *)
(** * Properties                                                          *)
(* ===================================================================== *)

Import Py Wire FastAPI Main.

(** ** The module loads, and registers its twenty-four routes *)

Lemma load_source : load source = Some app.
Proof. reflexivity. Qed.

Lemma app_paths :
  map (fun r => (r_method r, r_path r, r_name r)) app =
  [ (GET, "/", "root");
    (GET, "/hello/{name}", "say_hello");
    (GET, "/users/me", "read_current_user");
    (GET, "/users/{user_id}", "read_user");
    (GET, "/users", "read_users");
    (GET, "/users/{user_id}/items/{item_id}", "read_user_item");
    (GET, "/models/{model_name}", "get_model");
    (GET, "/files/{file_path:path}", "read_file");
    (POST, "/items/", "create_item");
    (PUT, "/items/{item_id}", "update_item");
    (GET, "/items/{item_id}", "read_item");
    (GET, "/usernames/", "get_usernames");
    (GET, "/products/", "get_product");
    (GET, "/search/", "search_items");
    (GET, "/deprecated/", "deprecated_param");
    (GET, "/validate/", "validate_input");
    (GET, "/products/{product_id}", "get_product_by_id");
    (GET, "/sizes/{item_id}", "get_size");
    (GET, "/items-filter/", "read_items");
    (PUT, "/process/{item_id}", "process_item");
    (GET, "/cookie/", "read_cookie");
    (GET, "/header/", "read_header");
    (GET, "/multi-header/", "read_multi_header");
    (GET, "/items/", "read_items") ].
Proof. reflexivity. Qed.

(** ** The literal cases of the specification, by evaluation *)

Example products_code_accepted :
  sent (dispatch app GET "/products/"
          (mk_request [] [("code", VStr "PROD-1234")] [] [] None))
  = OK (VDict [("code", VStr "PROD-1234")]).
Proof. reflexivity. Qed.

Example products_code_rejected :
  sent (dispatch app GET "/products/"
          (mk_request [] [("code", VStr "PROD-12")] [] [] None))
  = UnprocessableEntity
      [mk_error Query "code" (ConstraintViolationError PatternMismatch)].
Proof. reflexivity. Qed.

Example username_too_short :
  sent (dispatch app GET "/usernames/"
          (mk_request [] [("username", VStr "ab")] [] [] None))
  = UnprocessableEntity
      [mk_error Query "username" (ConstraintViolationError LengthBound)].
Proof. reflexivity. Qed.

Example username_accepted :
  sent (dispatch app GET "/usernames/"
          (mk_request [] [("username", VStr "abidjan")] [] [] None))
  = OK (VDict [("username", VStr "abidjan")]).
Proof. reflexivity. Qed.

Example model_name_enum :
  sent (dispatch app GET "/models/{model_name}"
          (mk_request [("model_name", VStr "lenet")] [] [] [] None))
  = OK (VDict [("model_name", VStr "lenet");
               ("message", VStr "LeCNN all the images")])
  /\ sent (dispatch app GET "/models/{model_name}"
             (mk_request [("model_name", VStr "vgg")] [] [] [] None))
     = UnprocessableEntity
         [mk_error Path "model_name"
            (InvalidEnumValueError ["alexnet"; "resent"; "lenet"])].
Proof. split; reflexivity. Qed.

Example multi_header_collects_repetitions :
  sent (dispatch app GET "/multi-header/"
          (mk_request [] [] [("x-token", VStr "a"); ("x-token", VStr "b")]
                      [] None))
  = OK (VDict [("X-Token values", VList [VStr "a"; VStr "b"])]).
Proof. reflexivity. Qed.

(** ** Error aggregation *)

Lemma fields_report_member src fs raw f k :
  In f fs ->
  validate_field f (raw_of src f raw) = inl k ->
  In (mk_error src (f_name f) k) (fst (validate_fields src fs raw)).
Proof.
  induction fs as [|g fs IH]; intros Hin Hk; [destruct Hin|].
  simpl. destruct (validate_fields src fs raw) as [errs vals] eqn:E.
  destruct Hin as [->|Hin].
  - rewrite Hk. simpl. now left.
  - specialize (IH Hin Hk). simpl in IH.
    destruct (validate_field g (raw_of src g raw)); simpl; auto.
Qed.

Lemma unexpected_reports src m raw key v :
  m_extra_forbid m = true ->
  In (key, v) raw ->
  declared m key = false ->
  In (mk_error src key UnexpectedFieldError) (unexpected src m raw).
Proof.
  intros Hs Hin Hd. unfold unexpected. rewrite Hs.
  apply in_map_iff. exists (key, v). split; [reflexivity|].
  apply filter_In. split; [assumption|]. simpl. now rewrite Hd.
Qed.

Lemma group_reports src m raw :
  fst (validate_group src m raw)
  = (fst (validate_fields src (m_fields m) raw) ++ unexpected src m raw)%list.
Proof.
  unfold validate_group. now destruct (validate_fields src (m_fields m) raw).
Qed.

Lemma param_reports req p e :
  violation req p e -> In e (fst (validate_param p req)).
Proof.
  intros V. destruct V as [src f k Hk | name m Hb | name m v Hb Hv
                          | src name m f k Hp Hin Hk | src name m key v Hp Hs Hin Hd].
  - simpl. rewrite Hk. simpl. now left.
  - simpl. rewrite Hb. simpl. now left.
  - simpl. rewrite Hb. destruct v; try (simpl; now left). now elim (Hv d).
  - assert (G : In (mk_error src (f_name f) k)
                   (fst (validate_group src m (pairs_of src req)))).
    { rewrite group_reports. apply in_or_app. left.
      now apply fields_report_member. }
    destruct src; simpl in *;
      try (destruct (validate_group _ m _); exact G).
    destruct Hp as [d Hd]. rewrite Hd in *.
    destruct (validate_group Body m d); exact G.
  - assert (G : In (mk_error src key UnexpectedFieldError)
                   (fst (validate_group src m (pairs_of src req)))).
    { rewrite group_reports. apply in_or_app. right.
      now apply unexpected_reports with v. }
    destruct src; simpl in *;
      try (destruct (validate_group _ m _); exact G).
    destruct Hp as [d Hd']. rewrite Hd' in *.
    destruct (validate_group Body m d); exact G.
Qed.

Lemma validate_reports ps req p e :
  In p ps -> violation req p e -> In e (fst (validate ps req)).
Proof.
  induction ps as [|p' ps IH]; intros Hin V; [destruct Hin|].
  simpl. destruct (validate_param p' req) as [e1 k1] eqn:E1.
  destruct (validate ps req) as [e2 k2] eqn:E2. simpl.
  apply in_or_app. destruct Hin as [->|Hin].
  - left. apply param_reports in V. now rewrite E1 in V.
  - right. now apply IH.
Qed.

Lemma serve_invalid r req e :
  In e (fst (validate (r_params r) req)) ->
  serve r req
  = mk_outcome (UnprocessableEntity (fst (validate (r_params r) req))) [].
Proof.
  intros Hin. unfold serve, validate_request.
  destruct (validate (r_params r) req) as [errs kw]. simpl in *.
  destruct errs; [destruct Hin | reflexivity].
Qed.


Lemma holds_Some b : holds (Some b) = b.
Proof. now destruct b. Qed.

Lemma get_size_in_range_int n :
  in_range (with_ge (VInt 1) (with_le (VInt 1000) no_info)) (VInt n)
  = (1 <=? n) && (n <=? 1000).
Proof. unfold in_range. cbn -[holds]. rewrite !holds_Some. now rewrite !andb_true_r. Qed.

Lemma get_size_in_range_float f :
  in_range (with_gt (VInt 0) (with_lt (VFloat lit_10_5) no_info)) (VFloat f)
  = flt (S754_zero false) f && flt f lit_10_5.
Proof.
  unfold in_range. cbn -[holds flt lit_10_5 float_of_Z]. rewrite !holds_Some.
  now rewrite !andb_true_r.
Qed.


(** Entering a route: the lookup is computed, and the schema is laid out
    field by field. *)
Ltac enter_route :=
  unfold dispatch;
  match goal with
  | |- context [lookup app ?m ?p] =>
      let r := eval vm_compute in (lookup app m p) in
      change (lookup app m p) with r
  end;
  cbv beta iota;
  unfold serve, validate_request;
  cbn -[validate_field last_value values_of].


(** C1.  Whenever a request violates an entry of a route's schema, the
    dispatcher answers with a validation failure, the handler is not
    invoked, and the failure lists the error of every violation of every
    entry, not only the first.  For GET /sizes/{item_id}: when [item_id] is
    an integer outside [1, 1000] and [size] a float outside (0, 10.5), the
    failure reports exactly the two fields. *)
Theorem validation_failure_lists_every_violation :
  (forall r req p e,
      In p (r_params r) -> violation req p e ->
      exists errs,
        serve r req = mk_outcome (UnprocessableEntity errs) []
        /\ forall p' e', In p' (r_params r) -> violation req p' e' ->
                         In e' errs)
  /\ (forall req ri rs n f,
        path_arg "item_id" req = Some ri -> coerce TInt ri = inr (VInt n) ->
        query_arg "size" req = Some rs -> coerce TFloat rs = inr (VFloat f) ->
        ~ (1 <= n <= 1000) ->
        ~ (flt (S754_zero false) f = true /\ flt f lit_10_5 = true) ->
        dispatch app GET "/sizes/{item_id}" req
        = mk_outcome
            (UnprocessableEntity
               [mk_error Path "item_id" (ConstraintViolationError NumericRange);
                mk_error Query "size" (ConstraintViolationError NumericRange)])
            []).
Proof.
  split.
  - intros r req p e Hin V.
    exists (fst (validate (r_params r) req)). split.
    + apply serve_invalid with e. now apply validate_reports with p.
    + intros p' e' Hin' V'. now apply validate_reports with p'.
  - intros req ri rs n f Hi Ci Hs Cs Rn Rf.
    unfold path_arg, query_arg in *.
    enter_route.
    rewrite Hi, Hs.
    unfold validate_field, validate_value.
    cbn [f_type f_info f_after]. rewrite Ci, Cs. cbn [is_none].
    rewrite get_size_in_range_int.
    change (S754_finite false 5910974510923776 (-49)) with lit_10_5.
    rewrite get_size_in_range_float.
    replace ((1 <=? n) && (n <=? 1000)) with false by
      (symmetry; apply not_true_is_false;
       rewrite andb_true_iff, !Z.leb_le; exact Rn).
    replace (flt (S754_zero false) f && flt f lit_10_5) with false by
      (symmetry; apply not_true_is_false; rewrite andb_true_iff; exact Rf).
    reflexivity.
Qed.

(** GET /sizes/0?size=11 *)
Lemma validation_failure_lists_every_violation_witness :
  let req := mk_request [("item_id", VStr "0")] [("size", VStr "11")]
                        [] [] None in
  dispatch app GET "/sizes/{item_id}" req
  = mk_outcome
      (UnprocessableEntity
         [mk_error Path "item_id" (ConstraintViolationError NumericRange);
          mk_error Query "size" (ConstraintViolationError NumericRange)])
      [].
Proof.
  intro req.
  apply (proj2 validation_failure_lists_every_violation req
               (VStr "0") (VStr "11") 0 (float_of_Z 11)).
  - reflexivity.
  - reflexivity.
  - reflexivity.
  - reflexivity.
  - lia.
  - intros [_ H]. vm_compute in H. discriminate H.
Defined.

(** ** Fields without constraints *)

Lemma in_range_no_info v : in_range no_info v = true.
Proof. reflexivity. Qed.

Lemma validate_value_unconstrained f raw :
  f_info f = no_info -> f_after f = [] ->
  validate_value f raw = coerce (f_type f) raw.
Proof.
  intros Hi Ha. unfold validate_value. rewrite Hi, Ha.
  destruct (coerce (f_type f) raw) as [e|v]; [reflexivity|].
  now destruct (is_none v) eqn:E; [destruct v; try discriminate|].
Qed.

Lemma validate_field_plain name t d raw :
  validate_field (mk_field name t d no_info []) (Some raw) = coerce t raw.
Proof. now apply validate_value_unconstrained. Qed.

Lemma validate_field_absent f :
  validate_field f None
  = match f_default f with
    | Some d => inr d
    | None => inl MissingFieldError
    end.
Proof. reflexivity. Qed.

Lemma coerce_int_text s :
  coerce TInt (VStr s) = parsed TInt (VStr s) VInt (parse_int s).
Proof. reflexivity. Qed.

Lemma coerce_bool_text s :
  coerce TBool (VStr s) = parsed TBool (VStr s) VBool (parse_bool s).
Proof. reflexivity. Qed.


(** ** GET /users/{user_id}/items/{item_id} *)

(** GET /users/1/items/abc: the item_id segment is not an integer, and the
    request is accepted. *)
Lemma non_integer_item_id_is_accepted :
  let req := mk_request [("user_id", VStr "1"); ("item_id", VStr "abc")]
                        [] [] [] None in
  let kwargs := [("user_id", VInt 1); ("item_id", VStr "abc");
                 ("q", VNone); ("short", VBool false)] in
  parse_int "abc" = None
  /\ dispatch app GET "/users/{user_id}/items/{item_id}" req
     = mk_outcome (OK (VDict kwargs)) [kwargs]
  /\ forall errs,
       sent (dispatch app GET "/users/{user_id}/items/{item_id}" req)
       <> UnprocessableEntity errs.
Proof.
  intros req kwargs.
  assert (E : dispatch app GET "/users/{user_id}/items/{item_id}" req
              = mk_outcome (OK (VDict kwargs)) [kwargs]) by reflexivity.
  split; [reflexivity|]. split; [exact E|].
  intros errs H. rewrite E in H. discriminate H.
Qed.

(** C3, amended.  For GET /users/{user_id}/items/{item_id} it is [user_id]
    that is typed int: a [user_id] segment that is not an integer is a
    [TypeCoercionError] and the handler is not invoked.  [item_id] is a
    string and any segment is taken as it is; [q] is an optional string that
    defaults to absent, [short] a bool that defaults to false, and on
    success the handler echoes [user_id], [item_id], [q] and [short]. *)
Theorem read_user_item_contract req u i :
  path_arg "user_id" req = Some (VStr u) ->
  path_arg "item_id" req = Some (VStr i) ->
  let out := dispatch app GET "/users/{user_id}/items/{item_id}" req in
  (parse_int u = None ->
   exists errs,
     out = mk_outcome (UnprocessableEntity errs) []
     /\ In (mk_error Path "user_id" (TypeCoercionError (VStr u) TInt)) errs)
  /\ (forall n q short,
        parse_int u = Some n ->
        (query_arg "q" req = None /\ q = VNone
         \/ exists s, query_arg "q" req = Some (VStr s) /\ q = VStr s) ->
        (query_arg "short" req = None /\ short = false
         \/ exists s, query_arg "short" req = Some (VStr s)
                      /\ parse_bool s = Some short) ->
        sent out = OK (VDict [("user_id", VInt n); ("item_id", VStr i);
                              ("q", q); ("short", VBool short)])).
Proof.
  intros Hu Hi out. unfold path_arg, query_arg in *. split.
  - intros Hp. subst out. unfold dispatch.
    match goal with
    | |- context [lookup app ?m ?p] =>
        let r := eval vm_compute in (lookup app m p) in
        change (lookup app m p) with r
    end. cbv beta iota.
    match goal with |- context [serve ?r req] => set (rt := r) end.
    assert (V : violation req
                  (PField Path (mk_field "user_id" TInt None no_info []))
                  (mk_error Path "user_id" (TypeCoercionError (VStr u) TInt))).
    { apply (field_violated req Path (mk_field "user_id" TInt None no_info [])).
      change (validate_field (mk_field "user_id" TInt None no_info [])
                (last_value "user_id" (path_params req)) = inl (TypeCoercionError (VStr u) TInt)).
      rewrite Hu, validate_field_plain, coerce_int_text, Hp. reflexivity. }
    assert (Hin : In (PField Path (mk_field "user_id" TInt None no_info []))
                     (r_params rt)) by (left; reflexivity).
    exists (fst (validate (r_params rt) req)). split.
    + eapply serve_invalid. eapply validate_reports; eassumption.
    + eapply validate_reports; eassumption.
  - intros n q short Hn Hq Hs. subst out. enter_route.
    rewrite Hu, Hi, !validate_field_plain, coerce_int_text, Hn.
    destruct Hq as [[Hq ->]|[s [Hq ->]]], Hs as [[Hs ->]|[b [Hs Hb]]];
      rewrite Hq, Hs, ?validate_field_absent, ?validate_field_plain,
              ?coerce_bool_text, ?Hb; reflexivity.
Qed.

(** GET /users/7/items/abc?short=yes *)
Lemma read_user_item_contract_witness :
  let req := mk_request [("user_id", VStr "7"); ("item_id", VStr "abc")]
                        [("short", VStr "yes")] [] [] None in
  sent (dispatch app GET "/users/{user_id}/items/{item_id}" req)
  = OK (VDict [("user_id", VInt 7); ("item_id", VStr "abc");
               ("q", VNone); ("short", VBool true)]).
Proof.
  intro req.
  apply (proj2 (read_user_item_contract req "7" "abc" eq_refl eq_refl)).
  - reflexivity.
  - left. split; reflexivity.
  - right. exists "yes". split; reflexivity.
Defined.

(** ** Routes and their outcomes *)


Lemma schema_of_route m path r :
  lookup app m path = Some r -> schema m path = r_params r.
Proof. intros H. unfold schema. now rewrite H. Qed.

Lemma dispatch_valid m path r req kwargs :
  lookup app m path = Some r ->
  validate_request (schema m path) req = Validated kwargs ->
  dispatch app m path req
  = mk_outcome match r_handler r kwargs with
               | Return v => OK v
               | Raise e => InternalServerError e
               end [kwargs].
Proof.
  intros Hl Hv. rewrite (schema_of_route _ _ _ Hl) in Hv.
  unfold dispatch, serve. now rewrite Hl, Hv.
Qed.

Lemma dispatch_invalid m path r req errs :
  lookup app m path = Some r ->
  validate_request (schema m path) req = Invalid errs ->
  dispatch app m path req = mk_outcome (UnprocessableEntity errs) [].
Proof.
  intros Hl Hv. rewrite (schema_of_route _ _ _ Hl) in Hv.
  unfold dispatch, serve. now rewrite Hl, Hv.
Qed.




(** ** Typed values *)

Lemma coerce_all_has_type (c : value -> error_kind + value) (P : value -> Prop) l :
  Forall (fun x => forall y, c x = inr y -> P y) l ->
  forall l', coerce_all c l = inr l' -> Forall P l'.
Proof.
  induction 1 as [|x l Hx Hl IH]; intros l' H; simpl in H.
  - injection H as <-. constructor.
  - destruct (c x) as [e|y] eqn:Ex; [discriminate|].
    destruct (coerce_all c l) as [e|ys] eqn:El; [discriminate|].
    injection H as <-. constructor; auto.
Qed.

Lemma parsed_inr {A} t v (wrap : A -> value) o w :
  parsed t v wrap o = inr w -> exists a, o = Some a /\ w = wrap a.
Proof. destruct o; simpl; intros H; [injection H as <-; eauto | discriminate]. Qed.

Lemma checked_Some {A} (ok : A -> bool) o a :
  checked ok o = Some a -> o = Some a /\ ok a = true.
Proof.
  destruct o as [b|]; simpl; [|discriminate].
  destruct (ok b) eqn:E; [|discriminate]. intros H; injection H as <-. auto.
Qed.

(** Whatever the field validator returns for a type is a typed value of
    that type. *)
Lemma coerce_has_type t : forall raw v, coerce t raw = inr v -> has_type t v.
Proof.
  induction t as [| | | | | | | |ms|ms|e IH|t IH|]; intros raw v H;
    cbn [coerce] in H; cbn [has_type].
  - destruct raw; try discriminate. injection H as <-. eauto.
  - destruct raw; try discriminate.
    + injection H as <-. eauto.
    + apply parsed_inr in H as [a [_ ->]]. eauto.
  - destruct raw; try discriminate.
    + injection H as <-. eauto.
    + injection H as <-. eauto.
    + apply parsed_inr in H as [a [_ ->]]. eauto.
  - destruct raw; try discriminate.
    + injection H as <-. eauto.
    + apply parsed_inr in H as [a [_ ->]]. eauto.
  - destruct raw; try discriminate.
    + apply parsed_inr in H as [a [_ ->]]. eauto.
    + injection H as <-. eauto.
  - destruct raw; try discriminate.
    + apply parsed_inr in H as [a [H ->]]. apply checked_Some in H as [_ H]. eauto.
    + apply parsed_inr in H as [a [H ->]]. apply checked_Some in H as [_ H]. eauto.
  - destruct raw; try discriminate.
    + apply parsed_inr in H as [a [H ->]]. apply checked_Some in H as [_ H]. eauto.
    + apply parsed_inr in H as [a [H ->]]. apply checked_Some in H as [_ H]. eauto.
  - destruct raw; try discriminate.
    + apply parsed_inr in H as [a [_ ->]]. eauto.
    + injection H as <-. eauto.
  - destruct raw; try discriminate.
    destruct (mem_str s ms) eqn:E; [|discriminate]. injection H as <-. eauto.
  - destruct raw; try discriminate.
    destruct (mem_str s ms) eqn:E; [|discriminate]. injection H as <-. eauto.
  - destruct raw; try discriminate.
    destruct (coerce_all (coerce e) l) as [err|l'] eqn:E; [discriminate|].
    injection H as <-. exists l'. split; [reflexivity|].
    apply (coerce_all_has_type (coerce e) (has_type e) l); [|exact E].
    apply Forall_forall. intros x _ y. apply IH.
  - destruct raw; try (right; eapply IH; exact H).
    injection H as <-. now left.
  - destruct raw; try discriminate. injection H as <-. eauto.
Qed.


(** A member list validates without error exactly when every member does. *)
Lemma validate_fields_cons src f fs raw vals :
  validate_fields src (f :: fs) raw = ([], vals) ->
  exists v vs,
    validate_field f (raw_of src f raw) = inr v
    /\ validate_fields src fs raw = ([], vs)
    /\ vals = (f_name f, v) :: vs.
Proof.
  simpl. destruct (validate_fields src fs raw) as [errs vs].
  destruct (validate_field f (raw_of src f raw)) as [k|v]; [discriminate|].
  intros H. injection H as -> <-. eauto.
Qed.

Lemma validate_fields_nil src raw vals :
  validate_fields src [] raw = ([], vals) -> vals = [].
Proof. simpl. now intros H; injection H as <-. Qed.

(** An unconstrained field resolves to its default when absent and to the
    coerced input otherwise. *)
Lemma validate_field_plain_inr name t d raw v :
  validate_field (mk_field name t d no_info []) raw = inr v ->
  (raw = None /\ d = Some v) \/ (exists r, raw = Some r /\ coerce t r = inr v).
Proof.
  destruct raw as [r|].
  - rewrite validate_field_plain. eauto.
  - rewrite validate_field_absent. simpl. destruct d; [|discriminate].
    intros H; injection H as <-. auto.
Qed.

Lemma raw_of_single src f raw :
  is_list_type (f_type f) = false ->
  raw_of src f raw = last_value (wire_name f) raw.
Proof. intros H. unfold raw_of. now rewrite H, andb_false_r. Qed.


(** ** The field validator, case by case *)

(** The field validator succeeds exactly when coercion does and, for a
    value other than the absent marker, every constraint holds in turn. *)
Lemma validate_value_inr f raw w :
  validate_value f raw = inr w <->
  exists v,
    coerce (f_type f) raw = inr v
    /\ (if is_none v then w = v
        else in_range (f_info f) v = true
             /\ in_length (f_info f) v = true
             /\ in_pattern (f_info f) v = true
             /\ run_after (f_after f) v = inr w).
Proof.
  unfold validate_value. destruct (coerce (f_type f) raw) as [e|v].
  - split; [intros H; discriminate H | intros [v [H _]]; discriminate H].
  - destruct (is_none v) eqn:En.
    + split.
      * intros H. injection H as <-. exists v. rewrite En. auto.
      * intros [v' [H Hw]]. injection H as <-. rewrite En in Hw. now subst.
    + destruct (in_range (f_info f) v) eqn:E1; simpl.
      2:{ split; [intros H; discriminate H|].
          intros [v' [H Hw]]. injection H as <-. rewrite En in Hw.
          destruct Hw as [Hw _]. rewrite E1 in Hw. discriminate Hw. }
      destruct (in_length (f_info f) v) eqn:E2; simpl.
      2:{ split; [intros H; discriminate H|].
          intros [v' [H Hw]]. injection H as <-. rewrite En in Hw.
          destruct Hw as [_ [Hw _]]. rewrite E2 in Hw. discriminate Hw. }
      destruct (in_pattern (f_info f) v) eqn:E3; simpl.
      2:{ split; [intros H; discriminate H|].
          intros [v' [H Hw]]. injection H as <-. rewrite En in Hw.
          destruct Hw as [_ [_ [Hw _]]]. rewrite E3 in Hw. discriminate Hw. }
      split.
      * intros H. exists v. rewrite En, E1, E2, E3. auto.
      * intros [v' [H Hw]]. injection H as <-. rewrite En in Hw. tauto.
Qed.

Lemma validate_request_nil req kwargs :
  validate_request [] req = Validated kwargs <-> kwargs = [].
Proof.
  unfold validate_request. simpl. split.
  - intros H. injection H as <-. reflexivity.
  - intros ->. reflexivity.
Qed.

Lemma validate_request_Validated ps req kwargs :
  validate_request ps req = Validated kwargs <-> validate ps req = ([], kwargs).
Proof.
  unfold validate_request. destruct (validate ps req) as [[|e errs] kw].
  - split; intros H; injection H as <-; reflexivity.
  - split; intros H; discriminate H.
Qed.

(** A schema validates exactly when its first field and the rest do. *)
Lemma validate_request_field src f ps req kwargs :
  validate_request (PField src f :: ps) req = Validated kwargs <->
  exists v ks,
    validate_field f (raw_of src f (pairs_of src req)) = inr v
    /\ validate_request ps req = Validated ks
    /\ kwargs = (f_name f, v) :: ks.
Proof.
  rewrite validate_request_Validated. cbn [validate validate_param].
  destruct (validate_field f (raw_of src f (pairs_of src req))) as [k|v].
  - destruct (validate ps req) as [e2 k2]. split.
    + intros H. discriminate H.
    + intros [v [ks [H _]]]. discriminate H.
  - destruct (validate ps req) as [e2 k2] eqn:E. cbn [app]. split.
    + intros H. injection H as -> <-. exists v, k2.
      rewrite validate_request_Validated. auto.
    + intros [v' [ks [Hv [Hs ->]]]]. injection Hv as <-.
      apply validate_request_Validated in Hs. rewrite E in Hs.
      injection Hs as -> ->. reflexivity.
Qed.


Lemma validate_fields_cons_iff src f fs raw vals :
  validate_fields src (f :: fs) raw = ([], vals) <->
  exists v vs,
    validate_field f (raw_of src f raw) = inr v
    /\ validate_fields src fs raw = ([], vs)
    /\ vals = (f_name f, v) :: vs.
Proof.
  split; [apply validate_fields_cons|].
  intros [v [vs [H1 [H2 ->]]]]. simpl. now rewrite H2, H1.
Qed.

Lemma validate_fields_nil_iff src raw vals :
  validate_fields src [] raw = ([], vals) <-> vals = [].
Proof.
  split; [apply validate_fields_nil|]. now intros ->.
Qed.

(** A group that is not strict, read from a source of pairs, validates
    exactly when its members do. *)
Lemma validate_request_open_group src name m req kwargs :
  src <> Body -> m_extra_forbid m = false ->
  validate_request [PGroup src name m] req = Validated kwargs <->
  exists vals,
    validate_fields src (m_fields m) (pairs_of src req) = ([], vals)
    /\ kwargs = [(name, VDict vals)].
Proof.
  intros Hs Hm. rewrite validate_request_Validated.
  assert (E : validate [PGroup src name m] req
              = (fst (validate_fields src (m_fields m) (pairs_of src req)),
                 [(name, VDict (snd (validate_fields src (m_fields m)
                                                     (pairs_of src req))))])).
  { cbn [validate validate_param]. unfold validate_group, unexpected.
    rewrite Hm.
    destruct src; try (now elim Hs);
      destruct (validate_fields _ (m_fields m) _) as [errs vals];
      cbn [fst snd app]; now rewrite !app_nil_r. }
  rewrite E. destruct (validate_fields src (m_fields m) (pairs_of src req))
    as [errs vals]. cbn [fst snd]. split.
  - intros H. injection H as -> <-. eauto.
  - intros [vals' [H ->]]. injection H as -> ->. reflexivity.
Qed.

Lemma coerce_all_str l l' :
  coerce_all (coerce TStr) l = inr l' <->
  l' = l /\ forall r, In r l -> exists s, r = VStr s.
Proof.
  revert l'. induction l as [|x l IH]; intros l'; cbn [coerce_all In].
  - split.
    + intros H. injection H as <-. split; [reflexivity|]. intros r [].
    + intros [-> _]. reflexivity.
  - destruct (coerce TStr x) as [k|y] eqn:Ex.
    + split; [intros H; discriminate H|]. intros [_ H].
      destruct (H x (or_introl eq_refl)) as [s ->]. discriminate Ex.
    + assert (Hx : exists s, x = VStr s /\ y = x).
      { destruct x; try discriminate Ex. injection Ex as <-. eauto. }
      destruct Hx as [s [-> ->]].
      destruct (coerce_all (coerce TStr) l) as [e|ys] eqn:E.
      * split; [intros H; discriminate H|]. intros [_ H].
        assert (C : inl e = inr l).
        { apply IH. split; [reflexivity|]. intros r Hr. apply H. now right. }
        discriminate C.
      * destruct (proj1 (IH ys) eq_refl) as [-> Hall]. split.
        -- intros H. injection H as <-. split; [reflexivity|].
           intros r [<-|Hr]; eauto.
        -- intros [-> _]. reflexivity.
Qed.

Lemma coerce_list elt l :
  coerce (TList elt) (VList l)
  = match coerce_all (coerce elt) l with
    | inl e => inl e
    | inr l' => inr (VList l')
    end.
Proof. reflexivity. Qed.


(** A schema validates exactly when its first entry and the rest do. *)
Lemma validate_request_cons p ps req kwargs :
  validate_request (p :: ps) req = Validated kwargs <->
  exists k1 k2,
    validate_param p req = ([], k1)
    /\ validate_request ps req = Validated k2
    /\ kwargs = (k1 ++ k2)%list.
Proof.
  rewrite validate_request_Validated. cbn [validate].
  destruct (validate_param p req) as [e1 k1].
  destruct (validate ps req) as [e2 k2] eqn:E. split.
  - intros H. injection H as H <-. apply app_eq_nil in H as [-> ->].
    exists k1, k2. rewrite validate_request_Validated. auto.
  - intros [k1' [k2' [H1 [H2 ->]]]]. injection H1 as -> ->.
    apply validate_request_Validated in H2. rewrite E in H2.
    injection H2 as -> ->. reflexivity.
Qed.

(** A body model that is not strict validates exactly when the body is an
    object whose members validate. *)
Lemma validate_body_group name m req k :
  m_extra_forbid m = false ->
  validate_param (PGroup Body name m) req = ([], k) <->
  exists d vals,
    body req = Some (VDict d)
    /\ validate_fields Body (m_fields m) d = ([], vals)
    /\ k = [(name, VDict vals)].
Proof.
  intros Hm. cbn [validate_param]. unfold validate_group, unexpected.
  rewrite Hm.
  destruct (body req) as [[| | | | | | | | | |d]|];
    try (split; [intros H; discriminate H
                | intros [d' [vals [H _]]]; discriminate H]).
  destruct (validate_fields Body (m_fields m) d) as [errs vals] eqn:E.
  rewrite app_nil_r. split.
  - intros H. injection H as -> <-. exists d, vals. repeat split. exact E.
  - intros [d' [vals' [Hd [H ->]]]]. injection Hd as <-.
    rewrite E in H. injection H as -> ->. reflexivity.
Qed.

(** The members of a valid [Item]. *)
Lemma item_fields_valid d vals :
  validate_fields Body (m_fields Item) d = ([], vals) ->
  exists name description price tax,
    vals = [("name", VStr name); ("description", description);
            ("price", VFloat price); ("tax", tax)]
    /\ (description = VNone \/ exists s, description = VStr s)
    /\ (tax = VNone \/ exists t, tax = VFloat t).
Proof.
  intros Hf. unfold Item, m_fields in Hf.
  apply validate_fields_cons in Hf as [v1 [vs1 [H1 [Hf ->]]]].
  apply validate_fields_cons in Hf as [v2 [vs2 [H2 [Hf ->]]]].
  apply validate_fields_cons in Hf as [v3 [vs3 [H3 [Hf ->]]]].
  apply validate_fields_cons in Hf as [v4 [vs4 [H4 [Hf ->]]]].
  apply validate_fields_nil in Hf as ->.
  apply validate_field_plain_inr in H1 as [[_ H1]|[r1 [_ H1]]];
    [discriminate H1|].
  apply validate_field_plain_inr in H3 as [[_ H3]|[r3 [_ H3]]];
    [discriminate H3|].
  apply coerce_has_type in H1 as [name ->].
  apply coerce_has_type in H3 as [price ->].
  exists name, v2, price, v4. split; [reflexivity|]. split.
  - apply validate_field_plain_inr in H2 as [[_ H2]|[r2 [_ H2]]].
    + injection H2 as <-. now left.
    + apply coerce_has_type in H2. exact H2.
  - apply validate_field_plain_inr in H4 as [[_ H4]|[r4 [_ H4]]].
    + injection H4 as <-. now left.
    + apply coerce_has_type in H4. exact H4.
Qed.

(** An optional string that defaults to absent. *)
Lemma optional_str_field name fi raw v :
  validate_field (mk_field name (TOptional TStr) (Some VNone) fi []) raw
  = inr v ->
  (v = VNone \/ exists s, v = VStr s)
  /\ (raw = None -> v = VNone)
  /\ (forall s, raw = Some (VStr s) -> v = VStr s).
Proof.
  destruct raw as [r|]; cbn [validate_field f_default].
  - intros H. apply validate_value_inr in H as [w [Hc Hw]].
    cbn [f_type] in Hc. pose proof (coerce_has_type _ _ _ Hc) as T.
    assert (Hv : v = w).
    { destruct (is_none w) eqn:N; [exact Hw|].
      destruct Hw as [_ [_ [_ Hw]]]. cbn [f_after run_after] in Hw.
      now injection Hw as <-. }
    subst w. split; [exact T|]. split; [intros E; discriminate E|].
    intros s E. injection E as ->. cbn [coerce] in Hc. now injection Hc as <-.
  - intros H. injection H as <-. split; [now left|]. split; [reflexivity|].
    intros s E. discriminate E.
Qed.


(** ** POST /items/ *)



(** ** GET /sizes/{item_id} *)

Lemma route_get_size :
  lookup app GET "/sizes/{item_id}"
  = Some (mk_route GET "/sizes/{item_id}" "get_size"
            [PField Path
               (mk_field "item_id" TInt None
                  (with_ge (VInt 1) (with_le (VInt 1000) no_info)) []);
             PField Query
               (mk_field "size" TFloat None
                  (with_gt (VInt 0) (with_lt (VFloat lit_10_5) no_info)) [])]
            get_size).
Proof. reflexivity. Qed.

Lemma item_id_field_inr raw w :
  validate_field (mk_field "item_id" TInt None
                    (with_ge (VInt 1) (with_le (VInt 1000) no_info)) []) raw
  = inr w <->
  exists r n, raw = Some r /\ coerce TInt r = inr (VInt n)
              /\ 1 <= n <= 1000 /\ w = VInt n.
Proof.
  destruct raw as [r|]; cbn [validate_field f_default].
  - rewrite validate_value_inr. cbn [f_type f_info f_after run_after]. split.
    + intros [v [Hc Hv]]. pose proof (coerce_has_type _ _ _ Hc) as [n ->].
      cbn [is_none] in Hv. destruct Hv as [Hr [_ [_ Hw]]]. injection Hw as <-.
      rewrite get_size_in_range_int, andb_true_iff, !Z.leb_le in Hr.
      exists r, n. auto.
    + intros [r' [n [E [Hc [Hr ->]]]]]. injection E as <-.
      exists (VInt n). split; [exact Hc|]. cbn [is_none].
      rewrite get_size_in_range_int, andb_true_iff, !Z.leb_le. auto.
  - split; [intros H; discriminate H|].
    intros [r [n [E _]]]. discriminate E.
Qed.

Lemma size_field_inr raw w :
  validate_field (mk_field "size" TFloat None
                    (with_gt (VInt 0) (with_lt (VFloat lit_10_5) no_info)) []) raw
  = inr w <->
  exists r f, raw = Some r /\ coerce TFloat r = inr (VFloat f)
              /\ flt (S754_zero false) f = true /\ flt f lit_10_5 = true
              /\ w = VFloat f.
Proof.
  destruct raw as [r|]; cbn [validate_field f_default].
  - rewrite validate_value_inr. cbn [f_type f_info f_after run_after]. split.
    + intros [v [Hc Hv]]. pose proof (coerce_has_type _ _ _ Hc) as [x ->].
      cbn [is_none] in Hv. destruct Hv as [Hr [_ [_ Hw]]]. injection Hw as <-.
      rewrite get_size_in_range_float, andb_true_iff in Hr.
      exists r, x. tauto.
    + intros [r' [x [E [Hc [H0 [H1 ->]]]]]]. injection E as <-.
      exists (VFloat x). split; [exact Hc|]. cbn [is_none].
      rewrite get_size_in_range_float, andb_true_iff. auto.
  - split; [intros H; discriminate H|].
    intros [r [n [E _]]]. discriminate E.
Qed.

(** C5.  For GET /sizes/{item_id}, validation succeeds exactly when
    [item_id] is an integer with 1 <= item_id <= 1000 and [size] is a float
    with 0 < size < 10.5, both bounds of [size] exclusive; on success the
    handler returns [item_id] and [size].  In particular size = 10.5 is
    rejected and size = 10.4 is accepted. *)
Theorem get_size_validation :
  (forall req,
      (exists kwargs,
          validate_request (schema GET "/sizes/{item_id}") req
          = Validated kwargs)
      <-> exists ri rs n f,
          path_arg "item_id" req = Some ri /\ coerce TInt ri = inr (VInt n)
          /\ query_arg "size" req = Some rs
          /\ coerce TFloat rs = inr (VFloat f)
          /\ 1 <= n <= 1000
          /\ flt (S754_zero false) f = true /\ flt f lit_10_5 = true)
  /\ (forall req ri rs n f,
         path_arg "item_id" req = Some ri -> coerce TInt ri = inr (VInt n) ->
         query_arg "size" req = Some rs ->
         coerce TFloat rs = inr (VFloat f) ->
         1 <= n <= 1000 ->
         flt (S754_zero false) f = true -> flt f lit_10_5 = true ->
         dispatch app GET "/sizes/{item_id}" req
         = mk_outcome (OK (VDict [("item_id", VInt n); ("size", VFloat f)]))
                      [[("item_id", VInt n); ("size", VFloat f)]])
  /\ dispatch app GET "/sizes/{item_id}"
       (mk_request [("item_id", VStr "5")] [("size", VStr "10.5")] [] [] None)
     = mk_outcome
         (UnprocessableEntity
            [mk_error Query "size" (ConstraintViolationError NumericRange)])
         []
  /\ dispatch app GET "/sizes/{item_id}"
       (mk_request [("item_id", VStr "5")] [("size", VStr "10.4")] [] [] None)
     = mk_outcome
         (OK (VDict [("item_id", VInt 5);
                     ("size", VFloat (float_of_decimal false 104 1))]))
         [[("item_id", VInt 5);
           ("size", VFloat (float_of_decimal false 104 1))]].
Proof.
  assert (V : forall req kwargs,
             validate_request (schema GET "/sizes/{item_id}") req
             = Validated kwargs <->
             exists ri rs n f,
               path_arg "item_id" req = Some ri /\ coerce TInt ri = inr (VInt n)
               /\ query_arg "size" req = Some rs
               /\ coerce TFloat rs = inr (VFloat f)
               /\ 1 <= n <= 1000
               /\ flt (S754_zero false) f = true /\ flt f lit_10_5 = true
               /\ kwargs = [("item_id", VInt n); ("size", VFloat f)]).
  { intros req kwargs. rewrite (schema_of_route _ _ _ route_get_size).
    cbn [r_params]. rewrite validate_request_field. split.
    - intros [v [ks [H1 [H2 ->]]]].
      apply validate_request_field in H2 as [v' [ks' [H2 [H3 ->]]]].
      apply validate_request_nil in H3 as ->.
      apply item_id_field_inr in H1 as [ri [n [E1 [C1 [R1 ->]]]]].
      apply size_field_inr in H2 as [rs [f [E2 [C2 [R2 [R3 ->]]]]]].
      exists ri, rs, n, f. repeat split; try assumption; apply R1.
    - intros [ri [rs [n [f [E1 [C1 [E2 [C2 [R1 [R2 [R3 ->]]]]]]]]]]].
      exists (VInt n), [("size", VFloat f)]. split; [|split; [|reflexivity]].
      + apply item_id_field_inr. exists ri, n. auto.
      + apply validate_request_field. exists (VFloat f), [].
        split; [|split; [|reflexivity]].
        * apply size_field_inr. exists rs, f. auto.
        * now apply validate_request_nil. }
  split; [|split; [|split]].
  - intros req. split.
    + intros [kwargs H]. apply V in H
        as [ri [rs [n [f [E1 [C1 [E2 [C2 [R1 [R2 [R3 _]]]]]]]]]]].
      exists ri, rs, n, f. auto 10.
    + intros [ri [rs [n [f [E1 [C1 [E2 [C2 [R1 [R2 R3]]]]]]]]]].
      eexists. apply V. exists ri, rs, n, f. auto 10.
  - intros req ri rs n f E1 C1 E2 C2 R1 R2 R3.
    assert (H : validate_request (schema GET "/sizes/{item_id}") req
                = Validated [("item_id", VInt n); ("size", VFloat f)]).
    { apply V. exists ri, rs, n, f. auto 10. }
    rewrite (dispatch_valid _ _ _ _ _ route_get_size H). reflexivity.
  - reflexivity.
  - reflexivity.
Qed.

(** GET /sizes/1000?size=0.5 *)
Lemma get_size_validation_witness :
  dispatch app GET "/sizes/{item_id}"
    (mk_request [("item_id", VStr "1000")] [("size", VStr "0.5")] [] [] None)
  = mk_outcome
      (OK (VDict [("item_id", VInt 1000);
                  ("size", VFloat (float_of_decimal false 5 1))]))
      [[("item_id", VInt 1000);
        ("size", VFloat (float_of_decimal false 5 1))]].
Proof.
  apply (proj1 (proj2 get_size_validation) _ (VStr "1000") (VStr "0.5")).
  - reflexivity.
  - reflexivity.
  - reflexivity.
  - reflexivity.
  - lia.
  - reflexivity.
  - reflexivity.
Defined.

(** ** GET /items-filter/ *)

Lemma route_items_filter :
  lookup app GET "/items-filter/"
  = Some (mk_route GET "/items-filter/" "read_items"
            [PGroup Query "filter_query" FilterParams] read_items).
Proof. reflexivity. Qed.

Lemma limit_in_range n :
  in_range (with_gt (VInt 0) (with_le (VInt 100) no_info)) (VInt n)
  = (0 <? n) && (n <=? 100).
Proof.
  unfold in_range. cbn -[holds]. rewrite !holds_Some.
  now rewrite !andb_true_r.
Qed.

Lemma offset_in_range n :
  in_range (with_ge (VInt 0) no_info) (VInt n) = (0 <=? n).
Proof.
  unfold in_range. cbn -[holds]. rewrite !holds_Some.
  now rewrite !andb_true_r.
Qed.

Lemma limit_field_inr raw w :
  validate_field (attr_field "limit" TInt (VInt 100)
                    (with_gt (VInt 0) (with_le (VInt 100) no_info))) raw
  = inr w <->
  (raw = None /\ w = VInt 100)
  \/ exists r n, raw = Some r /\ coerce TInt r = inr (VInt n)
                 /\ 0 < n <= 100 /\ w = VInt n.
Proof.
  destruct raw as [r|]; cbn [validate_field f_default attr_field].
  - rewrite validate_value_inr. cbn [f_type f_info f_after run_after]. split.
    + intros [v [Hc Hv]]. pose proof (coerce_has_type _ _ _ Hc) as [n ->].
      cbn [is_none] in Hv. destruct Hv as [Hr [_ [_ Hw]]]. injection Hw as <-.
      rewrite limit_in_range, andb_true_iff, Z.ltb_lt, Z.leb_le in Hr.
      right. exists r, n. auto.
    + intros [[E _]|[r' [n [E [Hc [Hr ->]]]]]]; [discriminate E|].
      injection E as <-.
      exists (VInt n). split; [exact Hc|]. cbn [is_none].
      rewrite limit_in_range, andb_true_iff, Z.ltb_lt, Z.leb_le. auto.
  - split.
    + intros H. injection H as <-. now left.
    + intros [[_ ->]|[r [n [E _]]]]; [reflexivity|discriminate E].
Qed.

Lemma offset_field_inr raw w :
  validate_field (attr_field "offset" TInt (VInt 0)
                    (with_ge (VInt 0) no_info)) raw
  = inr w <->
  (raw = None /\ w = VInt 0)
  \/ exists r n, raw = Some r /\ coerce TInt r = inr (VInt n)
                 /\ 0 <= n /\ w = VInt n.
Proof.
  destruct raw as [r|]; cbn [validate_field f_default attr_field].
  - rewrite validate_value_inr. cbn [f_type f_info f_after run_after]. split.
    + intros [v [Hc Hv]]. pose proof (coerce_has_type _ _ _ Hc) as [n ->].
      cbn [is_none] in Hv. destruct Hv as [Hr [_ [_ Hw]]]. injection Hw as <-.
      rewrite offset_in_range, Z.leb_le in Hr.
      right. exists r, n. auto.
    + intros [[E _]|[r' [n [E [Hc [Hr ->]]]]]]; [discriminate E|].
      injection E as <-.
      exists (VInt n). split; [exact Hc|]. cbn [is_none].
      rewrite offset_in_range, Z.leb_le. auto.
  - split.
    + intros H. injection H as <-. now left.
    + intros [[_ ->]|[r [n [E _]]]]; [reflexivity|discriminate E].
Qed.

Lemma order_by_field_inr raw w :
  validate_field (attr_default "order_by"
                    (TLiteral ["created_at"; "updated_at"])
                    (VStr "created_at")) raw
  = inr w <->
  (raw = None /\ w = VStr "created_at")
  \/ (raw = Some w /\ (w = VStr "created_at" \/ w = VStr "updated_at")).
Proof.
  destruct raw as [r|]; unfold attr_default.
  - rewrite validate_field_plain. cbn [coerce]. split.
    + destruct r as [| | | |s| | | | | |]; try (intros H; discriminate H).
      destruct (mem_str s ["created_at"; "updated_at"]) eqn:E;
        [|intros H; discriminate H].
      intros H. injection H as <-. right. split; [reflexivity|].
      cbn [mem_str existsb] in E.
      destruct (String.eqb_spec s "created_at") as [Hs|_];
        [left; now rewrite Hs|].
      destruct (String.eqb_spec s "updated_at") as [Hs|_];
        [right; now rewrite Hs|].
      discriminate E.
    + intros [[E _]|[E [->| ->]]]; [discriminate E| |];
        injection E as ->; reflexivity.
  - rewrite validate_field_absent. cbn [f_default]. split.
    + intros H. injection H as <-. now left.
    + intros [[_ ->]|[E _]]; [reflexivity|discriminate E].
Qed.

Lemma tags_field_inr raw w :
  validate_field (attr_default "tags" (TList TStr) (VList []))
                 (raw_of Query (attr_default "tags" (TList TStr) (VList []))
                         raw)
  = inr w <->
  w = VList (values_of "tags" raw)
  /\ forall r, In r (values_of "tags" raw) -> exists s, r = VStr s.
Proof.
  unfold raw_of, attr_default.
  cbn [multi_valued f_type is_list_type andb wire_name f_info alias no_info
       f_name].
  destruct (values_of "tags" raw) as [|x vs] eqn:E.
  - rewrite validate_field_absent. cbn [f_default]. split.
    + intros H. injection H as <-. split; [reflexivity|]. intros r [].
    + intros [-> _]. reflexivity.
  - rewrite validate_field_plain, coerce_list.
    destruct (coerce_all (coerce TStr) (x :: vs)) as [e|l'] eqn:C.
    + split; [intros H; discriminate H|]. intros [_ H].
      assert (C' : coerce_all (coerce TStr) (x :: vs) = inr (x :: vs))
        by (apply coerce_all_str; auto).
      rewrite C in C'. discriminate C'.
    + apply coerce_all_str in C as [-> H]. split.
      * intros Hw. injection Hw as <-. auto.
      * intros [-> _]. reflexivity.
Qed.

Lemma items_filter_valid req kwargs :
  validate_request (schema GET "/items-filter/") req = Validated kwargs <->
  exists limit offset order_by,
    validate_field (attr_field "limit" TInt (VInt 100)
                      (with_gt (VInt 0) (with_le (VInt 100) no_info)))
                   (query_arg "limit" req) = inr limit
    /\ validate_field (attr_field "offset" TInt (VInt 0)
                         (with_ge (VInt 0) no_info))
                      (query_arg "offset" req) = inr offset
    /\ validate_field (attr_default "order_by"
                         (TLiteral ["created_at"; "updated_at"])
                         (VStr "created_at"))
                      (query_arg "order_by" req) = inr order_by
    /\ (forall r, In r (values_of "tags" (query req)) -> exists s, r = VStr s)
    /\ kwargs = [("filter_query",
                  VDict [("limit", limit); ("offset", offset);
                         ("order_by", order_by);
                         ("tags", VList (values_of "tags" (query req)))])].
Proof.
  rewrite (schema_of_route _ _ _ route_items_filter). cbn [r_params].
  rewrite validate_request_open_group by (reflexivity || discriminate).
  unfold FilterParams at 1. cbn [m_fields pairs_of]. split.
  - intros [vals [H ->]].
    apply validate_fields_cons_iff in H as [v1 [vs1 [H1 [H ->]]]].
    apply validate_fields_cons_iff in H as [v2 [vs2 [H2 [H ->]]]].
    apply validate_fields_cons_iff in H as [v3 [vs3 [H3 [H ->]]]].
    apply validate_fields_cons_iff in H as [v4 [vs4 [H4 [H ->]]]].
    apply validate_fields_nil_iff in H as ->.
    apply tags_field_inr in H4 as [-> H4].
    exists v1, v2, v3. auto.
  - intros [v1 [v2 [v3 [H1 [H2 [H3 [H4 ->]]]]]]].
    eexists. split; [|reflexivity].
    apply validate_fields_cons_iff. exists v1. eexists.
    split; [exact H1|]. split; [|reflexivity].
    apply validate_fields_cons_iff. exists v2. eexists.
    split; [exact H2|]. split; [|reflexivity].
    apply validate_fields_cons_iff. exists v3. eexists.
    split; [exact H3|]. split; [|reflexivity].
    apply validate_fields_cons_iff. eexists. eexists.
    split; [apply tags_field_inr; split; [reflexivity|exact H4]|].
    split; [|reflexivity]. now apply validate_fields_nil_iff.
Qed.

(** C6.  A GET /items-filter/ request without query parameters validates
    and every member of the query group resolves to its declared default:
    the response is limit 100, offset 0, order_by created_at and no tags.
    With query parameters, validation succeeds exactly when a supplied
    [limit] is an integer in (0, 100], a supplied [offset] an integer >= 0,
    a supplied [order_by] one of created_at and updated_at, and every
    supplied tag a string. *)
Theorem items_filter_validation :
  (forall req,
      query req = [] ->
      let defaults := VDict [("limit", VInt 100); ("offset", VInt 0);
                             ("order_by", VStr "created_at");
                             ("tags", VList [])] in
      dispatch app GET "/items-filter/" req
      = mk_outcome (OK defaults) [[("filter_query", defaults)]])
  /\ (forall req,
         (exists kwargs,
             validate_request (schema GET "/items-filter/") req
             = Validated kwargs)
         <-> (forall r, query_arg "limit" req = Some r ->
                        exists n, coerce TInt r = inr (VInt n) /\ 0 < n <= 100)
             /\ (forall r, query_arg "offset" req = Some r ->
                           exists n, coerce TInt r = inr (VInt n) /\ 0 <= n)
             /\ (forall r, query_arg "order_by" req = Some r ->
                           r = VStr "created_at" \/ r = VStr "updated_at")
             /\ (forall r, In r (values_of "tags" (query req)) ->
                           exists s, r = VStr s)).
Proof.
  split.
  - intros req Hq defaults.
    assert (H : validate_request (schema GET "/items-filter/") req
                = Validated [("filter_query", defaults)]).
    { apply items_filter_valid. unfold query_arg. rewrite Hq.
      exists (VInt 100), (VInt 0), (VStr "created_at").
      repeat split. intros r []. }
    rewrite (dispatch_valid _ _ _ _ _ route_items_filter H). reflexivity.
  - intros req. split.
    + intros [kwargs H].
      apply items_filter_valid in H as [v1 [v2 [v3 [H1 [H2 [H3 [H4 _]]]]]]].
      split; [|split; [|split; [|exact H4]]].
      * intros r E. rewrite E in H1.
        apply limit_field_inr in H1 as [[E1 _]|[r' [n [E1 [C [R _]]]]]];
          [discriminate E1|]. injection E1 as <-. eauto.
      * intros r E. rewrite E in H2.
        apply offset_field_inr in H2 as [[E2 _]|[r' [n [E2 [C [R _]]]]]];
          [discriminate E2|]. injection E2 as <-. eauto.
      * intros r E. rewrite E in H3.
        apply order_by_field_inr in H3 as [[E3 _]|[E3 R]];
          [discriminate E3|]. injection E3 as <-. exact R.
    + intros [L [O [B T]]].
      assert (H1 : exists v, validate_field
                     (attr_field "limit" TInt (VInt 100)
                        (with_gt (VInt 0) (with_le (VInt 100) no_info)))
                     (query_arg "limit" req) = inr v).
      { destruct (query_arg "limit" req) as [r|].
        - destruct (L r eq_refl) as [n [C R]]. exists (VInt n).
          apply limit_field_inr. right. exists r, n. auto.
        - exists (VInt 100). apply limit_field_inr. now left. }
      assert (H2 : exists v, validate_field
                     (attr_field "offset" TInt (VInt 0)
                        (with_ge (VInt 0) no_info))
                     (query_arg "offset" req) = inr v).
      { destruct (query_arg "offset" req) as [r|].
        - destruct (O r eq_refl) as [n [C R]]. exists (VInt n).
          apply offset_field_inr. right. exists r, n. auto.
        - exists (VInt 0). apply offset_field_inr. now left. }
      assert (H3 : exists v, validate_field
                     (attr_default "order_by"
                        (TLiteral ["created_at"; "updated_at"])
                        (VStr "created_at"))
                     (query_arg "order_by" req) = inr v).
      { destruct (query_arg "order_by" req) as [r|].
        - exists r. apply order_by_field_inr. right. auto.
        - exists (VStr "created_at"). apply order_by_field_inr. now left. }
      destruct H1 as [v1 H1], H2 as [v2 H2], H3 as [v3 H3].
      eexists. apply items_filter_valid. exists v1, v2, v3. auto.
Qed.

(** GET /items-filter/?limit=100&offset=0&order_by=updated_at&tags=a *)
Lemma items_filter_validation_witness :
  exists kwargs,
    validate_request (schema GET "/items-filter/")
      (mk_request []
         [("limit", VStr "100"); ("offset", VStr "0");
          ("order_by", VStr "updated_at"); ("tags", VStr "a")] [] [] None)
    = Validated kwargs.
Proof.
  apply (proj2 items_filter_validation). repeat split.
  - intros r E. injection E as <-. exists 100. split; [reflexivity|lia].
  - intros r E. injection E as <-. exists 0. split; [reflexivity|lia].
  - intros r E. injection E as <-. right. reflexivity.
  - intros r [<-|[]]. exists "a". reflexivity.
Defined.

(** ** GET /validate/ *)

Lemma route_validate_input :
  lookup app GET "/validate/"
  = Some (mk_route GET "/validate/" "validate_input"
            [PField Query (mk_field "text" TStr None no_info [no_spaces])]
            validate_input).
Proof. reflexivity. Qed.

Lemma prefix_empty s : String.prefix "" s = true.
Proof. now destruct s. Qed.

Lemma str_contains_space_cons c s :
  str_contains " " (String c s)
  = if ascii_dec " " c then true else str_contains " " s.
Proof.
  cbn [str_contains String.prefix].
  destruct (ascii_dec " " c); [now rewrite prefix_empty | reflexivity].
Qed.

(** [" " in v] holds exactly when one of the characters of [v] is a space. *)
Lemma str_contains_space s :
  str_contains " " s = true <-> In " "%char (list_ascii_of_string s).
Proof.
  induction s as [|c s IH].
  - split; [intros H; discriminate H | intros []].
  - rewrite str_contains_space_cons. cbn [list_ascii_of_string In].
    destruct (ascii_dec " " c) as [<-|Hc].
    + split; [intros _; now left | reflexivity].
    + rewrite IH. split; [now right|].
      intros [E|H]; [elim Hc; now rewrite E | exact H].
Qed.

Lemma text_field_value s :
  validate_field (mk_field "text" TStr None no_info [no_spaces])
                 (Some (VStr s))
  = if str_contains " " s
    then inl (CustomValidationError "Value must not contain spaces")
    else inr (VStr s).
Proof.
  cbn [validate_field]. unfold validate_value.
  cbn [f_type coerce is_none f_info f_after run_after no_spaces].
  rewrite in_range_no_info. cbn [negb].
  destruct (str_contains " " s); reflexivity.
Qed.

Lemma text_field_custom raw msg :
  validate_field (mk_field "text" TStr None no_info [no_spaces]) raw
  = inl (CustomValidationError msg) ->
  exists s, raw = Some (VStr s) /\ str_contains " " s = true.
Proof.
  destruct raw as [r|]; [|intros H; discriminate H].
  destruct r as [| | | |s| | | | | |]; try (intros H; discriminate H).
  rewrite text_field_value. destruct (str_contains " " s) eqn:E.
  - eauto.
  - intros H. discriminate H.
Qed.

(** C7.  For every GET /validate/ request, validation fails with the
    custom predicate's error exactly when the [text] query value contains a
    space character; a [text] with a space gives that failure alone and the
    handler is not invoked, a [text] without a space validates and the
    response is the text itself. *)
Theorem validate_input_rejects_spaces req :
  let custom := mk_error Query "text"
                  (CustomValidationError "Value must not contain spaces") in
  ((exists errs,
       validate_request (schema GET "/validate/") req = Invalid errs
       /\ In custom errs)
   <-> exists s, query_arg "text" req = Some (VStr s)
                 /\ In " "%char (list_ascii_of_string s))
  /\ (forall s,
         query_arg "text" req = Some (VStr s) ->
         (In " "%char (list_ascii_of_string s) ->
          dispatch app GET "/validate/" req
          = mk_outcome (UnprocessableEntity [custom]) [])
         /\ (~ In " "%char (list_ascii_of_string s) ->
             dispatch app GET "/validate/" req
             = mk_outcome (OK (VDict [("text", VStr s)]))
                          [[("text", VStr s)]])).
Proof.
  intros custom.
  assert (E : validate_request (schema GET "/validate/") req
              = match validate_field
                        (mk_field "text" TStr None no_info [no_spaces])
                        (query_arg "text" req) with
                | inl k => Invalid [mk_error Query "text" k]
                | inr v => Validated [("text", v)]
                end).
  { rewrite (schema_of_route _ _ _ route_validate_input).
    unfold validate_request. cbn [r_params validate validate_param].
    change (raw_of Query _ (pairs_of Query req)) with (query_arg "text" req).
    now destruct (validate_field _ (query_arg "text" req)). }
  split.
  - rewrite E. split.
    + intros [errs [H Hin]].
      destruct (validate_field _ (query_arg "text" req)) as [k|v] eqn:F;
        [|discriminate H].
      injection H as <-. destruct Hin as [Hin|[]]. injection Hin as ->.
      apply text_field_custom in F as [s [F C]].
      exists s. split; [exact F|]. now apply str_contains_space.
    + intros [s [F C]]. apply str_contains_space in C.
      rewrite F, text_field_value, C. eexists. split; [reflexivity|].
      now left.
  - intros s F. rewrite F, text_field_value in E. split.
    + intros C. apply str_contains_space in C. rewrite C in E.
      now rewrite (dispatch_invalid _ _ _ _ _ route_validate_input E).
    + intros C.
      destruct (str_contains " " s) eqn:N;
        [elim C; now apply str_contains_space|].
      now rewrite (dispatch_valid _ _ _ _ _ route_validate_input E).
Qed.

(** GET /validate/?text=Hello%20World and GET /validate/?text=HelloWorld *)
Lemma validate_input_rejects_spaces_witness :
  dispatch app GET "/validate/"
    (mk_request [] [("text", VStr "Hello World")] [] [] None)
  = mk_outcome
      (UnprocessableEntity
         [mk_error Query "text"
            (CustomValidationError "Value must not contain spaces")])
      []
  /\ dispatch app GET "/validate/"
       (mk_request [] [("text", VStr "HelloWorld")] [] [] None)
     = mk_outcome (OK (VDict [("text", VStr "HelloWorld")]))
                  [[("text", VStr "HelloWorld")]].
Proof.
  split.
  - apply (proj2 (validate_input_rejects_spaces
                    (mk_request [] [("text", VStr "Hello World")] [] [] None))
                 "Hello World" eq_refl).
    simpl. tauto.
  - apply (proj2 (validate_input_rejects_spaces
                    (mk_request [] [("text", VStr "HelloWorld")] [] [] None))
                 "HelloWorld" eq_refl).
    simpl. intros H. repeat (destruct H as [H|H]; [discriminate H|]). exact H.
Defined.

(** ** GET and PUT /items/{item_id} *)

Lemma route_read_item :
  lookup app GET "/items/{item_id}"
  = Some (mk_route GET "/items/{item_id}" "read_item"
            [PField Path (mk_field "item_id" TInt None no_info []);
             PField Query (mk_field "q" (TOptional TStr) (Some VNone)
                             (with_alias "item-query" no_info) [])]
            read_item).
Proof. reflexivity. Qed.

Lemma route_update_item :
  lookup app PUT "/items/{item_id}"
  = Some (mk_route PUT "/items/{item_id}" "update_item"
            [PField Path (mk_field "item_id" TInt None no_info []);
             PGroup Body "item" Item;
             PField Query (mk_field "q" (TOptional TStr) (Some VNone)
                             no_info [])]
            update_item).
Proof. reflexivity. Qed.


(** C10.  For GET /items/{item_id}, whose [q] is sent as [item-query], and
    for PUT /items/{item_id}, the response carries a [q] key exactly when
    the validated [q] is a non-empty string: an empty [q] is left out like
    an absent one.  The other fields of the response, [item_id] and for PUT
    the four fields of the item, are the same whatever [q] is. *)
Theorem q_key_iff_nonempty_string :
  (forall req kwargs,
      validate_request (schema GET "/items/{item_id}") req = Validated kwargs ->
      exists n q,
        kwargs = [("item_id", VInt n); ("q", q)]
        /\ (q = VNone \/ exists s, q = VStr s)
        /\ (query_arg "item-query" req = None -> q = VNone)
        /\ (forall s, query_arg "item-query" req = Some (VStr s) -> q = VStr s)
        /\ let response :=
             (("item_id", VInt n)
              :: match q with
                 | VStr (String _ _) => [("q", q)]
                 | _ => []
                 end) in
           sent (dispatch app GET "/items/{item_id}" req) = OK (VDict response)
           /\ (dict_has "q" response = true
               <-> exists c s, q = VStr (String c s)))
  /\ (forall req kwargs,
         validate_request (schema PUT "/items/{item_id}") req
         = Validated kwargs ->
         exists n name description price tax q,
           let item := [("name", VStr name); ("description", description);
                        ("price", VFloat price); ("tax", tax)] in
           kwargs = [("item_id", VInt n); ("item", VDict item); ("q", q)]
           /\ (q = VNone \/ exists s, q = VStr s)
           /\ (query_arg "q" req = None -> q = VNone)
           /\ (forall s, query_arg "q" req = Some (VStr s) -> q = VStr s)
           /\ let response :=
                (("item_id", VInt n) :: item
                 ++ match q with
                    | VStr (String _ _) => [("q", q)]
                    | _ => []
                    end)%list in
              sent (dispatch app PUT "/items/{item_id}" req)
              = OK (VDict response)
              /\ (dict_has "q" response = true
                  <-> exists c s, q = VStr (String c s))).
Proof.
  split.
  - intros req kwargs H. pose proof H as Hv. revert Hv.
    rewrite (schema_of_route _ _ _ route_read_item) in H. cbn [r_params] in H.
    apply validate_request_field in H as [v1 [ks1 [H1 [H ->]]]].
    apply validate_request_field in H as [v2 [ks2 [H2 [H ->]]]].
    apply validate_request_nil in H as ->.
    rewrite raw_of_single in H1, H2 by reflexivity.
    apply validate_field_plain_inr in H1 as [[_ H1]|[r1 [_ H1]]];
      [discriminate H1|].
    apply coerce_has_type in H1 as [n ->].
    apply optional_str_field in H2 as [T [A S]].
    intros Hv. exists n, v2.
    split; [reflexivity|]. split; [exact T|]. split; [exact A|].
    split; [exact S|].
    rewrite (dispatch_valid _ _ _ _ _ route_read_item Hv).
    destruct T as [->|[s ->]]; [|destruct s as [|c s]]; cbn.
    + split; [reflexivity|]. split; [intros E; discriminate E|].
      intros [c [s E]]. discriminate E.
    + split; [reflexivity|]. split; [intros E; discriminate E|].
      intros [c [s E]]. discriminate E.
    + split; [reflexivity|]. split; [eauto|reflexivity].
  - intros req kwargs H. pose proof H as Hv. revert Hv.
    rewrite (schema_of_route _ _ _ route_update_item) in H.
    cbn [r_params] in H.
    apply validate_request_field in H as [v1 [ks1 [H1 [H ->]]]].
    apply validate_request_cons in H as [k1 [k2 [H2 [H ->]]]].
    apply validate_request_field in H as [v3 [ks3 [H3 [H ->]]]].
    apply validate_request_nil in H as ->.
    apply validate_body_group in H2 as [d [vals [Hb [Hf ->]]]];
      [|reflexivity].
    apply item_fields_valid in Hf
      as [name [description [price [tax [-> [Td Tt]]]]]].
    rewrite raw_of_single in H1, H3 by reflexivity.
    apply validate_field_plain_inr in H1 as [[_ H1]|[r1 [_ H1]]];
      [discriminate H1|].
    apply coerce_has_type in H1 as [n ->].
    apply optional_str_field in H3 as [T [A S]].
    intros Hv. exists n, name, description, price, tax, v3.
    split; [reflexivity|]. split; [exact T|]. split; [exact A|].
    split; [exact S|].
    rewrite (dispatch_valid _ _ _ _ _ route_update_item Hv).
    destruct T as [->|[s ->]]; [|destruct s as [|c s]]; cbn.
    + split; [reflexivity|]. split; [intros E; discriminate E|].
      intros [c [s E]]. discriminate E.
    + split; [reflexivity|]. split; [intros E; discriminate E|].
      intros [c [s E]]. discriminate E.
    + split; [reflexivity|]. split; [eauto|reflexivity].
Qed.

(** GET /items/3?item-query= and GET /items/3?item-query=x *)
Lemma q_key_iff_nonempty_string_witness :
  sent (dispatch app GET "/items/{item_id}"
          (mk_request [("item_id", VStr "3")] [("item-query", VStr "")]
                      [] [] None))
  = OK (VDict [("item_id", VInt 3)])
  /\ sent (dispatch app GET "/items/{item_id}"
             (mk_request [("item_id", VStr "3")] [("item-query", VStr "x")]
                         [] [] None))
     = OK (VDict [("item_id", VInt 3); ("q", VStr "x")]).
Proof.
  split.
  - destruct (proj1 q_key_iff_nonempty_string
                (mk_request [("item_id", VStr "3")] [("item-query", VStr "")]
                            [] [] None)
                [("item_id", VInt 3); ("q", VStr "")] eq_refl)
      as [n [q [Hk [_ [_ [_ [Hs _]]]]]]].
    injection Hk as <- <-. exact Hs.
  - destruct (proj1 q_key_iff_nonempty_string
                (mk_request [("item_id", VStr "3")] [("item-query", VStr "x")]
                            [] [] None)
                [("item_id", VInt 3); ("q", VStr "x")] eq_refl)
      as [n [q [Hk [_ [_ [_ [Hs _]]]]]]].
    injection Hk as <- <-. exact Hs.
Defined.

(** ** PUT /process/{item_id} *)

Lemma route_process_item :
  lookup app PUT "/process/{item_id}"
  = Some (mk_route PUT "/process/{item_id}" "process_item"
            [PField Path (mk_field "item_id" TUuid None no_info []);
             PField Body (mk_field "start_datetime" TDatetime None no_info []);
             PField Body (mk_field "end_datetime" TDatetime None no_info []);
             PField Body (mk_field "process_after" TTimedelta None no_info []);
             PField Body (mk_field "repeat_at" (TOptional TTime) (Some VNone)
                            no_info [])]
            process_item).
Proof. reflexivity. Qed.

(** The difference of two datetime objects is always a timedelta. *)
Lemma datetime_diff_in_range a b :
  datetime_ok a = true -> datetime_ok b = true ->
  (dt_tz a = None <-> dt_tz b = None) ->
  datetime_diff a b
  = Return (VTimedelta
              match dt_tz a, dt_tz b with
              | Some oa, Some ob => dt_us a - dt_us b + ob - oa
              | _, _ => dt_us a - dt_us b
              end).
Proof.
  unfold datetime_ok, datetime_in_range, datetime_diff, mk_timedelta,
    timedelta_in_range, MAX_DATETIME_US, MAXORDINAL, MAX_DELTA_DAYS,
    US_PER_DAY, US_PER_SECOND.
  intros Ha Hb Hz.
  destruct (dt_tz a) as [oa|], (dt_tz b) as [ob|];
    try (exfalso; destruct Hz as [H1 H2];
         (discriminate (H1 eq_refl) || discriminate (H2 eq_refl))).
  - apply andb_true_iff in Ha as [Ha Oa], Hb as [Hb Ob].
    apply andb_true_iff in Ha as [Ha1 Ha2], Hb as [Hb1 Hb2].
    apply andb_true_iff in Oa as [Oa1 Oa2], Ob as [Ob1 Ob2].
    rewrite Z.leb_le in Ha1, Ha2, Hb1, Hb2. rewrite Z.ltb_lt in Oa1, Oa2, Ob1, Ob2.
    replace ((_ <=? _) && (_ <? _)) with true; [reflexivity|].
    symmetry. apply andb_true_iff. rewrite Z.leb_le, Z.ltb_lt. lia.
  - rewrite andb_true_r in Ha, Hb.
    apply andb_true_iff in Ha as [Ha1 Ha2], Hb as [Hb1 Hb2].
    rewrite Z.leb_le in Ha1, Ha2, Hb1, Hb2.
    replace ((_ <=? _) && (_ <? _)) with true; [reflexivity|].
    symmetry. apply andb_true_iff. rewrite Z.leb_le, Z.ltb_lt. lia.
Qed.

(** PUT /process/{item_id} with a naive [start_datetime] and an aware
    [end_datetime], and with a [start_datetime] one second before
    [datetime.max]: both requests are valid, and for both the handler raises
    instead of answering with [start_process] and [duration]. *)
Lemma mixed_awareness_raises :
  let uuid := VStr "123e4567-e89b-12d3-a456-426614174000" in
  let req := mk_request [("item_id", uuid)] [] [] []
               (Some (VDict [("start_datetime", VStr "2024-01-01T00:00:00");
                             ("end_datetime", VStr "2024-01-02T00:00:00Z");
                             ("process_after", VInt 60)])) in
  let late := mk_request [("item_id", uuid)] [] [] []
                (Some (VDict [("start_datetime", VStr "9999-12-31T23:59:59");
                              ("end_datetime", VStr "9999-12-31T23:59:59");
                              ("process_after", VInt 1)])) in
  (exists kwargs,
      validate_request (schema PUT "/process/{item_id}") req = Validated kwargs)
  /\ sent (dispatch app PUT "/process/{item_id}" req)
     = InternalServerError
         (TypeError "can't subtract offset-naive and offset-aware datetimes")
  /\ (forall response,
         sent (dispatch app PUT "/process/{item_id}" req) <> OK response)
  /\ (exists kwargs,
         validate_request (schema PUT "/process/{item_id}") late
         = Validated kwargs)
  /\ sent (dispatch app PUT "/process/{item_id}" late)
     = InternalServerError (OverflowError "date value out of range")
  /\ (forall response,
         sent (dispatch app PUT "/process/{item_id}" late) <> OK response).
Proof.
  intros uuid req late.
  assert (E1 : sent (dispatch app PUT "/process/{item_id}" req)
               = InternalServerError
                   (TypeError
                      "can't subtract offset-naive and offset-aware datetimes"))
    by reflexivity.
  assert (E2 : sent (dispatch app PUT "/process/{item_id}" late)
               = InternalServerError
                   (OverflowError "date value out of range"))
    by reflexivity.
  split; [eexists; reflexivity|]. split; [exact E1|]. split.
  { intros response H. rewrite E1 in H. discriminate H. }
  split; [eexists; reflexivity|]. split; [exact E2|].
  intros response H. rewrite E2 in H. discriminate H.
Qed.

Lemma process_item_eval item_id s e pa repeat_at :
  process_item [("item_id", item_id);
                ("start_datetime", VDatetime s);
                ("end_datetime", VDatetime e);
                ("process_after", VTimedelta pa);
                ("repeat_at", repeat_at)]
  = (start_process <- add (VDatetime s) (VTimedelta pa) ;;
     duration <- sub (VDatetime e) start_process ;;
     Return (VDict [("item_id", item_id);
                    ("start_datetime", VDatetime s);
                    ("end_datetime", VDatetime e);
                    ("process_after", VTimedelta pa);
                    ("repeat_at", repeat_at);
                    ("start_process", start_process);
                    ("duration", duration)])).
Proof. reflexivity. Qed.

(** C8, amended.  For every valid PUT /process/{item_id} request whose
    [start_datetime + process_after] is a representable datetime and whose
    [start_datetime] and [end_datetime] are both naive or both aware, the
    response echoes the five inputs and adds
    [start_process = start_datetime + process_after] and
    [duration = end_datetime - start_process]. *)
Theorem process_item_response req kwargs :
  validate_request (schema PUT "/process/{item_id}") req = Validated kwargs ->
  exists item_id start_datetime end_datetime process_after repeat_at,
    kwargs = [("item_id", VUuid item_id);
              ("start_datetime", VDatetime start_datetime);
              ("end_datetime", VDatetime end_datetime);
              ("process_after", VTimedelta process_after);
              ("repeat_at", repeat_at)]
    /\ (datetime_in_range (dt_us start_datetime + process_after) = true ->
        (dt_tz start_datetime = None <-> dt_tz end_datetime = None) ->
        exists start_process duration,
          add (VDatetime start_datetime) (VTimedelta process_after)
          = Return start_process
          /\ sub (VDatetime end_datetime) start_process = Return duration
          /\ start_process
             = VDatetime (mk_datetime (dt_us start_datetime + process_after)
                                      (dt_tz start_datetime))
          /\ duration
             = VTimedelta
                 match dt_tz end_datetime, dt_tz start_datetime with
                 | Some oe, Some os =>
                     dt_us end_datetime
                     - (dt_us start_datetime + process_after) + os - oe
                 | _, _ =>
                     dt_us end_datetime
                     - (dt_us start_datetime + process_after)
                 end
          /\ sent (dispatch app PUT "/process/{item_id}" req)
             = OK (VDict [("item_id", VUuid item_id);
                          ("start_datetime", VDatetime start_datetime);
                          ("end_datetime", VDatetime end_datetime);
                          ("process_after", VTimedelta process_after);
                          ("repeat_at", repeat_at);
                          ("start_process", start_process);
                          ("duration", duration)])).
Proof.
  intros H. pose proof H as Hv. revert Hv.
  rewrite (schema_of_route _ _ _ route_process_item) in H. cbn [r_params] in H.
  apply validate_request_field in H as [v1 [ks1 [H1 [H ->]]]].
  apply validate_request_field in H as [v2 [ks2 [H2 [H ->]]]].
  apply validate_request_field in H as [v3 [ks3 [H3 [H ->]]]].
  apply validate_request_field in H as [v4 [ks4 [H4 [H ->]]]].
  apply validate_request_field in H as [v5 [ks5 [H5 [H ->]]]].
  apply validate_request_nil in H as ->.
  apply validate_field_plain_inr in H1 as [[_ H1]|[r1 [_ H1]]];
    [discriminate H1|].
  apply validate_field_plain_inr in H2 as [[_ H2]|[r2 [_ H2]]];
    [discriminate H2|].
  apply validate_field_plain_inr in H3 as [[_ H3]|[r3 [_ H3]]];
    [discriminate H3|].
  apply validate_field_plain_inr in H4 as [[_ H4]|[r4 [_ H4]]];
    [discriminate H4|].
  apply coerce_has_type in H1 as [u ->].
  apply coerce_has_type in H2 as [s [-> Hs]].
  apply coerce_has_type in H3 as [e [-> He]].
  apply coerce_has_type in H4 as [pa [-> Hpa]].
  intros Hv. exists u, s, e, pa, v5. split; [reflexivity|].
  intros Hr Hz.
  assert (Ha : add (VDatetime s) (VTimedelta pa)
               = Return (VDatetime (mk_datetime (dt_us s + pa) (dt_tz s)))).
  { cbn [add]. unfold datetime_add. now rewrite Hr. }
  assert (Hd : sub (VDatetime e)
                 (VDatetime (mk_datetime (dt_us s + pa) (dt_tz s)))
               = Return (VTimedelta
                           match dt_tz e, dt_tz s with
                           | Some oe, Some os =>
                               dt_us e - (dt_us s + pa) + os - oe
                           | _, _ => dt_us e - (dt_us s + pa)
                           end)).
  { cbn [sub]. rewrite datetime_diff_in_range; [reflexivity|exact He| |].
    - unfold datetime_ok in *. cbn [dt_us dt_tz]. rewrite Hr.
      apply andb_true_iff in Hs as [_ Hs]. exact Hs.
    - cbn [dt_tz]. tauto. }
  eexists. eexists. split; [exact Ha|]. split; [exact Hd|].
  split; [reflexivity|]. split; [reflexivity|].
  rewrite (dispatch_valid _ _ _ _ _ route_process_item Hv).
  cbn [r_handler sent]. rewrite process_item_eval, Ha. cbn [bind].
  rewrite Hd. reflexivity.
Qed.

(** PUT /process/{item_id} with start 2024-01-01T00:00:00, end
    2024-01-02T00:00:00 and one minute of delay. *)
Lemma process_item_response_witness :
  let start_datetime := mk_datetime 63839664000000000 None in
  let end_datetime := mk_datetime 63839750400000000 None in
  sent (dispatch app PUT "/process/{item_id}"
          (mk_request
             [("item_id", VStr "123e4567-e89b-12d3-a456-426614174000")]
             [] [] []
             (Some (VDict [("start_datetime", VStr "2024-01-01T00:00:00");
                           ("end_datetime", VStr "2024-01-02T00:00:00");
                           ("process_after", VInt 60)]))))
  = OK (VDict [("item_id", VUuid 24249434048109030647017182301789831168);
               ("start_datetime", VDatetime start_datetime);
               ("end_datetime", VDatetime end_datetime);
               ("process_after", VTimedelta 60000000);
               ("repeat_at", VNone);
               ("start_process",
                VDatetime (mk_datetime 63839664060000000 None));
               ("duration", VTimedelta 86340000000)]).
Proof.
  intros start_datetime end_datetime.
  destruct (process_item_response
              (mk_request
                 [("item_id", VStr "123e4567-e89b-12d3-a456-426614174000")]
                 [] [] []
                 (Some (VDict [("start_datetime", VStr "2024-01-01T00:00:00");
                               ("end_datetime", VStr "2024-01-02T00:00:00");
                               ("process_after", VInt 60)])))
              [("item_id", VUuid 24249434048109030647017182301789831168);
               ("start_datetime", VDatetime start_datetime);
               ("end_datetime", VDatetime end_datetime);
               ("process_after", VTimedelta 60000000);
               ("repeat_at", VNone)]
              eq_refl)
    as [u [s [e [pa [ra [Hk H]]]]]].
  injection Hk as <- <- <- <- <-.
  destruct (H eq_refl (conj (fun _ => eq_refl) (fun _ => eq_refl)))
    as [sp [du [_ [_ [-> [-> Hs]]]]]].
  exact Hs.
Defined.

(** ** Re-validation of typed values *)

(** *** Coercion is idempotent *)

Lemma coerce_all_idem (c : value -> error_kind + value) l :
  Forall (fun x => forall y, c x = inr y -> c y = inr y) l ->
  forall l', coerce_all c l = inr l' -> coerce_all c l' = inr l'.
Proof.
  induction 1 as [|x l Hx Hl IH]; intros l' H; cbn [coerce_all] in H.
  - injection H as <-. reflexivity.
  - destruct (c x) as [e|y] eqn:Ex; [discriminate H|].
    destruct (coerce_all c l) as [e|ys] eqn:El; [discriminate H|].
    injection H as <-. cbn [coerce_all].
    now rewrite (Hx y eq_refl), (IH ys eq_refl).
Qed.

Lemma parsed_checked {A} t v (wrap : A -> value) ok o w :
  parsed t v wrap (checked ok o) = inr w ->
  exists a, w = wrap a /\ ok a = true.
Proof.
  intros H. apply parsed_inr in H as [a [H ->]].
  apply checked_Some in H as [_ H]. eauto.
Qed.

Lemma coerce_idem t : forall raw v, coerce t raw = inr v -> coerce t v = inr v.
Proof.
  induction t as [| | | | | | | |ms|ms|e IH|t IH|]; intros raw v H;
    cbn [coerce] in H.
  - destruct raw; try discriminate H. injection H as <-. reflexivity.
  - destruct raw; try discriminate H.
    + injection H as <-. reflexivity.
    + apply parsed_inr in H as [a [_ ->]]. reflexivity.
  - destruct raw; try discriminate H.
    + injection H as <-. reflexivity.
    + injection H as <-. reflexivity.
    + apply parsed_inr in H as [a [_ ->]]. reflexivity.
  - destruct raw; try discriminate H.
    + injection H as <-. reflexivity.
    + apply parsed_inr in H as [a [_ ->]]. reflexivity.
  - destruct raw; try discriminate H.
    + apply parsed_inr in H as [a [_ ->]]. reflexivity.
    + injection H as <-. reflexivity.
  - destruct raw; try discriminate H;
      apply parsed_checked in H as [a [-> H]];
      cbn [coerce checked]; rewrite H; reflexivity.
  - destruct raw; try discriminate H;
      apply parsed_checked in H as [a [-> H]];
      cbn [coerce checked]; rewrite H; reflexivity.
  - destruct raw; try discriminate H.
    + apply parsed_inr in H as [a [_ ->]]. reflexivity.
    + injection H as <-. reflexivity.
  - destruct raw as [| | | |s| | | | | |]; try discriminate H.
    destruct (mem_str s ms) eqn:E; [|discriminate H]. injection H as <-.
    cbn [coerce]. now rewrite E.
  - destruct raw as [| | | |s| | | | | |]; try discriminate H.
    destruct (mem_str s ms) eqn:E; [|discriminate H]. injection H as <-.
    cbn [coerce]. now rewrite E.
  - destruct raw as [| | | | | | | | |l|]; try discriminate H.
    destruct (coerce_all (coerce e) l) as [err|l'] eqn:E; [discriminate H|].
    injection H as <-. rewrite coerce_list.
    rewrite (coerce_all_idem (coerce e) l); [reflexivity| |exact E].
    apply Forall_forall. intros x _ y. apply IH.
  - destruct raw; try (specialize (IH _ _ H); destruct v; exact IH || reflexivity).
    injection H as <-. reflexivity.
  - destruct raw; try discriminate H. injection H as <-. reflexivity.
Qed.

(** *** The field validator is idempotent *)

Lemma run_after_filters fs v w :
  Forall is_filter fs -> run_after fs v = inr w -> w = v.
Proof.
  intros Hf. revert v. induction Hf as [|g fs Hg Hfs IH]; intros v H;
    cbn [run_after] in H.
  - now injection H as <-.
  - destruct (g v) as [u|e] eqn:E; [|discriminate H].
    apply Hg in E as ->. now apply IH.
Qed.

Lemma validate_value_idem f raw v :
  Forall is_filter (f_after f) ->
  validate_value f raw = inr v -> validate_value f v = inr v.
Proof.
  intros Hf H. apply validate_value_inr in H as [w [Hc Hw]].
  apply validate_value_inr.
  destruct (is_none w) eqn:N.
  - subst v. exists w. split; [now apply coerce_idem with raw|].
    now rewrite N.
  - destruct Hw as [R [L [P A]]].
    pose proof (run_after_filters _ _ _ Hf A) as ->.
    exists w. split; [now apply coerce_idem with raw|].
    rewrite N. auto.
Qed.

Lemma validate_value_filters f raw v w :
  Forall is_filter (f_after f) ->
  validate_value f raw = inr v -> coerce (f_type f) raw = inr w -> v = w.
Proof.
  intros Hf H Hc. apply validate_value_inr in H as [w' [Hc' Hw]].
  rewrite Hc in Hc'. injection Hc' as <-.
  destruct (is_none w); [exact Hw|].
  destruct Hw as [_ [_ [_ A]]]. now apply run_after_filters in A.
Qed.

(** A sequence type turns a non-empty sequence into a non-empty one. *)
Lemma coerce_list_nonempty t x xs w :
  is_list_type t = true ->
  coerce t (VList (x :: xs)) = inr w -> exists y ys, w = VList (y :: ys).
Proof.
  assert (L : forall e, coerce (TList e) (VList (x :: xs)) = inr w ->
                        exists y ys, w = VList (y :: ys)).
  { intros e H. rewrite coerce_list in H. cbn [coerce_all] in H.
    destruct (coerce e x) as [k|y]; [discriminate H|].
    destruct (coerce_all (coerce e) xs) as [k|ys]; [discriminate H|].
    injection H as <-. eauto. }
  destruct t as [| | | | | | | | | |e|t|]; try (intros H; discriminate H).
  - intros _. apply L.
  - destruct t as [| | | | | | | | | |e|t|]; try (intros H; discriminate H).
    intros _ H. cbn [coerce] in H. now apply (L e).
Qed.

Lemma values_of_app k (l1 l2 : list (string * value)) :
  values_of k (l1 ++ l2) = (values_of k l1 ++ values_of k l2)%list.
Proof. unfold values_of. now rewrite filter_app, map_app. Qed.

Lemma values_of_same k (vs : list value) :
  values_of k (map (fun x => (k, x)) vs) = vs.
Proof.
  unfold values_of. induction vs as [|x vs IH]; [reflexivity|].
  cbn [map filter fst]. rewrite String.eqb_refl. cbn [map snd].
  now rewrite IH.
Qed.

Lemma last_value_single k v : last_value k [(k, v)] = Some v.
Proof.
  unfold last_value, values_of. cbn [filter fst].
  now rewrite String.eqb_refl.
Qed.

(** What the validator reads back from a field's own typed value is
    accepted as that value. *)
Lemma field_resend (src : FastAPI.source) f raw v :
  field_ok src f ->
  validate_field f (raw_of src f raw) = inr v ->
  validate_field f (raw_of src f (send src f v)) = inr v.
Proof.
  intros [Hf Hd] H.
  destruct (raw_of src f raw) as [r|] eqn:Er.
  - cbn [validate_field] in H. unfold raw_of, send in *.
    destruct (multi_valued src && is_list_type (f_type f)) eqn:M.
    + apply andb_true_iff in M as [_ M].
      destruct (values_of (wire_name f) raw) as [|x xs]; [discriminate Er|].
      injection Er as <-.
      pose proof H as Hv. apply validate_value_inr in Hv as [w [Hc _]].
      pose proof (validate_value_filters _ _ _ _ Hf H Hc) as ->.
      destruct (coerce_list_nonempty _ _ _ _ M Hc) as [y [ys ->]].
      rewrite values_of_same. cbn [validate_field].
      now apply validate_value_idem with (VList (x :: xs)).
    + rewrite last_value_single. cbn [validate_field].
      now apply validate_value_idem with r.
  - cbn [validate_field] in H. destruct (f_default f) as [d|] eqn:D;
      [|discriminate H].
    injection H as <-. now apply Hd.
Qed.

(** *** What a schema sends, key by key *)

Lemma raw_of_ext (src : FastAPI.source) f raw raw' :
  values_of (wire_name f) raw = values_of (wire_name f) raw' ->
  raw_of src f raw = raw_of src f raw'.
Proof. intros H. unfold raw_of, last_value. now rewrite H. Qed.

Lemma values_of_send_other (src : FastAPI.source) f v k :
  k <> wire_name f -> values_of k (send src f v) = [].
Proof.
  intros Hk. apply String.eqb_neq in Hk. unfold send, values_of.
  destruct (multi_valued src && is_list_type (f_type f)).
  - destruct v as [| | | | | | | | |l|]; try reflexivity.
    induction l as [|x l IH]; [reflexivity|].
    cbn [map filter fst]. now rewrite Hk.
  - cbn [filter fst]. now rewrite Hk.
Qed.

Lemma send_fields_cons (src : FastAPI.source) f fs d :
  send_fields src (f :: fs) d
  = (field_sends src f d ++ send_fields src fs d)%list.
Proof. reflexivity. Qed.

Lemma values_of_field_sends_other (src : FastAPI.source) f d k :
  k <> wire_name f -> values_of k (field_sends src f d) = [].
Proof.
  intros Hk. unfold field_sends. destruct (dict_get (f_name f) d).
  - now apply values_of_send_other.
  - reflexivity.
Qed.

Lemma values_of_send_fields_notin (src : FastAPI.source) fs d k :
  ~ In k (map wire_name fs) -> values_of k (send_fields src fs d) = [].
Proof.
  induction fs as [|f fs IH]; intros Hk; [reflexivity|].
  rewrite send_fields_cons, values_of_app.
  rewrite values_of_field_sends_other, IH; [reflexivity| |];
    intros E; apply Hk; [now right | now left].
Qed.

Lemma values_of_send_fields_in (src : FastAPI.source) fs d f :
  NoDup (map wire_name fs) -> In f fs ->
  values_of (wire_name f) (send_fields src fs d)
  = values_of (wire_name f) (field_sends src f d).
Proof.
  induction fs as [|g fs IH]; intros Hn Hin; [destruct Hin|].
  cbn [map] in Hn. apply NoDup_cons_iff in Hn as [Hg Hn].
  rewrite send_fields_cons, values_of_app. destruct Hin as [->|Hin].
  - rewrite (values_of_send_fields_notin _ _ _ _ Hg). now rewrite app_nil_r.
  - rewrite values_of_field_sends_other.
    + now apply IH.
    + intros E. apply Hg. rewrite <- E. now apply in_map.
Qed.

Lemma send_param_fields p kwargs :
  send_param p kwargs
  = match param_dict p kwargs with
    | Some d => send_fields (param_source p) (param_fields p) d
    | None => []
    end.
Proof. reflexivity. Qed.

Lemma values_of_send_param_notin p kwargs k :
  ~ In k (map wire_name (param_fields p)) ->
  values_of k (send_param p kwargs) = [].
Proof.
  intros Hk. rewrite send_param_fields. destruct (param_dict p kwargs).
  - now apply values_of_send_fields_notin.
  - reflexivity.
Qed.

Lemma source_eqb_eq a b : source_eqb a b = true <-> a = b.
Proof. destruct a, b; split; intros H; (reflexivity || discriminate H). Qed.

Lemma source_eqb_refl a : source_eqb a a = true.
Proof. now destruct a. Qed.


Lemma NoDup_app_disjoint {A} (l1 l2 : list A) a :
  NoDup (l1 ++ l2) -> In a l1 -> ~ In a l2.
Proof.
  induction l1 as [|x l1 IH]; intros Hn Hin; [destruct Hin|].
  cbn [app] in Hn. apply NoDup_cons_iff in Hn as [Hx Hn].
  destruct Hin as [->|Hin].
  - intros H. apply Hx. apply in_or_app. now right.
  - now apply IH.
Qed.

Lemma sent_on_cons (src : FastAPI.source) q ps kwargs :
  sent_on src (q :: ps) kwargs
  = ((if source_eqb (param_source q) src then send_param q kwargs else [])
     ++ sent_on src ps kwargs)%list.
Proof. reflexivity. Qed.

Lemma wire_keys_cons (src : FastAPI.source) q ps :
  wire_keys src (q :: ps)
  = ((if source_eqb (param_source q) src
      then map wire_name (param_fields q) else [])
     ++ wire_keys src ps)%list.
Proof. reflexivity. Qed.

Lemma wire_keys_in (src : FastAPI.source) ps p k :
  In p ps -> param_source p = src ->
  In k (map wire_name (param_fields p)) -> In k (wire_keys src ps).
Proof.
  intros Hin Hs Hk. unfold wire_keys. apply in_flat_map. exists p.
  split; [exact Hin|]. rewrite Hs, source_eqb_refl. exact Hk.
Qed.

Lemma values_of_sent_on_notin (src : FastAPI.source) ps kwargs k :
  ~ In k (wire_keys src ps) -> values_of k (sent_on src ps kwargs) = [].
Proof.
  induction ps as [|q ps IH]; intros Hk; [reflexivity|].
  rewrite sent_on_cons, values_of_app. rewrite wire_keys_cons in Hk.
  rewrite IH by (intros H; apply Hk, in_or_app; now right).
  destruct (source_eqb (param_source q) src); [|reflexivity].
  rewrite values_of_send_param_notin; [reflexivity|].
  intros H. apply Hk, in_or_app. now left.
Qed.

(** Under one key, a source carries what the one entry that owns the key
    sends. *)
Lemma values_of_sent_on (src : FastAPI.source) ps kwargs p k :
  NoDup (wire_keys src ps) ->
  In p ps -> param_source p = src ->
  In k (map wire_name (param_fields p)) ->
  values_of k (sent_on src ps kwargs) = values_of k (send_param p kwargs).
Proof.
  induction ps as [|q ps IH]; intros Hn Hin Hs Hk; [destruct Hin|].
  rewrite sent_on_cons, values_of_app. rewrite wire_keys_cons in Hn.
  destruct Hin as [->|Hin].
  - rewrite Hs, source_eqb_refl in *.
    rewrite values_of_sent_on_notin; [now rewrite app_nil_r|].
    now apply NoDup_app_disjoint with (l1 := map wire_name (param_fields p)).
  - rewrite (IH (NoDup_app_remove_l _ _ Hn) Hin Hs Hk).
    destruct (source_eqb (param_source q) src) eqn:Eq; [|reflexivity].
    rewrite values_of_send_param_notin; [reflexivity|].
    intros H. apply (NoDup_app_disjoint _ _ k Hn H).
    now apply wire_keys_in with p.
Qed.

(** *** The keyword arguments of a validated request *)

Lemma validate_param_entry p req k :
  validate_param p req = ([], k) -> exists x, k = [(param_name p, x)].
Proof.
  destruct p as [src f|src name m]; cbn [validate_param param_name].
  - destruct (validate_field f _) as [e|v]; intros H; [discriminate H|].
    injection H as <-. eauto.
  - assert (G : forall raw,
               (let (errs, vals) := validate_group src m raw in
                (errs, [(name, VDict vals)])) = ([], k) ->
               exists x, k = [(name, x)]).
    { intros raw. destruct (validate_group src m raw) as [errs vals].
      intros H. injection H as _ <-. eauto. }
    destruct src; try apply G.
    destruct (body req) as [[| | | | | | | | | |d]|];
      try (intros H; discriminate H). apply G.
Qed.

Lemma dict_get_head k x (d : dict) : dict_get k ((k, x) :: d) = Some x.
Proof. cbn [dict_get]. now rewrite String.eqb_refl. Qed.

Lemma dict_get_skip k k' x (d : dict) :
  k <> k' -> dict_get k ((k', x) :: d) = dict_get k d.
Proof. intros H. apply String.eqb_neq in H. cbn [dict_get]. now rewrite H. Qed.

Lemma validate_lookup ps req kwargs p :
  validate ps req = ([], kwargs) ->
  NoDup (map param_name ps) -> In p ps ->
  exists x, validate_param p req = ([], [(param_name p, x)])
            /\ dict_get (param_name p) kwargs = Some x.
Proof.
  revert kwargs. induction ps as [|q ps IH]; intros kwargs H Hn Hin;
    [destruct Hin|].
  cbn [validate] in H. destruct (validate_param q req) as [e1 k1] eqn:E1.
  destruct (validate ps req) as [e2 k2] eqn:E2.
  injection H as H <-. apply app_eq_nil in H as [-> ->].
  destruct (validate_param_entry _ _ _ E1) as [x ->].
  cbn [map] in Hn. apply NoDup_cons_iff in Hn as [Hq Hn].
  destruct Hin as [->|Hin].
  - exists x. split; [exact E1|].
    change ([(param_name p, x)] ++ k2)%list with ((param_name p, x) :: k2).
    apply dict_get_head.
  - destruct (IH k2 eq_refl Hn Hin) as [y [Hy Hd]]. exists y.
    split; [exact Hy|].
    change ([(param_name q, x)] ++ k2)%list with ((param_name q, x) :: k2).
    rewrite dict_get_skip; [exact Hd|].
    intros E. apply Hq. rewrite <- E. now apply in_map.
Qed.

Lemma validate_fields_lookup (src : FastAPI.source) fs raw vals f :
  validate_fields src fs raw = ([], vals) ->
  NoDup (map f_name fs) -> In f fs ->
  exists v, validate_field f (raw_of src f raw) = inr v
            /\ dict_get (f_name f) vals = Some v.
Proof.
  revert vals. induction fs as [|g fs IH]; intros vals H Hn Hin;
    [destruct Hin|].
  apply validate_fields_cons in H as [v [vs [Hv [Hf ->]]]].
  cbn [map] in Hn. apply NoDup_cons_iff in Hn as [Hg Hn].
  destruct Hin as [->|Hin].
  - exists v. split; [exact Hv|]. apply dict_get_head.
  - destruct (IH vs Hf Hn Hin) as [y [Hy Hd]]. exists y.
    split; [exact Hy|]. rewrite dict_get_skip; [exact Hd|].
    intros E. apply Hg. rewrite <- E. now apply in_map.
Qed.

(** *** Validation depends on what it reads *)

Lemma validate_fields_ext (src : FastAPI.source) fs raw raw' :
  (forall f, In f fs ->
             validate_field f (raw_of src f raw)
             = validate_field f (raw_of src f raw')) ->
  validate_fields src fs raw = validate_fields src fs raw'.
Proof.
  induction fs as [|f fs IH]; intros H; [reflexivity|].
  cbn [validate_fields]. rewrite IH by (intros g Hg; apply H; now right).
  now rewrite (H f (or_introl eq_refl)).
Qed.

Lemma validate_ext ps req req' :
  (forall p, In p ps -> validate_param p req = validate_param p req') ->
  validate ps req = validate ps req'.
Proof.
  induction ps as [|p ps IH]; intros H; [reflexivity|].
  cbn [validate]. rewrite IH by (intros q Hq; apply H; now right).
  now rewrite (H p (or_introl eq_refl)).
Qed.

(** *** Re-validation, entry by entry *)

Lemma wire_keys_own (src : FastAPI.source) ps p :
  NoDup (wire_keys src ps) -> In p ps -> param_source p = src ->
  NoDup (map wire_name (param_fields p)).
Proof.
  induction ps as [|q ps IH]; intros Hn Hin Hs; [destruct Hin|].
  rewrite wire_keys_cons in Hn. destruct Hin as [->|Hin].
  - rewrite Hs, source_eqb_refl in Hn. now apply NoDup_app_remove_r in Hn.
  - apply IH; [|exact Hin|exact Hs]. now apply NoDup_app_remove_l in Hn.
Qed.

(** What the validator reads for a field in the request sent back is what
    the field's own typed value sends. *)
Lemma reads_back ps kwargs p d f v :
  NoDup (wire_keys (param_source p) ps) ->
  In p ps -> In f (param_fields p) ->
  param_dict p kwargs = Some d -> dict_get (f_name f) d = Some v ->
  raw_of (param_source p) f (sent_on (param_source p) ps kwargs)
  = raw_of (param_source p) f (send (param_source p) f v).
Proof.
  intros Hn Hp Hf Hd Hv. apply raw_of_ext.
  rewrite (values_of_sent_on _ ps kwargs p); try assumption;
    [|reflexivity|now apply in_map].
  rewrite send_param_fields, Hd.
  rewrite values_of_send_fields_in; [|now apply wire_keys_own with (param_source p) ps|exact Hf].
  unfold field_sends. now rewrite Hv.
Qed.

Lemma has_body_in ps p :
  In p ps -> param_source p = Body -> has_body ps = true.
Proof.
  intros Hin Hs. apply existsb_exists. exists p. split; [exact Hin|].
  now rewrite Hs.
Qed.

Lemma pairs_of_reify ps kwargs p :
  In p ps ->
  pairs_of (param_source p) (reify ps kwargs)
  = sent_on (param_source p) ps kwargs.
Proof.
  intros Hin. destruct (param_source p) eqn:Es; try reflexivity.
  unfold reify. cbn [pairs_of body].
  now rewrite (has_body_in ps p Hin Es).
Qed.

Lemma body_reify ps kwargs p :
  In p ps -> param_source p = Body ->
  body (reify ps kwargs) = Some (VDict (sent_on Body ps kwargs)).
Proof.
  intros Hin Es. unfold reify. cbn [body].
  now rewrite (has_body_in ps p Hin Es).
Qed.

Lemma revalidate_param ps req kwargs p :
  schema_ok ps -> validate ps req = ([], kwargs) -> In p ps ->
  validate_param p (reify ps kwargs) = validate_param p req.
Proof.
  intros [Hok [Hnames Hkeys]] Hv Hin.
  destruct (validate_lookup _ _ _ _ Hv Hnames Hin) as [x [Hp Hd]].
  rewrite Hp.
  pose proof (proj1 (Forall_forall _ _) Hok p Hin) as [Hfs [Hfn Hst]].
  pose proof (pairs_of_reify ps kwargs p Hin) as Hpairs.
  destruct p as [src f|src name m]; cbn [param_source param_fields param_name] in *.
  - cbn [validate_param] in *.
    destruct (validate_field f (raw_of src f (pairs_of src req))) as [e|v] eqn:E;
      [discriminate Hp|].
    injection Hp as <-.
    rewrite Hpairs.
    pose proof (reads_back ps kwargs (PField src f) kwargs f v
                  (Hkeys src) Hin (or_introl eq_refl) eq_refl Hd) as R.
    cbn [param_source] in R. rewrite R.
    apply Forall_inv in Hfs.
    now rewrite (field_resend src f _ v Hfs E).
  - assert (G : forall raw vals,
               validate_fields src (m_fields m) raw = ([], vals) ->
               x = VDict vals ->
               validate_group src m (sent_on src ps kwargs) = ([], vals)).
    { intros raw vals Hf ->. unfold validate_group, unexpected.
      rewrite Hst.
      rewrite (validate_fields_ext src (m_fields m) _ raw); [now rewrite Hf|].
      intros f Hfin.
      destruct (validate_fields_lookup src _ raw vals f Hf Hfn Hfin)
        as [v [Hfv Hvd]].
      assert (D : param_dict (PGroup src name m) kwargs = Some vals)
        by (cbn [param_dict]; now rewrite Hd).
      pose proof (reads_back ps kwargs (PGroup src name m) vals f v
                    (Hkeys src) Hin Hfin D Hvd) as R.
      cbn [param_source] in R. rewrite R, Hfv.
      apply field_resend with raw; [|exact Hfv].
      exact (proj1 (Forall_forall _ _) Hfs f Hfin). }
    assert (G' : forall raw,
               (let (errs, vals) := validate_group src m raw in
                (errs, [(name, VDict vals)])) = ([], [(name, x)]) ->
               exists vals, validate_fields src (m_fields m) raw = ([], vals)
                            /\ x = VDict vals).
    { intros raw. unfold validate_group, unexpected. rewrite Hst.
      destruct (validate_fields src (m_fields m) raw) as [errs vals].
      rewrite app_nil_r. intros H. injection H as -> <-.
      exists vals. split; reflexivity. }
    cbn [validate_param] in *.
    destruct src.
    + apply G' in Hp as [vals [Hf Hx]]. rewrite Hpairs.
      now rewrite (G _ _ Hf Hx), Hx.
    + apply G' in Hp as [vals [Hf Hx]]. rewrite Hpairs.
      now rewrite (G _ _ Hf Hx), Hx.
    + apply G' in Hp as [vals [Hf Hx]]. rewrite Hpairs.
      now rewrite (G _ _ Hf Hx), Hx.
    + apply G' in Hp as [vals [Hf Hx]]. rewrite Hpairs.
      now rewrite (G _ _ Hf Hx), Hx.
    + rewrite (body_reify ps kwargs (PGroup Body name m) Hin eq_refl).
      destruct (body req) as [[| | | | | | | | | |d]|]; try discriminate Hp.
      apply G' in Hp as [vals [Hf Hx]].
      now rewrite (G _ _ Hf Hx), Hx.
Qed.

(** A schema that can be sent back re-validates to the same typed values. *)
Lemma revalidate ps req kwargs :
  schema_ok ps ->
  validate_request ps req = Validated kwargs ->
  validate_request ps (reify ps kwargs) = Validated kwargs.
Proof.
  intros Hok H. apply validate_request_Validated in H.
  apply validate_request_Validated. rewrite <- H.
  apply validate_ext. intros p Hin. now apply revalidate_param.
Qed.

(** *** The schemas of [main.py] *)

Lemma no_spaces_is_filter : is_filter no_spaces.
Proof.
  intros v w H. unfold no_spaces in H.
  destruct v as [| | | |s| | | | | |]; try discriminate H.
  destruct (str_contains " " s); [discriminate H|]. now injection H as <-.
Qed.

Ltac distinct_names :=
  cbn; repeat (constructor; [cbn; intuition discriminate|]); constructor.

Ltac field_is_ok :=
  split;
  [ repeat (constructor; [exact no_spaces_is_filter|]); constructor
  | let d := fresh "d" in let E := fresh "E" in
    intros d E; cbn [f_default] in E;
    first [discriminate E | injection E as <-; reflexivity] ].

Ltac param_is_ok :=
  split;
  [ cbn [param_fields m_fields];
    repeat (constructor; [field_is_ok|]); constructor
  | split; [distinct_names | exact I || reflexivity] ].

Ltac schema_is_ok :=
  split;
  [ repeat (constructor; [param_is_ok|]); constructor
  | split;
    [ distinct_names
    | let src := fresh "src" in intros src; destruct src; distinct_names ] ].

Lemma app_schemas_ok : Forall schema_ok (map r_params app).
Proof.
  let l := eval lazy -[no_spaces] in (map r_params app) in
  change (map r_params app) with l.
  repeat (constructor; [schema_is_ok|]). constructor.
Qed.

(** C9.  For every route of the application and every raw request that
    validates, sending the typed values of the validated request back
    through the same schema validates again and yields the same typed
    values. *)
Theorem revalidation_is_idempotent r req kwargs :
  In r app ->
  validate_request (r_params r) req = Validated kwargs ->
  validate_request (r_params r) (reify (r_params r) kwargs)
  = Validated kwargs.
Proof.
  intros Hin. apply revalidate.
  pose proof (proj1 (Forall_forall schema_ok (map r_params app))
                    app_schemas_ok) as Hok.
  apply Hok. apply in_map. exact Hin.
Qed.

(** GET /items-filter/?limit=5&tags=a&tags=b, validated and sent back. *)
Lemma revalidation_is_idempotent_witness :
  let r := mk_route GET "/items-filter/" "read_items"
                    [PGroup Query "filter_query" FilterParams] read_items in
  let kwargs := [("filter_query",
                  VDict [("limit", VInt 5); ("offset", VInt 0);
                         ("order_by", VStr "created_at");
                         ("tags", VList [VStr "a"; VStr "b"])])] in
  validate_request (r_params r) (reify (r_params r) kwargs)
  = Validated kwargs.
Proof.
  intros r kwargs.
  apply (revalidation_is_idempotent r
           (mk_request []
              [("limit", VStr "5"); ("tags", VStr "a"); ("tags", VStr "b")]
              [] [] None)
           kwargs).
  - exact (proj1 (find_some _ _ route_items_filter)).
  - reflexivity.
Defined.

(** ** The cookie group of GET /items/ *)

(** C2.  The route GET /items/ is registered while [Cookies] still names
    the first class of line 207, which ignores undeclared cookies; the
    class of line 226 that forbids them is bound to the name afterwards and
    reaches no route.  A request with [session_id] and an undeclared cookie
    is therefore accepted and handed to the handler, where the strict class
    would have answered with an [UnexpectedFieldError]. *)
Theorem items_cookie_route_ignores_extra_cookies :
  let req := mk_request [] [] []
               [("session_id", VStr "abc"); ("tracker", VStr "1")] None in
  let cookies := VDict [("session_id", VStr "abc");
                        ("fatebook_tracker", VNone);
                        ("googall_tracker", VNone)] in
  lookup app GET "/items/"
    = Some (mk_route GET "/items/" "read_items"
                     [PGroup Cookie "cookies" Cookies] read_items')
  /\ m_extra_forbid Cookies = false
  /\ dispatch app GET "/items/" req
     = mk_outcome (OK cookies) [[("cookies", cookies)]]
  /\ validate_request [PGroup Cookie "cookies" Cookies'] req
     = Invalid [mk_error Cookie "tracker" UnexpectedFieldError].
Proof. repeat split. Qed.


(* ===================================================================== *)
(** * Further properties of [main.py]                                     *)
(* ===================================================================== *)

(** ** Handlers on validated input *)















(** ** PUT /process/{item_id}: when it answers and when it raises *)

Lemma process_item_kwargs req kwargs :
  validate_request (schema PUT "/process/{item_id}") req = Validated kwargs ->
  exists item_id s e pa repeat_at,
    kwargs = [("item_id", VUuid item_id);
              ("start_datetime", VDatetime s);
              ("end_datetime", VDatetime e);
              ("process_after", VTimedelta pa);
              ("repeat_at", repeat_at)]
    /\ datetime_ok s = true /\ datetime_ok e = true.
Proof.
  intros H.
  rewrite (schema_of_route _ _ _ route_process_item) in H. cbn [r_params] in H.
  apply validate_request_field in H as [v1 [ks1 [H1 [H ->]]]].
  apply validate_request_field in H as [v2 [ks2 [H2 [H ->]]]].
  apply validate_request_field in H as [v3 [ks3 [H3 [H ->]]]].
  apply validate_request_field in H as [v4 [ks4 [H4 [H ->]]]].
  apply validate_request_field in H as [v5 [ks5 [H5 [H ->]]]].
  apply validate_request_nil in H as ->.
  apply validate_field_plain_inr in H1 as [[_ H1]|[r1 [_ H1]]];
    [discriminate H1|].
  apply validate_field_plain_inr in H2 as [[_ H2]|[r2 [_ H2]]];
    [discriminate H2|].
  apply validate_field_plain_inr in H3 as [[_ H3]|[r3 [_ H3]]];
    [discriminate H3|].
  apply validate_field_plain_inr in H4 as [[_ H4]|[r4 [_ H4]]];
    [discriminate H4|].
  apply coerce_has_type in H1 as [u ->].
  apply coerce_has_type in H2 as [s [-> Hs]].
  apply coerce_has_type in H3 as [e [-> He]].
  apply coerce_has_type in H4 as [pa [-> Hpa]].
  exists u, s, e, pa, v5. auto.
Qed.

(** X2.  On a valid request, [process_item] answers exactly when
    [start_datetime + process_after] is a representable datetime and the two
    datetimes are both naive or both aware.  Beyond the range the addition
    raises [OverflowError]; within it, a naive datetime met with an aware
    one makes the subtraction raise [TypeError].  Either way the handler was
    invoked and the response is a server error. *)
Theorem process_item_outcome req kwargs :
  validate_request (schema PUT "/process/{item_id}") req = Validated kwargs ->
  exists s e pa,
    dict_get "start_datetime" kwargs = Some (VDatetime s)
    /\ dict_get "end_datetime" kwargs = Some (VDatetime e)
    /\ dict_get "process_after" kwargs = Some (VTimedelta pa)
    /\ let out := dispatch app PUT "/process/{item_id}" req in
       handler_calls out = [kwargs]
       /\ ((exists v, sent out = OK v)
           <-> datetime_in_range (dt_us s + pa) = true
               /\ (dt_tz s = None <-> dt_tz e = None))
       /\ (datetime_in_range (dt_us s + pa) = false ->
           sent out
           = InternalServerError (OverflowError "date value out of range"))
       /\ (datetime_in_range (dt_us s + pa) = true ->
           ~ (dt_tz s = None <-> dt_tz e = None) ->
           sent out
           = InternalServerError
               (TypeError
                  "can't subtract offset-naive and offset-aware datetimes")).
Proof.
  intros Hv.
  destruct (process_item_kwargs req kwargs Hv)
    as [u [s [e [pa [ra [-> [Hs He]]]]]]].
  exists s, e, pa. split; [reflexivity|]. split; [reflexivity|].
  split; [reflexivity|].
  rewrite (dispatch_valid _ _ _ _ _ route_process_item Hv).
  cbn [r_handler sent handler_calls]. rewrite process_item_eval.
  split; [reflexivity|].
  assert (Ha : add (VDatetime s) (VTimedelta pa)
               = if datetime_in_range (dt_us s + pa)
                 then Return (VDatetime (mk_datetime (dt_us s + pa) (dt_tz s)))
                 else Raise (OverflowError "date value out of range"))
    by reflexivity.
  rewrite Ha.
  destruct (datetime_in_range (dt_us s + pa)) eqn:R; cbn [bind].
  - assert (Hsp : datetime_ok (mk_datetime (dt_us s + pa) (dt_tz s)) = true).
    { unfold datetime_ok in *. cbn [dt_us dt_tz]. rewrite R.
      apply andb_true_iff in Hs as [_ Hs]. exact Hs. }
    destruct (dt_tz s) as [os|] eqn:Zs, (dt_tz e) as [oe|] eqn:Ze.
    + assert (Hz : dt_tz e = None
                   <-> dt_tz (mk_datetime (dt_us s + pa) (Some os)) = None)
        by (cbn [dt_tz]; rewrite Ze; split; intros E; discriminate E).
      cbn [sub]. rewrite (datetime_diff_in_range _ _ He Hsp Hz). cbn [bind].
      split; [|split].
      * split; [intros _; split; [reflexivity|]|eauto].
        split; intros E; discriminate E.
      * intros E. discriminate E.
      * intros _ N. elim N. split; intros E; discriminate E.
    + cbn [sub]. unfold datetime_diff. cbn [dt_tz]. rewrite Ze. cbn [bind].
      split; [|split].
      * split; [intros [v E]; discriminate E|].
        intros [_ [_ E]]. discriminate (E eq_refl).
      * intros E. discriminate E.
      * reflexivity.
    + cbn [sub]. unfold datetime_diff. cbn [dt_tz]. rewrite Ze. cbn [bind].
      split; [|split].
      * split; [intros [v E]; discriminate E|].
        intros [_ [E _]]. discriminate (E eq_refl).
      * intros E. discriminate E.
      * reflexivity.
    + assert (Hz : dt_tz e = None
                   <-> dt_tz (mk_datetime (dt_us s + pa) None) = None)
        by (cbn [dt_tz]; rewrite Ze; tauto).
      cbn [sub]. rewrite (datetime_diff_in_range _ _ He Hsp Hz). cbn [bind].
      split; [|split].
      * split; [intros _; split; [reflexivity|tauto]|eauto].
      * intros E. discriminate E.
      * intros _ N. elim N. tauto.
  - split; [|split].
    + split; [intros [v E]; discriminate E|].
      intros [E _]. discriminate E.
    + reflexivity.
    + intros E. discriminate E.
Qed.

(** A naive start and an aware end: the handler is invoked and raises. *)
Lemma process_item_outcome_witness :
  let req := mk_request
               [("item_id", VStr "123e4567-e89b-12d3-a456-426614174000")]
               [] [] []
               (Some (VDict [("start_datetime", VStr "2024-01-01T00:00:00");
                             ("end_datetime", VStr "2024-01-02T00:00:00Z");
                             ("process_after", VInt 60)])) in
  exists kwargs,
    validate_request (schema PUT "/process/{item_id}") req = Validated kwargs
    /\ handler_calls (dispatch app PUT "/process/{item_id}" req) = [kwargs].
Proof.
  intros req. eexists. split; [reflexivity|].
  destruct (process_item_outcome req _ eq_refl)
    as [s [e [pa [_ [_ [_ [Hc _]]]]]]].
  exact Hc.
Defined.

(** ** Registration *)


Lemma route_items_cookies :
  lookup app GET "/items/"
  = Some (mk_route GET "/items/" "read_items"
            [PGroup Cookie "cookies" Cookies] read_items').
Proof. reflexivity. Qed.


(** ** Routes with a single field *)

Lemma single_field_request (src : FastAPI.source) f req :
  validate_request [PField src f] req
  = match validate_field f (raw_of src f (pairs_of src req)) with
    | inl k => Invalid [mk_error src (f_name f) k]
    | inr v => Validated [(f_name f, v)]
    end.
Proof.
  unfold validate_request. cbn [validate validate_param].
  now destruct (validate_field f (raw_of src f (pairs_of src req))).
Qed.

(** ** GET /models/{model_name} *)

Lemma route_get_model :
  lookup app GET "/models/{model_name}"
  = Some (mk_route GET "/models/{model_name}" "get_model"
            [PField Path
               (mk_field "model_name" (TEnum ["alexnet"; "resent"; "lenet"])
                         None no_info [])]
            get_model).
Proof. reflexivity. Qed.

(** X4.  GET /models/{model_name} accepts exactly the three members of
    [ModelName].  alexnet and lenet get their own message; the final
    [return] is reached for resent only, since every other value is
    rejected before the handler runs. *)
Theorem get_model_message req raw :
  path_arg "model_name" req = Some raw ->
  let out := dispatch app GET "/models/{model_name}" req in
  let answer message :=
    mk_outcome (OK (VDict [("model_name", raw); ("message", VStr message)]))
               [[("model_name", raw)]] in
  (raw = VStr "alexnet" -> out = answer "Deep Learning FTW!")
  /\ (raw = VStr "lenet" -> out = answer "LeCNN all the images")
  /\ (raw = VStr "resent" -> out = answer "Have some ridiculous")
  /\ (raw <> VStr "alexnet" -> raw <> VStr "lenet" -> raw <> VStr "resent" ->
      out = mk_outcome
              (UnprocessableEntity
                 [mk_error Path "model_name"
                    (InvalidEnumValueError ["alexnet"; "resent"; "lenet"])])
              []).
Proof.
  intros Hraw out answer. subst out answer.
  assert (E : validate_request (schema GET "/models/{model_name}") req
              = match coerce (TEnum ["alexnet"; "resent"; "lenet"]) raw with
                | inl k => Invalid [mk_error Path "model_name" k]
                | inr v => Validated [("model_name", v)]
                end).
  { rewrite (schema_of_route _ _ _ route_get_model). cbn [r_params].
    rewrite single_field_request.
    change (raw_of Path _ (pairs_of Path req)) with (path_arg "model_name" req).
    now rewrite Hraw, validate_field_plain. }
  split; [|split; [|split]].
  - intros ->.
    now rewrite (dispatch_valid _ _ _ _ _ route_get_model E).
  - intros ->.
    now rewrite (dispatch_valid _ _ _ _ _ route_get_model E).
  - intros ->.
    now rewrite (dispatch_valid _ _ _ _ _ route_get_model E).
  - intros N1 N2 N3.
    assert (C : coerce (TEnum ["alexnet"; "resent"; "lenet"]) raw
                = inl (InvalidEnumValueError ["alexnet"; "resent"; "lenet"])).
    { destruct raw as [| | | |s| | | | | |]; try reflexivity.
      cbn [coerce mem_str existsb].
      destruct (String.eqb_spec s "alexnet") as [->|_]; [now elim N1|].
      destruct (String.eqb_spec s "resent") as [->|_]; [now elim N3|].
      destruct (String.eqb_spec s "lenet") as [->|_]; [now elim N2|].
      reflexivity. }
    rewrite C in E.
    now rewrite (dispatch_invalid _ _ _ _ _ route_get_model E).
Qed.

(** GET /models/resent *)
Lemma get_model_message_witness :
  dispatch app GET "/models/{model_name}"
    (mk_request [("model_name", VStr "resent")] [] [] [] None)
  = mk_outcome
      (OK (VDict [("model_name", VStr "resent");
                  ("message", VStr "Have some ridiculous")]))
      [[("model_name", VStr "resent")]].
Proof.
  exact (proj1 (proj2 (proj2 (get_model_message
           (mk_request [("model_name", VStr "resent")] [] [] [] None)
           (VStr "resent") eq_refl))) eq_refl).
Defined.

(** ** GET /usernames/ and GET /search/ *)










(** ** GET /products/ *)

Lemma pattern_nil s : pattern_matches [] s = true <-> s = "".
Proof.
  destruct s; cbn [pattern_matches]; split; intros H;
    (reflexivity || discriminate H).
Qed.

Lemma pattern_cons cc p s :
  pattern_matches (cc :: p) s = true <->
  exists c s', s = String c s' /\ class_matches cc c = true
               /\ pattern_matches p s' = true.
Proof.
  destruct s as [|c s]; cbn [pattern_matches].
  - split; [intros H; discriminate H | intros [c [s' [H _]]]; discriminate H].
  - rewrite andb_true_iff. split.
    + intros [H1 H2]. exists c, s. auto.
    + intros [c' [s' [E [H1 H2]]]]. injection E as -> ->. auto.
Qed.

Lemma lit_matches x c : class_matches (Lit x) c = true <-> c = x.
Proof.
  cbn [class_matches]. rewrite Ascii.eqb_eq. split; intros H; now symmetry.
Qed.

Lemma range_matches lo hi c :
  class_matches (Range lo hi) c = true <->
  (N_of_ascii lo <= N_of_ascii c <= N_of_ascii hi)%N.
Proof.
  cbn [class_matches]. now rewrite andb_true_iff, !N.leb_le.
Qed.

(** The pattern of [get_product] reads: PROD- and four decimal digits,
    nothing before and nothing after. *)
Lemma product_code_pattern_reads s :
  let is_digit c := (N_of_ascii "0" <= N_of_ascii c <= N_of_ascii "9")%N in
  pattern_matches product_code_pattern s = true <->
  exists a b c d,
    s = "PROD-" ++ String a (String b (String c (String d "")))
    /\ is_digit a /\ is_digit b /\ is_digit c /\ is_digit d.
Proof.
  intros is_digit. unfold product_code_pattern, is_digit. split.
  - intros H.
    repeat (apply pattern_cons in H as [? [? [-> [? H]]]]).
    apply pattern_nil in H as ->.
    repeat match goal with
           | H : class_matches (Lit _) _ = true |- _ =>
               apply lit_matches in H; subst
           | H : class_matches (Range _ _) _ = true |- _ =>
               apply range_matches in H
           end.
    eexists _, _, _, _. split; [reflexivity|]. auto.
  - intros [a [b [c [d [-> [Ha [Hb [Hc Hd]]]]]]]].
    cbn [append].
    repeat (apply pattern_cons; eexists _, _; split; [reflexivity|];
            split; [first [now apply lit_matches | now apply range_matches]|]).
    now apply pattern_nil.
Qed.

Lemma route_get_product :
  lookup app GET "/products/"
  = Some (mk_route GET "/products/" "get_product"
            [PField Query
               (mk_field "code" TStr None
                  (with_pattern product_code_pattern no_info) [])]
            get_product).
Proof. reflexivity. Qed.

Lemma code_field s :
  validate_field
    (mk_field "code" TStr None (with_pattern product_code_pattern no_info) [])
    (Some (VStr s))
  = if pattern_matches product_code_pattern s
    then inr (VStr s)
    else inl (ConstraintViolationError PatternMismatch).
Proof.
  cbn [validate_field]. unfold validate_value.
  cbn [f_type coerce is_none f_info f_after run_after].
  change (in_range (with_pattern product_code_pattern no_info) (VStr s))
    with true.
  change (in_length (with_pattern product_code_pattern no_info) (VStr s))
    with true.
  change (in_pattern (with_pattern product_code_pattern no_info) (VStr s))
    with (pattern_matches product_code_pattern s).
  cbn [negb]. now destruct (pattern_matches product_code_pattern s).
Qed.

(** X7.  GET /products/ accepts a code exactly when it is PROD- followed by
    four decimal digits, with nothing before or after, and then echoes it;
    any other string is a pattern violation and the handler is not
    invoked. *)
Theorem get_product_code req s :
  query_arg "code" req = Some (VStr s) ->
  let is_digit c := (N_of_ascii "0" <= N_of_ascii c <= N_of_ascii "9")%N in
  let well_formed :=
    exists a b c d,
      s = "PROD-" ++ String a (String b (String c (String d "")))
      /\ is_digit a /\ is_digit b /\ is_digit c /\ is_digit d in
  let out := dispatch app GET "/products/" req in
  (well_formed ->
   out = mk_outcome (OK (VDict [("code", VStr s)])) [[("code", VStr s)]])
  /\ (~ well_formed ->
      out = mk_outcome
              (UnprocessableEntity
                 [mk_error Query "code"
                    (ConstraintViolationError PatternMismatch)])
              []).
Proof.
  intros Hq is_digit well_formed out. subst out.
  assert (E : validate_request (schema GET "/products/") req
              = if pattern_matches product_code_pattern s
                then Validated [("code", VStr s)]
                else Invalid [mk_error Query "code"
                                (ConstraintViolationError PatternMismatch)]).
  { rewrite (schema_of_route _ _ _ route_get_product). cbn [r_params].
    rewrite single_field_request.
    change (raw_of Query _ (pairs_of Query req)) with (query_arg "code" req).
    rewrite Hq, code_field.
    now destruct (pattern_matches product_code_pattern s). }
  pose proof (product_code_pattern_reads s) as P. cbv zeta in P.
  fold is_digit in P. fold well_formed in P.
  destruct (pattern_matches product_code_pattern s).
  - split.
    + intros _. now rewrite (dispatch_valid _ _ _ _ _ route_get_product E).
    + intros N. elim N. now apply P.
  - split.
    + intros W. apply P in W. discriminate W.
    + intros _. now rewrite (dispatch_invalid _ _ _ _ _ route_get_product E).
Qed.

(** GET /products/?code=PROD-0042 *)
Lemma get_product_code_witness :
  dispatch app GET "/products/"
    (mk_request [] [("code", VStr "PROD-0042")] [] [] None)
  = mk_outcome (OK (VDict [("code", VStr "PROD-0042")]))
               [[("code", VStr "PROD-0042")]].
Proof.
  apply (proj1 (get_product_code
                  (mk_request [] [("code", VStr "PROD-0042")] [] [] None)
                  "PROD-0042" eq_refl)).
  exists "0"%char, "0"%char, "4"%char, "2"%char.
  split; [reflexivity|]. cbn. lia.
Defined.

(** ** GET /products/{product_id} *)

Lemma route_get_product_by_id :
  lookup app GET "/products/{product_id}"
  = Some (mk_route GET "/products/{product_id}" "get_product_by_id"
            [PField Path
               (mk_field "product_id" TInt None
                  (with_ge (VInt 1) (with_le (VInt 1000) no_info)) [])]
            get_product_by_id).
Proof. reflexivity. Qed.

Lemma product_id_field raw :
  validate_field
    (mk_field "product_id" TInt None
              (with_ge (VInt 1) (with_le (VInt 1000) no_info)) [])
    (Some raw)
  = match coerce TInt raw with
    | inr (VInt n) =>
        if (1 <=? n) && (n <=? 1000) then inr (VInt n)
        else inl (ConstraintViolationError NumericRange)
    | inr v => inr v
    | inl k => inl k
    end.
Proof.
  cbn [validate_field]. unfold validate_value. cbn [f_type f_info f_after].
  destruct (coerce TInt raw) as [k|v] eqn:C; [reflexivity|].
  apply coerce_has_type in C as [n ->]. cbn [is_none run_after].
  rewrite get_size_in_range_int.
  now destruct ((1 <=? n) && (n <=? 1000)).
Qed.

(** X8.  GET /products/{product_id} accepts a path segment exactly when it
    is an integer between 1 and 1000, both ends included, and echoes it as
    an integer.  An integer outside the range is a range violation, a
    segment that is not an integer a coercion error; in both cases the
    handler is not invoked. *)
Theorem get_product_by_id_range req raw :
  path_arg "product_id" req = Some raw ->
  let out := dispatch app GET "/products/{product_id}" req in
  (forall n, coerce TInt raw = inr (VInt n) -> 1 <= n <= 1000 ->
             out = mk_outcome (OK (VDict [("product_id", VInt n)]))
                              [[("product_id", VInt n)]])
  /\ (forall n, coerce TInt raw = inr (VInt n) -> ~ 1 <= n <= 1000 ->
                out = mk_outcome
                        (UnprocessableEntity
                           [mk_error Path "product_id"
                              (ConstraintViolationError NumericRange)])
                        [])
  /\ (forall k, coerce TInt raw = inl k ->
                out = mk_outcome
                        (UnprocessableEntity [mk_error Path "product_id" k])
                        []).
Proof.
  intros Hp out. subst out.
  assert (E : validate_request (schema GET "/products/{product_id}") req
              = match validate_field
                        (mk_field "product_id" TInt None
                           (with_ge (VInt 1) (with_le (VInt 1000) no_info)) [])
                        (Some raw) with
                | inl k => Invalid [mk_error Path "product_id" k]
                | inr v => Validated [("product_id", v)]
                end).
  { rewrite (schema_of_route _ _ _ route_get_product_by_id). cbn [r_params].
    rewrite single_field_request.
    change (raw_of Path _ (pairs_of Path req))
      with (path_arg "product_id" req).
    now rewrite Hp. }
  rewrite product_id_field in E.
  split; [|split].
  - intros n C [L U]. rewrite C in E.
    apply Z.leb_le in L, U. rewrite L, U in E.
    now rewrite (dispatch_valid _ _ _ _ _ route_get_product_by_id E).
  - intros n C N. rewrite C in E.
    destruct ((1 <=? n) && (n <=? 1000)) eqn:B.
    + elim N. apply andb_true_iff in B as [L U].
      apply Z.leb_le in L, U. now split.
    + now rewrite (dispatch_invalid _ _ _ _ _ route_get_product_by_id E).
  - intros k C. rewrite C in E.
    now rewrite (dispatch_invalid _ _ _ _ _ route_get_product_by_id E).
Qed.

(** GET /products/1000 is served, GET /products/1001 is not. *)
Lemma get_product_by_id_range_witness :
  dispatch app GET "/products/{product_id}"
    (mk_request [("product_id", VStr "1000")] [] [] [] None)
  = mk_outcome (OK (VDict [("product_id", VInt 1000)]))
               [[("product_id", VInt 1000)]]
  /\ dispatch app GET "/products/{product_id}"
       (mk_request [("product_id", VStr "1001")] [] [] [] None)
     = mk_outcome
         (UnprocessableEntity
            [mk_error Path "product_id"
               (ConstraintViolationError NumericRange)])
         [].
Proof.
  split.
  - apply (proj1 (get_product_by_id_range
                    (mk_request [("product_id", VStr "1000")] [] [] [] None)
                    (VStr "1000") eq_refl) 1000 eq_refl).
    lia.
  - apply (proj1 (proj2 (get_product_by_id_range
                    (mk_request [("product_id", VStr "1001")] [] [] [] None)
                    (VStr "1001") eq_refl)) 1001 eq_refl).
    lia.
Defined.


(** ** Optional headers, cookies and query parameters *)

Lemma optional_str_supplied name a s :
  validate_field
    (mk_field name (TOptional TStr) (Some VNone)
              (mk_info a None None None None None None None) [])
    (Some (VStr s))
  = inr (VStr s).
Proof. reflexivity. Qed.




Lemma route_read_multi_header :
  lookup app GET "/multi-header/"
  = Some (mk_route GET "/multi-header/" "read_multi_header"
            [PField Header
               (mk_field "x_token" (TOptional (TList TStr)) (Some VNone)
                         (with_alias "x-token" no_info) [])]
            read_multi_header).
Proof. reflexivity. Qed.

Lemma x_token_field x xs :
  (forall r, In r (x :: xs) -> exists s, r = VStr s) ->
  validate_field
    (mk_field "x_token" (TOptional (TList TStr)) (Some VNone)
              (with_alias "x-token" no_info) [])
    (Some (VList (x :: xs)))
  = inr (VList (x :: xs)).
Proof.
  intros H. cbn [validate_field]. apply validate_value_inr.
  exists (VList (x :: xs)). split; [|repeat split].
  cbn [f_type].
  change (coerce (TOptional (TList TStr)) (VList (x :: xs)))
    with (coerce (TList TStr) (VList (x :: xs))).
  rewrite coerce_list.
  now rewrite (proj2 (coerce_all_str (x :: xs) (x :: xs)) (conj eq_refl H)).
Qed.

(** X10.  GET /multi-header/ collects every repetition of the header
    [x-token], in arrival order, into one list answered under
    [X-Token values]; without any [x-token] header the value is null. *)
Theorem read_multi_header_collects req :
  let out := dispatch app GET "/multi-header/" req in
  let tokens := values_of "x-token" (headers req) in
  (tokens = [] ->
   out = mk_outcome (OK (VDict [("X-Token values", VNone)]))
                    [[("x_token", VNone)]])
  /\ (tokens <> [] ->
      (forall r, In r tokens -> exists s, r = VStr s) ->
      out = mk_outcome (OK (VDict [("X-Token values", VList tokens)]))
                       [[("x_token", VList tokens)]]).
Proof.
  intros out tokens. subst out.
  assert (E : validate_request (schema GET "/multi-header/") req
              = match validate_field
                        (mk_field "x_token" (TOptional (TList TStr))
                           (Some VNone) (with_alias "x-token" no_info) [])
                        match tokens with
                        | [] => None
                        | _ => Some (VList tokens)
                        end with
                | inl k => Invalid [mk_error Header "x_token" k]
                | inr v => Validated [("x_token", v)]
                end).
  { rewrite (schema_of_route _ _ _ route_read_multi_header). cbn [r_params].
    rewrite single_field_request. subst tokens.
    unfold raw_of.
    cbn [multi_valued f_type is_list_type andb wire_name f_info alias
         with_alias pairs_of].
    now destruct (values_of "x-token" (headers req)). }
  split.
  - intros H. rewrite H in E. cbn [validate_field f_default] in E.
    now rewrite (dispatch_valid _ _ _ _ _ route_read_multi_header E).
  - intros N H. destruct tokens as [|x xs]; [now elim N|].
    rewrite (x_token_field x xs H) in E.
    now rewrite (dispatch_valid _ _ _ _ _ route_read_multi_header E).
Qed.

(** Two x-token headers around another header. *)
Lemma read_multi_header_collects_witness :
  dispatch app GET "/multi-header/"
    (mk_request [] []
       [("x-token", VStr "a"); ("accept", VStr "*/*"); ("x-token", VStr "b")]
       [] None)
  = mk_outcome
      (OK (VDict [("X-Token values", VList [VStr "a"; VStr "b"])]))
      [[("x_token", VList [VStr "a"; VStr "b"])]].
Proof.
  apply (proj2 (read_multi_header_collects
                  (mk_request [] []
                     [("x-token", VStr "a"); ("accept", VStr "*/*");
                      ("x-token", VStr "b")] [] None))).
  - intros E. discriminate E.
  - intros r [<-|[<-|[]]]; eexists; reflexivity.
Defined.

Lemma route_read_cookie :
  lookup app GET "/cookie/"
  = Some (mk_route GET "/cookie/" "read_cookie"
            [PField Cookie
               (mk_field "ads_id" (TOptional TStr) (Some VNone) no_info [])]
            read_cookie).
Proof. reflexivity. Qed.

(** X11.  GET /cookie/ never rejects a request: it echoes the cookie
    [ads_id] when the request carries one, the last if several, and
    answers null when it carries none. *)
Theorem read_cookie_optional req :
  let out := dispatch app GET "/cookie/" req in
  (last_value "ads_id" (cookies req) = None ->
   out = mk_outcome (OK (VDict [("ads_id", VNone)])) [[("ads_id", VNone)]])
  /\ (forall s,
         last_value "ads_id" (cookies req) = Some (VStr s) ->
         out = mk_outcome (OK (VDict [("ads_id", VStr s)]))
                          [[("ads_id", VStr s)]]).
Proof.
  intros out. subst out.
  assert (E : validate_request (schema GET "/cookie/") req
              = match validate_field
                        (mk_field "ads_id" (TOptional TStr) (Some VNone)
                           (mk_info None None None None None None None None)
                           [])
                        (last_value "ads_id" (cookies req)) with
                | inl k => Invalid [mk_error Cookie "ads_id" k]
                | inr v => Validated [("ads_id", v)]
                end).
  { rewrite (schema_of_route _ _ _ route_read_cookie). cbn [r_params].
    now rewrite single_field_request. }
  split.
  - intros H. rewrite H in E. cbn [validate_field f_default] in E.
    now rewrite (dispatch_valid _ _ _ _ _ route_read_cookie E).
  - intros s H. rewrite H, optional_str_supplied in E.
    now rewrite (dispatch_valid _ _ _ _ _ route_read_cookie E).
Qed.

(** A request with two ads_id cookies. *)
Lemma read_cookie_optional_witness :
  dispatch app GET "/cookie/"
    (mk_request [] [] [] [("ads_id", VStr "a"); ("ads_id", VStr "b")] None)
  = mk_outcome (OK (VDict [("ads_id", VStr "b")])) [[("ads_id", VStr "b")]].
Proof.
  exact (proj2 (read_cookie_optional
                  (mk_request [] [] []
                     [("ads_id", VStr "a"); ("ads_id", VStr "b")] None))
               "b" eq_refl).
Defined.

Lemma route_deprecated_param :
  lookup app GET "/deprecated/"
  = Some (mk_route GET "/deprecated/" "deprecated_param"
            [PField Query
               (mk_field "old_param" (TOptional TStr) (Some VNone) no_info []);
             PField Query
               (mk_field "new_param" (TOptional TStr) (Some VNone) no_info [])]
            deprecated_param).
Proof. reflexivity. Qed.

(** X12.  GET /deprecated/ treats the deprecated [old_param] like
    [new_param]: each is optional, resolved on its own, and echoed as the
    string sent or as null.  No request is rejected over them. *)
Theorem deprecated_param_echoes req (o n : option string) :
  query_arg "old_param" req = option_map VStr o ->
  query_arg "new_param" req = option_map VStr n ->
  let val := fun x : option string =>
               match x with Some s => VStr s | None => VNone end in
  dispatch app GET "/deprecated/" req
  = mk_outcome (OK (VDict [("old_param", val o); ("new_param", val n)]))
               [[("old_param", val o); ("new_param", val n)]].
Proof.
  intros Ho Hn val.
  assert (F : forall name x,
             validate_field
               (mk_field name (TOptional TStr) (Some VNone) no_info [])
               (option_map VStr x) = inr (val x)).
  { intros name [s|]; reflexivity. }
  assert (E : validate_request (schema GET "/deprecated/") req
              = Validated [("old_param", val o); ("new_param", val n)]).
  { rewrite (schema_of_route _ _ _ route_deprecated_param). cbn [r_params].
    apply validate_request_field. exists (val o). eexists.
    split; [|split; [|reflexivity]].
    - change (raw_of Query _ (pairs_of Query req))
        with (query_arg "old_param" req).
      rewrite Ho. apply F.
    - apply validate_request_field. exists (val n). eexists.
      split; [|split; [|reflexivity]].
      + change (raw_of Query _ (pairs_of Query req))
          with (query_arg "new_param" req).
        rewrite Hn. apply F.
      + now apply validate_request_nil. }
  rewrite (dispatch_valid _ _ _ _ _ route_deprecated_param E).
  cbn [r_handler]. now destruct o, n.
Qed.

(** Only the deprecated parameter is sent. *)
Lemma deprecated_param_echoes_witness :
  dispatch app GET "/deprecated/"
    (mk_request [] [("old_param", VStr "x")] [] [] None)
  = mk_outcome (OK (VDict [("old_param", VStr "x"); ("new_param", VNone)]))
               [[("old_param", VStr "x"); ("new_param", VNone)]].
Proof.
  exact (deprecated_param_echoes
           (mk_request [] [("old_param", VStr "x")] [] [] None)
           (Some "x") None eq_refl eq_refl).
Defined.

(** ** What the parameter models hand to their handlers *)

(** X13.  Whatever GET /items-filter/ answers with respects the bounds
    of [FilterParams]: [limit] is an integer in (0, 100], [offset] a
    non-negative integer, [order_by] one of the two literals and [tags] the
    list of the strings sent under [tags], in the order sent.  The handler
    returns the model as it was validated. *)
Theorem read_items_within_bounds req kwargs :
  validate_request (schema GET "/items-filter/") req = Validated kwargs ->
  exists limit offset order_by,
    let filter_query :=
      VDict [("limit", VInt limit); ("offset", VInt offset);
             ("order_by", VStr order_by);
             ("tags", VList (values_of "tags" (query req)))] in
    dispatch app GET "/items-filter/" req
    = mk_outcome (OK filter_query) [[("filter_query", filter_query)]]
    /\ 0 < limit <= 100
    /\ 0 <= offset
    /\ (order_by = "created_at" \/ order_by = "updated_at")
    /\ Forall (fun t => exists s, t = VStr s) (values_of "tags" (query req)).
Proof.
  intros H. pose proof H as Hv. revert Hv.
  apply items_filter_valid in H.
  destruct H as [l [o [ob [Hl [Ho [Hob [Ht ->]]]]]]]. intros Hv.
  assert (L : exists n, l = VInt n /\ 0 < n <= 100).
  { apply limit_field_inr in Hl.
    destruct Hl as [[_ ->]|[r [n [_ [_ [Hn ->]]]]]]; eexists; split;
      try reflexivity; lia. }
  assert (O : exists n, o = VInt n /\ 0 <= n).
  { apply offset_field_inr in Ho.
    destruct Ho as [[_ ->]|[r [n [_ [_ [Hn ->]]]]]]; eexists; split;
      try reflexivity; lia. }
  assert (B : exists s, ob = VStr s /\ (s = "created_at" \/ s = "updated_at")).
  { apply order_by_field_inr in Hob.
    destruct Hob as [[_ ->]|[_ [->| ->]]]; eexists; split;
      try reflexivity; auto. }
  destruct L as [n [-> Hn]]. destruct O as [m [-> Hm]].
  destruct B as [s [-> Hs]].
  exists n, m, s. cbv zeta.
  split; [|split; [exact Hn|split; [exact Hm|split; [exact Hs|]]]].
  - now rewrite (dispatch_valid _ _ _ _ _ route_items_filter Hv).
  - apply Forall_forall. exact Ht.
Qed.

(** Two tags and a limit sent as text. *)
Lemma read_items_within_bounds_witness :
  exists limit offset order_by,
    let req := mk_request []
                 [("tags", VStr "a"); ("limit", VStr "7"); ("tags", VStr "b")]
                 [] [] None in
    let filter_query :=
      VDict [("limit", VInt limit); ("offset", VInt offset);
             ("order_by", VStr order_by);
             ("tags", VList (values_of "tags" (query req)))] in
    dispatch app GET "/items-filter/" req
    = mk_outcome (OK filter_query) [[("filter_query", filter_query)]]
    /\ 0 < limit <= 100
    /\ 0 <= offset
    /\ (order_by = "created_at" \/ order_by = "updated_at")
    /\ Forall (fun t => exists s, t = VStr s) (values_of "tags" (query req)).
Proof.
  apply (read_items_within_bounds
           (mk_request []
              [("tags", VStr "a"); ("limit", VStr "7"); ("tags", VStr "b")]
              [] [] None)
           [("filter_query",
             VDict [("limit", VInt 7); ("offset", VInt 0);
                    ("order_by", VStr "created_at");
                    ("tags", VList [VStr "a"; VStr "b"])])]).
  rewrite (schema_of_route _ _ _ route_items_filter). reflexivity.
Defined.

(** X14.  GET /items/ needs the cookie [session_id]: without it the
    request is rejected, the missing field reported, and the handler not
    called, whatever other cookies are sent.  A request that is accepted
    carries [session_id] as a string and is answered with exactly the three
    declared cookies, each tracker a string or null. *)
Theorem read_items_needs_session_id req :
  (last_value "session_id" (cookies req) = None ->
   exists errs,
     dispatch app GET "/items/" req = mk_outcome (UnprocessableEntity errs) []
     /\ In (mk_error Cookie "session_id" MissingFieldError) errs)
  /\ (forall kwargs,
         validate_request (schema GET "/items/") req = Validated kwargs ->
         exists sid fb gg,
           let cookies := VDict [("session_id", VStr sid);
                                 ("fatebook_tracker", fb);
                                 ("googall_tracker", gg)] in
           last_value "session_id" (FastAPI.cookies req) = Some (VStr sid)
           /\ (fb = VNone \/ exists s, fb = VStr s)
           /\ (gg = VNone \/ exists s, gg = VStr s)
           /\ dispatch app GET "/items/" req
              = mk_outcome (OK cookies) [[("cookies", cookies)]]).
Proof.
  split.
  - intros H.
    exists (fst (validate [PGroup Cookie "cookies" Cookies] req)).
    assert (M : In (mk_error Cookie "session_id" MissingFieldError)
                   (fst (validate [PGroup Cookie "cookies" Cookies] req))).
    { cbn [validate validate_param]. unfold validate_group.
      pose proof (fields_report_member Cookie (m_fields Cookies)
                    (pairs_of Cookie req) (attr "session_id" TStr)
                    MissingFieldError) as R.
      destruct (validate_fields Cookie (m_fields Cookies) (pairs_of Cookie req))
        as [errs vals].
      cbn [fst]. rewrite app_nil_r. apply in_or_app. left.
      apply R; [now left|].
      rewrite raw_of_single by reflexivity.
      change (last_value (wire_name (attr "session_id" TStr))
                         (pairs_of Cookie req))
        with (last_value "session_id" (cookies req)).
      now rewrite H. }
    split; [|exact M].
    unfold dispatch. rewrite route_items_cookies.
    exact (serve_invalid
             (mk_route GET "/items/" "read_items"
                       [PGroup Cookie "cookies" Cookies] read_items')
             req _ M).
  - intros kwargs H. pose proof H as Hv. revert Hv.
    rewrite (schema_of_route _ _ _ route_items_cookies) in H.
    cbn [r_params] in H.
    apply validate_request_open_group in H; [|discriminate|reflexivity].
    destruct H as [vals [H ->]]. unfold Cookies in H. cbn [m_fields] in H.
    apply validate_fields_cons in H. destruct H as [v1 [vs1 [H1 [H ->]]]].
    apply validate_fields_cons in H. destruct H as [v2 [vs2 [H2 [H ->]]]].
    apply validate_fields_cons in H. destruct H as [v3 [vs3 [H3 [H ->]]]].
    apply validate_fields_nil in H. subst vs3. intros Hv.
    rewrite raw_of_single in H1 by reflexivity.
    change (last_value (wire_name (attr "session_id" TStr))
                       (pairs_of Cookie req))
      with (last_value "session_id" (cookies req)) in H1.
    apply validate_field_plain_inr in H1.
    destruct H1 as [[_ D]|[r [Hr Hc]]]; [discriminate D|].
    assert (S : exists sid, r = VStr sid /\ v1 = VStr sid).
    { destruct r; try discriminate Hc. cbn [coerce] in Hc.
      injection Hc as <-. eauto. }
    destruct S as [sid [-> ->]].
    apply optional_str_field in H2. destruct H2 as [F2 _].
    apply optional_str_field in H3. destruct H3 as [F3 _].
    exists sid, v2, v3. cbv zeta. cbn [f_name attr attr_default].
    split; [exact Hr|]. split; [exact F2|]. split; [exact F3|].
    cbn [f_name attr attr_default] in Hv.
    now rewrite (dispatch_valid _ _ _ _ _ route_items_cookies Hv).
Qed.

(** Only a tracker is sent; then the session and a tracker. *)
Lemma read_items_needs_session_id_witness :
  (exists errs,
      dispatch app GET "/items/"
        (mk_request [] [] [] [("fatebook_tracker", VStr "t")] None)
      = mk_outcome (UnprocessableEntity errs) []
      /\ In (mk_error Cookie "session_id" MissingFieldError) errs)
  /\ (exists sid fb gg,
         let req := mk_request [] [] []
                      [("fatebook_tracker", VStr "t");
                       ("session_id", VStr "abc")] None in
         let cookies := VDict [("session_id", VStr sid);
                               ("fatebook_tracker", fb);
                               ("googall_tracker", gg)] in
         last_value "session_id" (FastAPI.cookies req) = Some (VStr sid)
         /\ (fb = VNone \/ exists s, fb = VStr s)
         /\ (gg = VNone \/ exists s, gg = VStr s)
         /\ dispatch app GET "/items/" req
            = mk_outcome (OK cookies) [[("cookies", cookies)]]).
Proof.
  split.
  - exact (proj1 (read_items_needs_session_id
                    (mk_request [] [] []
                       [("fatebook_tracker", VStr "t")] None))
                 eq_refl).
  - apply (proj2 (read_items_needs_session_id
                    (mk_request [] [] []
                       [("fatebook_tracker", VStr "t");
                        ("session_id", VStr "abc")] None))
                 [("cookies",
                   VDict [("session_id", VStr "abc");
                          ("fatebook_tracker", VStr "t");
                          ("googall_tracker", VNone)])]).
    rewrite (schema_of_route _ _ _ route_items_cookies). reflexivity.
Defined.

(** ** Undeclared fields *)

Lemma coerce_all_error c l e :
  (forall x e', In x l -> c x = inl e' -> e' <> UnexpectedFieldError) ->
  coerce_all c l = inl e -> e <> UnexpectedFieldError.
Proof.
  induction l as [|x l IH]; intros Hc H; [discriminate H|].
  cbn [coerce_all] in H. destruct (c x) as [e1|y] eqn:Ex.
  - injection H as <-. apply (Hc x); [now left|exact Ex].
  - destruct (coerce_all c l) as [e2|ys]; [|discriminate H].
    injection H as <-. apply IH; [|reflexivity].
    intros x' e' Hin. apply Hc. now right.
Qed.

Lemma parsed_error {A} t v (wrap : A -> value) o e :
  parsed t v wrap o = inl e -> e <> UnexpectedFieldError.
Proof.
  destruct o; intros H; [discriminate H|]. injection H as <-. discriminate.
Qed.

(** Coercion fails with a coercion or an enumeration error only. *)
Lemma coerce_error t : forall v e,
  coerce t v = inl e -> e <> UnexpectedFieldError.
Proof.
  induction t as [| | | | | | | |ms|ms|elt IH|t' IH|]; intros v e H;
    try (destruct v; cbn [coerce] in H;
         first [ discriminate H
               | apply parsed_error in H; exact H
               | injection H as <-; discriminate ]).
  - destruct v; cbn [coerce] in H; try (injection H as <-; discriminate).
    destruct (mem_str s ms); [discriminate H|]. injection H as <-. discriminate.
  - destruct v; cbn [coerce] in H; try (injection H as <-; discriminate).
    destruct (mem_str s ms); [discriminate H|]. injection H as <-. discriminate.
  - destruct v; cbn [coerce] in H; try (injection H as <-; discriminate).
    fold (coerce elt) in H.
    destruct (coerce_all (coerce elt) l) as [e1|l'] eqn:El; [|discriminate H].
    injection H as <-. apply (coerce_all_error _ _ _ (fun x e' _ => IH x e') El).
  - destruct v; cbn [coerce] in H; try discriminate H; apply (IH _ _ H).
Qed.

Lemma run_after_error fs : forall v e,
  run_after fs v = inl e -> e <> UnexpectedFieldError.
Proof.
  induction fs as [|f fs IH]; intros v e H; [discriminate H|].
  cbn [run_after] in H. destruct (f v) as [w|x].
  - apply (IH _ _ H).
  - injection H as <-. discriminate.
Qed.

Lemma validate_field_error f raw e :
  validate_field f raw = inl e -> e <> UnexpectedFieldError.
Proof.
  destruct raw as [r|]; cbn [validate_field].
  - unfold validate_value. destruct (coerce (f_type f) r) as [e1|v] eqn:Ec.
    + intros H. injection H as <-. apply (coerce_error _ _ _ Ec).
    + destruct (is_none v); [intros H; discriminate H|].
      destruct (negb (in_range (f_info f) v));
        [intros H; injection H as <-; discriminate|].
      destruct (negb (in_length (f_info f) v));
        [intros H; injection H as <-; discriminate|].
      destruct (negb (in_pattern (f_info f) v));
        [intros H; injection H as <-; discriminate|].
      apply run_after_error.
  - destruct (f_default f); intros H; [discriminate H|].
    injection H as <-. discriminate.
Qed.

Lemma validate_fields_error src fs raw e :
  In e (fst (validate_fields src fs raw)) -> err_kind e <> UnexpectedFieldError.
Proof.
  induction fs as [|f fs IH]; cbn [validate_fields]; [intros []|].
  destruct (validate_fields src fs raw) as [errs vals].
  destruct (validate_field f (raw_of src f raw)) as [k|v] eqn:Ef;
    cbn [fst] in *.
  - intros [<-|H]; [|now apply IH].
    cbn [err_kind]. apply (validate_field_error _ _ _ Ef).
  - exact IH.
Qed.

(** A parameter that is a single field, or a group that ignores undeclared
    fields, reports no unexpected field. *)
Lemma validate_param_error p req e :
  match p with
  | PField _ _ => True
  | PGroup _ _ m => m_extra_forbid m = false
  end ->
  In e (fst (validate_param p req)) -> err_kind e <> UnexpectedFieldError.
Proof.
  destruct p as [src f|src name m]; intros Hp.
  - cbn [validate_param].
    destruct (validate_field f (raw_of src f (pairs_of src req))) as [k|v] eqn:E;
      cbn [fst In]; [|intros []].
    intros [<-|[]]. cbn [err_kind]. apply (validate_field_error _ _ _ E).
  - assert (G : forall raw,
               In e (fst (let (errs, vals) := validate_group src m raw in
                          (errs, [(name, VDict vals)]))) ->
               err_kind e <> UnexpectedFieldError).
    { intros raw. unfold validate_group, unexpected. rewrite Hp.
      pose proof (validate_fields_error src (m_fields m) raw e) as F.
      destruct (validate_fields src (m_fields m) raw) as [errs vals].
      cbn [fst] in *. rewrite app_nil_r. exact F. }
    cbn [validate_param]. destruct src; try apply G.
    destruct (body req) as [[| | | | | | | | | |d]|]; try apply G;
      cbn [fst In]; intros [<-|[]]; discriminate.
Qed.

Lemma validate_error ps req e :
  Forall (fun p => match p with
                   | PField _ _ => True
                   | PGroup _ _ m => m_extra_forbid m = false
                   end) ps ->
  In e (fst (validate ps req)) -> err_kind e <> UnexpectedFieldError.
Proof.
  induction 1 as [|p ps Hp _ IH]; cbn [validate]; [intros []|].
  pose proof (validate_param_error p req e Hp) as P.
  destruct (validate_param p req) as [e1 k1].
  destruct (validate ps req) as [e2 k2]. cbn [fst] in *.
  intros H. apply in_app_or in H as [H|H]; [now apply P|now apply IH].
Qed.

Lemma app_groups_open :
  Forall (Forall (fun p => match p with
                           | PField _ _ => True
                           | PGroup _ _ m => m_extra_forbid m = false
                           end)) (map r_params app).
Proof.
  let l := eval lazy -[no_spaces] in (map r_params app) in
  change (map r_params app) with l.
  repeat (constructor; [repeat (constructor; [exact I || reflexivity|]);
                        constructor|]).
  constructor.
Qed.

(** X15.  No route of the application rejects a request for what it
    carries beyond the declared parameters: the class [Cookies] of line
    226, the only one that forbids undeclared fields, is attached to no
    route, so no validation error of any route is an unexpected field. *)
Theorem no_route_rejects_undeclared_fields r req errs calls e :
  In r app ->
  serve r req = mk_outcome (UnprocessableEntity errs) calls ->
  In e errs ->
  err_kind e <> UnexpectedFieldError.
Proof.
  intros Hin Hs He.
  pose proof (proj1 (Forall_forall _ (map r_params app)) app_groups_open
                    (r_params r) (in_map r_params app r Hin)) as Hopen.
  pose proof (validate_error (r_params r) req e Hopen) as V.
  revert Hs. unfold serve, validate_request.
  destruct (validate (r_params r) req) as [[|e0 es] kwargs]; cbn [fst] in V.
  - destruct (r_handler r kwargs); intros Hs; discriminate Hs.
  - intros Hs. injection Hs as <- _. exact (V He).
Qed.

(** GET /items/ without its required cookie and with an undeclared one:
    the only error is the missing [session_id]. *)
Lemma no_route_rejects_undeclared_fields_witness :
  let r := mk_route GET "/items/" "read_items"
                    [PGroup Cookie "cookies" Cookies] read_items' in
  let req := mk_request [] [] [] [("tracker", VStr "1")] None in
  let e := mk_error Cookie "session_id" MissingFieldError in
  serve r req = mk_outcome (UnprocessableEntity [e]) []
  /\ err_kind e <> UnexpectedFieldError.
Proof.
  intros r req e. split; [reflexivity|].
  apply (no_route_rejects_undeclared_fields r req [e] []).
  - exact (proj1 (find_some _ _ route_items_cookies)).
  - reflexivity.
  - now left.
Defined.
